(** * PypTeX: the fragment tokenizer, the two compile passes and the cache

    A shallow embedding of [pyptex/__init__.py]: the regular expression
    [pypparser] and the substitution walk of [pyptex.process], the
    dependency table ([dep], [resolvedeps]), the execution of one fragment
    ([run], [mylatex], [__setupfig__], [showall]) and the cache protocol of
    [pyptex.compile].

    Python objects are modelled by the inductive [value]; the instance
    dictionary [self.__dict__] and the pickled cache are finite maps from
    field names to values.  Everything the program obtains from outside
    (the interpreter running a fragment, sympy, matplotlib's registry, the
    file system) is an operation of the class [Runtime]. *)

From Stdlib Require Import ZArith Ascii String.
From stdpp Require Import gmap strings list fin_maps pretty.

Set Default Proof Using "Type".
Open Scope Z_scope.

(** ** Text *)

(** A Python [str] is a sequence of characters; every character the
    tokenizer treats specially is an ASCII one. *)
Abbreviation text := (list ascii).

Definition txt (s : string) : text := list_ascii_of_string s.
Global Arguments txt : simpl never.

Definition nl : ascii := "010"%char.

(** ** Results and exceptions *)

Inductive exn :=
| AssertionError
| IndexError
| TypeError
| AttributeError
| KeyError
| UnboundLocalError
| OSError
| PyError (code : nat).

Inductive result (A : Type) :=
| Ok (a : A)
| Raise (e : exn).
Arguments Ok {A} a.
Arguments Raise {A} e.

(** State passing with exceptions: a method of the compiler object reads
    and updates the object and returns, or raises. *)
Definition SE (St A : Type) : Type := St → result (A * St).

Definition ret {St A} (a : A) : SE St A := λ st, Ok (a, st).

Definition raise {St A} (e : exn) : SE St A := λ _, Raise e.

Definition bind {St A B} (m : SE St A) (k : A → SE St B) : SE St B :=
  λ st, match m st with
        | Ok (a, st') => k a st'
        | Raise e => Raise e
        end.

Definition get_state {St} : SE St St := λ st, Ok (st, st).

Definition modify {St} (f : St → St) : SE St unit := λ st, Ok (tt, f st).

Notation "'let*' p ':=' m 'in' k" := (bind m (λ p, k))
  (at level 10, p pattern, m at level 100, k at level 200, only parsing).
Notation "m ';;' k" := (bind m (λ _, k))
  (at level 100, k at level 200, right associativity, only parsing).

(** ** The regular expression [pypparser]

    The pattern is an alternation of three groups, compiled with
    [re.DOTALL]:
    - group 1, a comment line: a percent sign that no backslash precedes
      (a negative look-behind), the characters up to the next newline, and
      that newline;
    - group 2, the escaped marker: two at-signs;
    - group 3, a fragment: an at-sign, an optional option (letters a-z and
      A-Z between square brackets), and either one opening brace, one or
      more characters that are not braces and a closing brace, or three
      opening braces, as few characters as possible and three closing
      braces.
    Groups 4/5 and 7/8 are the option with and without its brackets, 6 the
    body of the one-brace form, 9 the body of the three-brace form. *)

(** A group that took part in the match: where it starts and what it
    matched (it ends at [g_start + length g_text]). *)
Record group := Group { g_start : nat; g_text : text }.

(** A match object: groups 0 to 9, [None] for a group that did not take
    part. *)
Record Match := MkMatch { m_groups : list (option group) }.

Definition m_start (m : Match) (k : nat) : Z :=
  match m_groups m !! k with
  | Some (Some g) => Z.of_nat (g_start g)
  | _ => -1
  end.

Definition m_end (m : Match) (k : nat) : Z :=
  match m_groups m !! k with
  | Some (Some g) => Z.of_nat (g_start g + length (g_text g))
  | _ => -1
  end.

Definition m_group (m : Match) (k : nat) : option text :=
  match m_groups m !! k with
  | Some (Some g) => Some (g_text g)
  | _ => None
  end.

(** [[a-zA-Z]] *)
Definition is_alpha (c : ascii) : bool :=
  let n := nat_of_ascii c in
  ((65 <=? n)%nat && (n <=? 90)%nat) || ((97 <=? n)%nat && (n <=? 122)%nat).

(** [[^{}]] *)
Definition not_brace (c : ascii) : bool :=
  negb (Ascii.eqb c "{") && negb (Ascii.eqb c "}").

(** [[^\n]] *)
Definition not_nl (c : ascii) : bool := negb (Ascii.eqb c nl).

(** A greedy run [c*] of a character class: the longest prefix in the
    class, and what follows it. *)
Fixpoint span (p : ascii → bool) (s : text) : text * text :=
  match s with
  | c :: s' => if p c then let '(a, b) := span p s' in (c :: a, b) else ([], s)
  | [] => ([], [])
  end.

(** The lazy body of the three-brace form: the shortest text that is followed by three
    closing braces, and what follows those. *)
Fixpoint until_close3 (s : text) : option (text * text) :=
  match s with
  | [] => None
  | c :: s' =>
      match s with
      | c1 :: c2 :: c3 :: r =>
          if Ascii.eqb c1 "}" && Ascii.eqb c2 "}" && Ascii.eqb c3 "}"
          then Some ([], r)
          else match until_close3 s' with
               | Some (b, r') => Some (c :: b, r')
               | None => None
               end
      | _ => None
      end
  end.

(** The optional option: the letters between brackets when there are
    some, and what follows.  The letters are matched greedily and no letter is a
    bracket, so there is nothing to backtrack into. *)
Definition opt_tag (s : text) : option text * text :=
  match s with
  | c :: s1 =>
      if Ascii.eqb c "["
      then let '(o, s2) := span is_alpha s1 in
           match s2 with
           | c' :: s3 => if Ascii.eqb c' "]" then (Some o, s3) else (None, s)
           | [] => (None, s)
           end
      else (None, s)
  | [] => (None, s)
  end.

(** The groups an option contributes: the bracketed text and the letters. *)
Definition tag_groups (pos : nat) (tag : option text) : list (option group) :=
  match tag with
  | Some o => [Some (Group (pos + 1) ("[" :: o ++ ["]"]))%char; Some (Group (pos + 2) o)]
  | None => [None; None]
  end.

Definition tag_text (tag : option text) : text :=
  match tag with
  | Some o => ("[" :: o ++ ["]"])%char
  | None => []
  end.

(** First alternative, the comment line, at position [pos]; [prev] is the
    character before it, which the look-behind inspects. *)
Definition match_comment (prev : option ascii) (pos : nat) (s : text) : option Match :=
  match s with
  | c :: s1 =>
      if Ascii.eqb c "%" && negb (bool_decide (prev = Some "\"%char))
      then let '(body, rest) := span not_nl s1 in
           match rest with
           | c' :: _ =>
               let w := Group pos (c :: body ++ [c']) in
               Some (MkMatch (Some w :: Some w :: replicate 8 None))
           | [] => None
           end
      else None
  | [] => None
  end.

(** Second alternative: the escaped marker. *)
Definition match_escape (pos : nat) (s : text) : option Match :=
  match s with
  | c1 :: c2 :: _ =>
      if Ascii.eqb c1 "@" && Ascii.eqb c2 "@"
      then let w := Group pos [c1; c2] in
           Some (MkMatch (Some w :: None :: Some w :: replicate 7 None))
      else None
  | _ => None
  end.

(** Third alternative, first form: one brace, a body without braces. *)
Definition match_brace1 (pos : nat) (s : text) : option Match :=
  match s with
  | c :: s1 =>
      if Ascii.eqb c "@"
      then let '(tag, s2) := opt_tag s1 in
           match s2 with
           | b :: s3 =>
               if Ascii.eqb b "{"
               then let '(body, s4) := span not_brace s3 in
                    match body, s4 with
                    | _ :: _, e :: _ =>
                        if Ascii.eqb e "}"
                        then let w := Group pos (c :: tag_text tag ++ b :: body ++ [e]) in
                             let z0 := (pos + 1 + length (tag_text tag) + 1)%nat in
                             Some (MkMatch (Some w :: None :: None :: Some w ::
                                            tag_groups pos tag ++
                                            Some (Group z0 body) :: replicate 3 None))
                        else None
                    | _, _ => None
                    end
               else None
           | [] => None
           end
      else None
  | [] => None
  end.

(** Third alternative, second form: three braces, a lazy body. *)
Definition match_brace3 (pos : nat) (s : text) : option Match :=
  match s with
  | c :: s1 =>
      if Ascii.eqb c "@"
      then let '(tag, s2) := opt_tag s1 in
           match s2 with
           | b1 :: b2 :: b3 :: s3 =>
               if Ascii.eqb b1 "{" && Ascii.eqb b2 "{" && Ascii.eqb b3 "{"
               then match until_close3 s3 with
                    | Some (body, _) =>
                        let w := Group pos (c :: tag_text tag ++ [b1; b2; b3] ++ body ++ txt "}}}") in
                        let z0 := (pos + 1 + length (tag_text tag) + 3)%nat in
                        Some (MkMatch (Some w :: None :: None :: Some w ::
                                       replicate 3 None ++ tag_groups pos tag ++
                                       [Some (Group z0 body)]))
                    | None => None
                    end
               else None
           | _ => None
           end
      else None
  | [] => None
  end.

(** [pypparser.match] at position [pos] of a text whose remainder is [s]:
    the alternatives are tried in the order they are written. *)
Definition pypparser_match (prev : option ascii) (pos : nat) (s : text) : option Match :=
  match match_comment prev pos s with
  | Some m => Some m
  | None =>
      match match_escape pos s with
      | Some m => Some m
      | None =>
          match match_brace1 pos s with
          | Some m => Some m
          | None => match_brace3 pos s
          end
      end
  end.

(** The length of the whole match, [m.end(0) - m.start(0)]. *)
Definition m_len (m : Match) : nat := Z.to_nat (m_end m 0 - m_start m 0).

(** ** [re.sub] with a function as replacement

    [pattern.sub(f, doc)] searches the matches of [doc] from left to right
    without overlap, copies the text between them, and replaces each match
    by what [f] returns for it; a [None] returned by [f] contributes
    nothing.  [rest] is the text from position [pos] on, [prev] the
    character before it, and [skip] the number of characters of [rest] that
    still belong to the match found last. *)
Section Sub.
Context {St : Type}.
Variable f : Match → SE St (option text).

Fixpoint sub_loop (prev : option ascii) (pos : nat) (rest : text) (skip : nat)
    : SE St text :=
  match rest with
  | [] => ret []
  | c :: rest' =>
      match skip with
      | S n => sub_loop (Some c) (S pos) rest' n
      | O =>
          match pypparser_match prev pos rest with
          | None =>
              let* out := sub_loop (Some c) (S pos) rest' 0 in
              ret (c :: out)
          | Some m =>
              let* r := f m in
              let* out := sub_loop (Some c) (S pos) rest' (m_len m - 1) in
              ret (default [] r ++ out)
          end
      end
  end.

Definition pypparser_sub (doc : text) : SE St text := sub_loop None 0 doc 0.

End Sub.

(** [pypparser.finditer]: the matches alone. *)
Fixpoint finditer_loop (prev : option ascii) (pos : nat) (rest : text) (skip : nat)
    : list Match :=
  match rest with
  | [] => []
  | c :: rest' =>
      match skip with
      | S n => finditer_loop (Some c) (S pos) rest' n
      | O =>
          match pypparser_match prev pos rest with
          | None => finditer_loop (Some c) (S pos) rest' 0
          | Some m => m :: finditer_loop (Some c) (S pos) rest' (m_len m - 1)
          end
      end
  end.

Definition pypparser_finditer (doc : text) : list Match := finditer_loop None 0 doc 0.

(** ** [pyptex.process] *)

(** [ln = numpy.insert(numpy.cumsum(S == '\n'), 0, 0)]: [ln[i]] is the
    number of newlines among the first [i] characters. *)
Definition ln (doc : text) (i : nat) : nat :=
  length (filter (λ c, c = nl) (take i doc)).

Section Process.
Context {St : Type}.
(** [self.lc += n] *)
Variable add_lc : Z → SE St unit.
(** [runner(z, ln[z0], o)]; a runner may return [None]. *)
Variable runner : text → nat → text → SE St (option text).

Definition do_work (doc : text) (m : Match) : SE St (option text) :=
  if 0 <=? m_start m 1 then ret (m_group m 0)
  else if 0 <=? m_start m 2 then ret (Some (txt "@"))
  else
    match List.find (λ k, 0 <=? m_start m k) [6; 9]%nat with
    | Some k =>
        let z := default [] (m_group m k) in
        let z0 := Z.to_nat (m_start m k) in
        let z1 := Z.to_nat (m_end m k) in
        let o := default [] (m_group m (k - 1)) in
        add_lc (Z.of_nat (ln doc z1) - Z.of_nat (ln doc z0) + 1);;
        runner z (ln doc z0) o
    | None => raise UnboundLocalError
    end.

Definition process (doc : text) : SE St text := pypparser_sub (do_work doc) doc.

End Process.

(** *** The walk seen as a list of pieces

    What the walk does to a document, apart from the replacement function:
    the characters it copies and the matches it hands over, in order. *)
Inductive piece :=
| Lit (c : ascii)
| Tok (m : Match).

Fixpoint pieces_loop (prev : option ascii) (pos : nat) (rest : text) (skip : nat)
    : list piece :=
  match rest with
  | [] => []
  | c :: rest' =>
      match skip with
      | S n => pieces_loop (Some c) (S pos) rest' n
      | O =>
          match pypparser_match prev pos rest with
          | None => Lit c :: pieces_loop (Some c) (S pos) rest' 0
          | Some m => Tok m :: pieces_loop (Some c) (S pos) rest' (m_len m - 1)
          end
      end
  end.

Definition pieces (doc : text) : list piece := pieces_loop None 0 doc 0.

(** Replacing the matches of a list of pieces from left to right. *)
Fixpoint emit {St} (f : Match → SE St (option text)) (ps : list piece) : SE St text :=
  match ps with
  | [] => ret []
  | Lit c :: ps' =>
      let* out := emit f ps' in
      ret (c :: out)
  | Tok m :: ps' =>
      let* r := f m in
      let* out := emit f ps' in
      ret (default [] r ++ out)
  end.

(** The fragment a match stands for, as [do_work] reads it: the body [z],
    its offsets [z0] and [z1] and the option [o]; [None] for a comment line
    and for the escaped marker. *)
Record fragment := Fragment {
  fr_z : text;
  fr_z0 : nat;
  fr_z1 : nat;
  fr_o : text
}.

Definition fragment_of (m : Match) : option fragment :=
  if 0 <=? m_start m 1 then None
  else if 0 <=? m_start m 2 then None
  else
    match List.find (λ k, 0 <=? m_start m k) [6; 9]%nat with
    | Some k =>
        Some (Fragment (default [] (m_group m k))
                       (Z.to_nat (m_start m k)) (Z.to_nat (m_end m k))
                       (default [] (m_group m (k - 1))))
    | None => None
    end.

(** The matches of a document that are fragments, in order. *)
Definition fragments_of (doc : text) : list fragment :=
  omap fragment_of (pypparser_finditer doc).

(** The arguments [runner] receives for a fragment: [(z, ln[z0], o)]. *)
Definition call_of (doc : text) (fr : fragment) : text * nat * text :=
  (fr_z fr, ln doc (fr_z0 fr), fr_o fr).

(** What both substituting runners return for a fragment with option [o]
    and body [C] when the string for it is [j]. *)
Definition substituted (o C j : text) : option text :=
  if bool_decide (o = []) then Some j
  else if bool_decide (o = txt "verbatim") then Some C
  else None.

(** The document with the strings [js] put at its fragments, one string
    consumed per fragment. *)
Fixpoint splice (ps : list piece) (js : list text) : text :=
  match ps with
  | [] => []
  | Lit c :: ps' => c :: splice ps' js
  | Tok m :: ps' =>
      match fragment_of m with
      | Some fr =>
          default [] (substituted (fr_o fr) (fr_z fr) (default [] (head js)))
            ++ splice ps' (tail js)
      | None =>
          (if 0 <=? m_start m 1 then default [] (m_group m 0) else txt "@")
            ++ splice ps' js
      end
  end.

(** *** Observing a walk

    A replacement function that also records the matches it is given, and
    a runner that also records the arguments it is called with. *)
Definition on_fst {St L A} (m : SE St A) : SE (St * L) A :=
  λ s, match m s.1 with
       | Ok (a, st') => Ok (a, (st', s.2))
       | Raise e => Raise e
       end.

Definition traced {St} (f : Match → SE St (option text))
    : Match → SE (St * list Match) (option text) :=
  λ m, modify (λ s, (s.1, s.2 ++ [m]));; on_fst (f m).

Definition logged {St} (runner : text → nat → text → SE St (option text))
    : text → nat → text → SE (St * list (text * nat * text)) (option text) :=
  λ z k o, modify (λ s, (s.1, s.2 ++ [(z, k, o)]));; on_fst (runner z k o).


(** ** Python values *)

(** The values that instance fields, cache entries and fragment results
    take.  Objects with identity (figures, plots, functions, anything
    else) are told apart by a number. *)
Inductive value :=
| VNone
| VBool (b : bool)
| VInt (n : Z)
| VStr (s : text)
| VStrs (l : list text)              (* a list of strings *)
| VDeps (d : gmap text text)         (* a dict from strings to strings *)
| VNameSpace (pyptexfilename : text) (* a [pyptexNameSpace], with [self.pyp.pyptexfilename] *)
| VFigure (id : nat)                 (* a [matplotlib.pyplot.Figure] *)
| VSympyPlot (id : nat)              (* an instance of [self.__sympy_plot__] *)
| VCallable (id : nat)               (* a function, a class, a bound method *)
| VObject (id : nat).                (* any other object *)

Global Instance value_eq_dec : EqDecision value.
Proof. solve_decision. Defined.

(** [a == b] on these values: [True == 1] and [False == 0], otherwise
    structural. *)
Definition py_eq (a b : value) : bool :=
  match a, b with
  | VBool x, VInt n | VInt n, VBool x => bool_decide (n = if x then 1 else 0)
  | _, _ => bool_decide (a = b)
  end.

(** [bool(v)] *)
Definition truthy (v : value) : bool :=
  match v with
  | VNone => false
  | VBool b => b
  | VInt n => negb (n =? 0)
  | VStr s => negb (bool_decide (s = []))
  | VStrs l => negb (bool_decide (l = []))
  | VDeps d => negb (bool_decide (d = ∅))
  | _ => true
  end.

(** [callable(v)] *)
Definition callable (v : value) : bool :=
  match v with
  | VCallable _ => true
  | _ => false
  end.

(** [k[0:2] == '__' and k[-2:] == '__'] *)
Definition is_dunder (k : string) : bool :=
  let l := list_ascii_of_string k in
  bool_decide (take 2 l = txt "__") &&
  bool_decide (drop (length l - 2) l = txt "__").

(** [l[i]] on a list, negative indices counting from the end. *)
Definition py_index {A} (l : list A) (i : Z) : result A :=
  let n := Z.of_nat (length l) in
  let j := if i <? 0 then i + n else i in
  if (0 <=? j) && (j <? n)
  then match l !! Z.to_nat j with
       | Some x => Ok x
       | None => Raise IndexError
       end
  else Raise IndexError.

(** ** The state of a compile *)

(** The attributes pyptex sets on a figure object; [None] when
    [hasattr] is false. *)
Record figure := Figure {
  FIGNAME : option text;
  IG : option text;
  drawn : option bool
}.

Definition new_figure : figure := Figure None None None.

(** The lines printed on standard output. *)
Inductive event :=
| Begins (texfilename : value)
| Ends (texfilename : value)
| Executing (S : text)
| PythonResult (accum : list value)
| FoundLines (lc : value)
| DisableCacheTrue
| ArgvDiffers (live cached : value)
| FragmentDiffers (k : nat) (cached live : option text)
| DependencyMismatch (k : text) (cached live : option text)
| UsingCached
| CacheInvalidated
| SavingToFile (pyptexfilename : value)
| DependenciesAre (deps : value)
| SavingCacheFile (cachefilename : value)
| RunningLatex (cmd : text).

(** One [pyptex] object and what surrounds it: its [__dict__], the
    accumulator [self.__accum__], the attributes set on figures, standard
    output, and the environment [env] (the scope [self.__globals__] the
    fragments run in, matplotlib's registry, the file system). *)
Record world (Env : Type) := World {
  dict : gmap string value;
  accum : list value;
  figs : gmap nat figure;
  stdout : list event;
  env : Env
}.
Arguments World {Env} _ _ _ _ _.
Arguments dict {Env} _.
Arguments accum {Env} _.
Arguments figs {Env} _.
Arguments stdout {Env} _.
Arguments env {Env} _.

Definition set_dict {Env} (f : gmap string value → gmap string value) (w : world Env) : world Env :=
  World (f (dict w)) (accum w) (figs w) (stdout w) (env w).

Definition set_accum {Env} (f : list value → list value) (w : world Env) : world Env :=
  World (dict w) (f (accum w)) (figs w) (stdout w) (env w).

Definition set_figs {Env} (f : gmap nat figure → gmap nat figure) (w : world Env) : world Env :=
  World (dict w) (accum w) (f (figs w)) (stdout w) (env w).

Definition set_stdout {Env} (f : list event → list event) (w : world Env) : world Env :=
  World (dict w) (accum w) (figs w) (f (stdout w)) (env w).

Definition set_env {Env} (e : Env) (w : world Env) : world Env :=
  World (dict w) (accum w) (figs w) (stdout w) e.

(** ** What a cache file holds *)

(** What [pickle.load] gives.  A record is a dict, its keys being the
    names of the fields.  Nothing ensures that the file holds one: of an
    object of another kind the compile uses the test [k in obj], and the
    item assignment and the subscript with a string, which raise
    [TypeError] on each of these objects. *)
Inductive non_dict :=
| NStr (s : text)          (* a [str] *)
| NSeq (l : list value)    (* a list, a tuple or a set *)
| NOpaque.                 (* [None], a number, [bytes], an object without [in] *)

Inductive unpickled :=
| Dict (d : gmap string value)
| NotDict (o : non_dict).

Fixpoint starts_with (k s : text) : bool :=
  match k, s with
  | [], _ => true
  | a :: k', b :: s' => Ascii.eqb a b && starts_with k' s'
  | _ :: _, [] => false
  end.

(** [k in s] on strings *)
Fixpoint is_substring (k s : text) : bool :=
  starts_with k s ||
  match s with
  | _ :: s' => is_substring k s'
  | [] => false
  end.

(** [k in o] for a string [k] *)
Definition contains (o : non_dict) (k : text) : result bool :=
  match o with
  | NStr s => Ok (is_substring k s)
  | NSeq l => Ok (existsb (py_eq (VStr k)) l)
  | NOpaque => Raise TypeError
  end.

(** ** What the program obtains from outside *)

Class Runtime (Env : Type) := {
  (** [compile(S, filename, mode='eval')] does not raise *)
  compile_eval : text → bool;
  (** [eval(C, glob_)]: the fragment may call any method of [pyp] *)
  py_eval : text → SE (world Env) value;
  (** [compile(S, filename, mode='exec')] followed by [exec(C, glob_)] *)
  py_exec : text → SE (world Env) unit;
  (** the figures of [Gcf.get_all_fig_managers()] *)
  get_all_fig_managers : Env → list nat;
  (** [sympy.latex(X)] *)
  sympy_latex : value → result text;
  (** [str(v)], as an f-string formats a field *)
  py_str : value → text;
  (** [fmt % arg] on strings *)
  str_mod : text → text → result text;
  (** [fmt.format] applied to the fields of [self.__dict__] as keywords *)
  str_format : text → gmap string value → result text;
  (** [Path(name).touch()] *)
  path_touch : text → Env → result Env;
  (** [os.stat(k).st_mtime_ns] *)
  stat_mtime_ns : text → Env → result Z;
  (** [format_my_nanos(nanos)]: local time and floating point *)
  format_my_nanos : Z → result text;
  (** [open(name, 'rt').read()] *)
  read_text : text → Env → result text;
  (** [pickle.load(open(name, 'rb'))] *)
  pickle_load : text → Env → result unpickled;
  (** [open(name, 'wt').write(s)] *)
  write_text : text → text → Env → result Env;
  (** [pickle.dump(cache, open(name, 'wb'))] *)
  pickle_dump : text → gmap string value → Env → result Env;
  (** [os.system(cmd)] *)
  os_system : text → Env → Z * Env;
  (** [os.makedirs(name)] unless [os.path.exists(name)] *)
  makedirs : text → Env → result Env;
  (** [stripext.sub(lambda m: m.group(1), texfilename)] *)
  stripext_sub : text → text;
  (** [__file__], the path of the module *)
  module_file : text;
  (** a new scope [{'__builtins__': __builtins__, 'pyp': self}] *)
  new_globals : Env → Env
}.

Section Model.
Context {Env : Type} `{!Runtime Env}.

Local Abbreviation M := (SE (world Env)).

Definition lift {A} (r : result A) : M A :=
  λ w, match r with Ok a => Ok (a, w) | Raise e => Raise e end.

(** An operation of the runtime on the environment alone. *)
Definition lift_env (f : Env → result Env) : M unit :=
  λ w, match f (env w) with Ok e => Ok (tt, set_env e w) | Raise e => Raise e end.

(** [print(...)] *)
Definition log (e : event) : M unit := modify (set_stdout (λ l, l ++ [e])).

(** [self.k] *)
Definition getattr (k : string) : M value :=
  λ w, match dict w !! k with
       | Some v => Ok (v, w)
       | None => Raise AttributeError
       end.

(** [self.k = v] *)
Definition setattr (k : string) (v : value) : M unit :=
  modify (set_dict (insert k v)).

Definition as_str (v : value) : result text :=
  match v with VStr s => Ok s | _ => Raise TypeError end.

Definition as_strs (v : value) : result (list text) :=
  match v with VStrs l => Ok l | _ => Raise TypeError end.

(** The method [append] of a list; no other value here has one. *)
Definition as_list (v : value) : result (list text) :=
  match v with VStrs l => Ok l | _ => Raise AttributeError end.

(** [v[i]] for an integer [i]: an item of a list, a character of a
    string, a [KeyError] on a dict with string keys. *)
Definition py_getitem (v : value) (i : Z) : result text :=
  match v with
  | VStrs l => py_index l i
  | VStr s => match py_index s i with Ok c => Ok [c] | Raise e => Raise e end
  | VDeps _ => Raise KeyError
  | _ => Raise TypeError
  end.

Definition as_deps (v : value) : result (gmap text text) :=
  match v with VDeps d => Ok d | _ => Raise TypeError end.

(** [v + n] for integers ([True] counts as 1). *)
Definition py_add (v : value) (n : Z) : result value :=
  match v with
  | VInt m => Ok (VInt (m + n))
  | VBool b => Ok (VInt ((if b then 1 else 0) + n))
  | _ => Raise TypeError
  end.

(** [self.lc += n] *)
Definition add_lc (n : Z) : M unit :=
  let* lc := getattr "lc" in
  let* lc' := lift (py_add lc n) in
  setattr "lc" lc'.

(** *** Dependencies *)

(** [dep]: [self.deps[filename] = ''; return filename] *)
Definition dep (filename : text) : M text :=
  let* v := getattr "deps" in
  let* d := lift (as_deps v) in
  setattr "deps" (VDeps (<[filename := []]> d));;
  ret filename.

(** The body of the loop of [resolvedeps]: the time stamp of [k], or the
    empty string when anything raises. *)
Definition datestamp (e : Env) (k : text) : text :=
  match stat_mtime_ns k e with
  | Ok nanos => match format_my_nanos nanos with Ok ds => ds | Raise _ => [] end
  | Raise _ => []
  end.

(** [resolvedeps] *)
Definition resolvedeps : M unit :=
  let* v := getattr "deps" in
  let* d := lift (as_deps v) in
  let* w := get_state in
  setattr "deps" (VDeps (map_imap (λ k _, Some (datestamp (env w) k)) d)).

(** *** Figures *)

Definition fig_attrs (id : nat) : M figure :=
  λ w, Ok (default new_figure (figs w !! id), w).

Definition set_fig (id : nat) (f : figure → figure) : M unit :=
  modify (set_figs (λ m, <[id := f (default new_figure (m !! id))]> m)).

(** [genname]: [self.gencount += 1] and the name built from [self.gendir]
    and the pattern. *)
Definition genname (pattern : text) : M text :=
  let* c := getattr "gencount" in
  let* c' := lift (py_add c 1) in
  setattr "gencount" c';;
  let* gendir := getattr "gendir" in
  let* w := get_state in
  let* name := lift (str_format pattern (dict w)) in
  ret (py_str gendir ++ txt "/" ++ name).

(** [__setupfig__].  The local [figname] is bound only when the first
    test succeeds. *)
Definition setupfig (id : nat) : M text :=
  let* a := fig_attrs id in
  let* figname :=
    match FIGNAME a with
    | None =>
        let* n := genname (txt "fig{gencount}.eps") in
        lift_env (path_touch n);;
        dep n;;
        set_fig id (λ a, Figure (Some n) (IG a) (drawn a));;
        ret (Some n)
    | Some _ => ret None
    end in
  let* a := fig_attrs id in
  match IG a with
  | None =>
      match figname with
      | Some n =>
          let* v := getattr "includegraphics" in
          let* inc := lift (as_str v) in
          let* ig := lift (str_mod inc n) in
          set_fig id (λ a, Figure (FIGNAME a) (Some ig) (drawn a))
      | None => raise UnboundLocalError
      end
  | Some _ => ret tt
  end;;
  let* a := fig_attrs id in
  match drawn a with
  | None => set_fig id (λ a, Figure (FIGNAME a) (IG a) (Some false))
  | Some _ => ret tt
  end;;
  let* a := fig_attrs id in
  match IG a with
  | Some ig => ret ig
  | None => raise AttributeError
  end.

(** [print]: [self.__accum__.extend(argv)] *)
Definition pyp_print (argv : list value) : M unit :=
  modify (set_accum (λ l, l ++ argv)).

(** [showall] *)
Fixpoint showall_loop (l : list nat) : M unit :=
  match l with
  | [] => ret tt
  | id :: l' =>
      setupfig id;;
      let* a := fig_attrs id in
      match drawn a with
      | Some true => ret tt
      | Some false => pyp_print [VFigure id]
      | None => raise AttributeError
      end;;
      showall_loop l'
  end.

Definition showall : M unit :=
  let* w := get_state in
  showall_loop (get_all_fig_managers (env w)).

(** *** Rendering a value: [mylatex] *)
Definition mylatex (X : value) : M text :=
  match X with
  | VNone => ret []
  | VStr s => ret s
  | VNameSpace f => ret (txt "\input{" ++ f ++ txt "}")
  | VFigure id =>
      setupfig id;;
      set_fig id (λ a, Figure (FIGNAME a) (IG a) (Some true));;
      let* a := fig_attrs id in
      match IG a with
      | Some ig => ret ig
      | None => raise AttributeError
      end
  | VSympyPlot _ => ret []
  | _ => lift (sympy_latex X)
  end.

(** *** Executing a fragment: [run] *)
Definition run (S : text) (k : nat) : M (list value) :=
  log (Executing S);;
  let S := replicate k nl ++ S in
  modify (set_accum (λ _, []));;
  (if compile_eval S
   then let* r := py_eval S in
        pyp_print [r];;
        let* a := getattr "autoshow" in
        if truthy a then showall else ret tt
   else py_exec S;;
        let* a := getattr "autoshow" in
        if truthy a then showall else ret tt);;
  let* w := get_state in
  log (PythonResult (accum w));;
  ret (accum w).

(** [map(f, l)] consumed from left to right. *)
Fixpoint mapM {A B} (f : A → M B) (l : list A) : M (list B) :=
  match l with
  | [] => ret []
  | x :: l' =>
      let* y := f x in
      let* ys := mapM f l' in
      ret (y :: ys)
  end.

End Model.

(** ** [pyptex.compile] *)

Section Compile.
Context {Env : Type} `{!Runtime Env}.

Local Abbreviation M := (SE (world Env)).

(** [try: m except Exception: h] *)
Definition catch {A} (m : M A) (h : M A) : M A :=
  λ w, match m w with
       | Ok r => Ok r
       | Raise _ => h w
       end.

(** *** The three runners *)

(** [scanner], of the scan pass *)
Definition scanner (C : text) (k : nat) (o : text) : M (option text) :=
  let* v := getattr "fragments" in
  let* l := lift (as_list v) in
  setattr "fragments" (VStrs (l ++ [C]));;
  if bool_decide (o ∈ [[]; txt "verbatim"])
  then ret (Some [])
  else raise AssertionError.

Definition as_int (v : value) : result Z :=
  match v with
  | VInt n => Ok n
  | VBool b => Ok (if b then 1 else 0)
  | _ => Raise TypeError
  end.

(** [subber], of the substitution pass on a cache hit *)
Definition subber (C : text) (k : nat) (o : text) : M (option text) :=
  let* c := getattr "subcount" in
  let* c' := lift (py_add c 1) in
  setattr "subcount" c';;
  if bool_decide (o = [])
  then let* v := getattr "outputs" in
       let* c := getattr "subcount" in
       let* i := lift (as_int c) in
       let* x := lift (py_getitem v i) in
       ret (Some x)
  else if bool_decide (o = txt "verbatim")
  then ret (Some C)
  else ret None.

(** [''.join(map(self.mylatex, self.run(C, k)))] *)
Definition rendered (C : text) (k : nat) : M text :=
  let* result := run C k in
  let* l := mapM mylatex result in
  ret (concat l).

(** [appender], of the substitution pass on a cache miss.  The list in
    [self.outputs] is taken to be the one the field holds when the
    rendering is done. *)
Definition appender (C : text) (k : nat) (o : text) : M (option text) :=
  let* j := rendered C k in
  let* v := getattr "outputs" in
  let* l := lift (as_list v) in
  setattr "outputs" (VStrs (l ++ [j]));;
  if bool_decide (o = [])
  then let* v := getattr "outputs" in
       let* x := lift (py_getitem v (-1)) in
       ret (Some x)
  else if bool_decide (o = txt "verbatim")
  then ret (Some C)
  else ret None.

(** *** Loading the cache (lines 523 to 537) *)

Definition defaults : list (string * value) :=
  [("fragments", VStrs []); ("outputs", VStrs []); ("deps", VDeps ∅);
   ("argv", VStrs []); ("disable_cache", VBool true)]%string.

(** [for k, v in defaults.items(): if k not in cache: cache[k] = v] *)
Definition fill_defaults (cache : gmap string value) : gmap string value :=
  foldl (λ c kv, match c !! kv.1 with
                 | Some _ => c
                 | None => <[kv.1 := kv.2]> c
                 end) cache defaults.

(** The same loop on an object that is no dict: the test [k not in cache]
    may raise, and the assignment [cache[k] = v] does. *)
Fixpoint fill_other (o : non_dict) (ds : list (string * value)) : result unit :=
  match ds with
  | [] => Ok tt
  | kv :: ds' =>
      match contains o (list_ascii_of_string kv.1) with
      | Ok true => fill_other o ds'
      | Ok false => Raise TypeError
      | Raise e => Raise e
      end
  end.

(** Only the load is inside the [try]; the loop that fills in the
    defaults is not. *)
Definition load_cache : M unpickled :=
  let* cache :=
    catch (let* v := getattr "cachefilename" in
           let* name := lift (as_str v) in
           let* w := get_state in
           lift (pickle_load name (env w)))
          (ret (Dict ∅)) in
  match cache with
  | Dict d => ret (Dict (fill_defaults d))
  | NotDict o => lift (fill_other o defaults);; ret (NotDict o)
  end.

(** [cache[k]] *)
Definition cache_get (cache : gmap string value) (k : string) : M value :=
  match cache !! k with
  | Some v => ret v
  | None => raise KeyError
  end.

(** *** The scan pass (lines 538 to 546) *)
Definition scan_pass (doc : text) : M unit :=
  setattr "fragments" (VStrs []);;
  process add_lc scanner doc;;
  let* lc := getattr "lc" in
  log (FoundLines lc).

(** *** The freshness snapshot (lines 547 to 551) *)

(** [for k in v] *)
Definition iter_keys (v : value) : result (list text) :=
  match v with
  | VDeps d => Ok (map fst (map_to_list d))
  | VStrs l => Ok l
  | VStr s => Ok (map (λ c, [c]) s)
  | _ => Raise TypeError
  end.

(** Returns [saveddeps]. *)
Definition snapshot (cache : gmap string value) : M value :=
  let* saveddeps := getattr "deps" in
  setattr "deps" (VDeps ∅);;
  let* cd := cache_get cache "deps" in
  let* keys := lift (iter_keys cd) in
  mapM dep keys;;
  resolvedeps;;
  ret saveddeps.

(** *** The validity decision (lines 552 to 574) *)

(** [dictdiff]: an item of the symmetric difference of the items of two
    dicts, [None] when there is none.  Python takes whichever item the set
    iterates first; here it is the first one in the order of the keys. *)
Definition dictdiff `{Countable K} (A B : gmap K text) : option (K * text) :=
  head (filter (λ kv, B !! kv.1 ≠ Some kv.2) (map_to_list A) ++
        filter (λ kv, A !! kv.1 ≠ Some kv.2) (map_to_list B)).

Definition check_cache (cache : gmap string value) : M bool :=
  let* dc := cache_get cache "disable_cache" in
  if truthy dc then log DisableCacheTrue;; ret false
  else
    let* cargv := cache_get cache "argv" in
    let* argv := getattr "argv" in
    if negb (py_eq cargv argv) then log (ArgvDiffers argv cargv);; ret false
    else
      let* cfr := cache_get cache "fragments" in
      let* fr := getattr "fragments" in
      if negb (py_eq cfr fr)
      then let* l1 := lift (as_strs cfr) in
           let* l2 := lift (as_strs fr) in
           let F1 : gmap nat text := map_seq 0 l1 in
           let F2 : gmap nat text := map_seq 0 l2 in
           match dictdiff F1 F2 with
           | Some (k, _) => log (FragmentDiffers k (F1 !! k) (F2 !! k));; ret false
           | None => raise TypeError
           end
      else
        let* deps := getattr "deps" in
        let* cdeps := cache_get cache "deps" in
        if negb (py_eq deps cdeps)
        then let* F1 := lift (as_deps cdeps) in
             let* F2 := lift (as_deps deps) in
             match dictdiff F1 F2 with
             | Some (k, _) => log (DependencyMismatch k (F1 !! k) (F2 !! k));; ret false
             | None => raise TypeError
             end
        else ret true.

(** *** Cache hit (lines 575 to 588) *)
Definition restore (cache : gmap string value) (doc : text) : M unit :=
  log UsingCached;;
  modify (set_dict (λ d, cache ∪ d));;
  setattr "subcount" (VInt (-1));;
  let* out := process add_lc subber doc in
  setattr "compiled" (VStr out).

(** *** Cache miss (lines 589 to 602) *)
Definition recompute (saveddeps : value) (doc : text) : M unit :=
  log CacheInvalidated;;
  setattr "deps" saveddeps;;
  setattr "outputs" (VStrs []);;
  let* out := process add_lc appender doc in
  setattr "compiled" (VStr out).

(** *** Writing the document (lines 604 to 609) *)
Definition write_output : M unit :=
  let* pf := getattr "pyptexfilename" in
  (if truthy pf
   then log (SavingToFile pf);;
        let* name := lift (as_str pf) in
        let* c := getattr "compiled" in
        let* s := lift (as_str c) in
        lift_env (write_text name s)
   else ret tt);;
  resolvedeps;;
  let* d := getattr "deps" in
  log (DependenciesAre d).

(** *** Persisting the cache (lines 610 to 621) *)

(** The record built from [self.__dict__]. *)
Definition cache_record (d : gmap string value) : gmap string value :=
  filter (λ kv, is_dunder kv.1 = false ∧ callable kv.2 = false) d.

Definition persist (cached : bool) : M unit :=
  if negb cached
  then let* cf := getattr "cachefilename" in
       log (SavingCacheFile cf);;
       let* name := lift (as_str cf) in
       let* w := get_state in
       lift_env (pickle_dump name (cache_record (dict w)))
  else ret tt.

(** *** The external command (lines 622 to 625) *)
Definition latex_step : M unit :=
  let* lc := getattr "latexcommand" in
  if truthy lc
  then let* fmt := lift (as_str lc) in
       let* w := get_state in
       let* cmd := lift (str_format fmt (dict w)) in
       log (RunningLatex cmd);;
       let* w := get_state in
       let '(code, e) := os_system cmd (env w) in
       modify (set_env e);;
       setattr "exitcode" (VInt code)
  else ret tt.

(** *** The whole of [compile]; returns [cached]. *)

(** Lines 521 and 522. *)
Definition read_document : M text :=
  let* tf := getattr "texfilename" in
  let* name := lift (as_str tf) in
  let* w := get_state in
  lift (read_text name (env w)).

(** Lines 538 to 602: from the scan to the substituted document. *)
Definition compile_doc (cache : gmap string value) (doc : text) : M bool :=
  scan_pass doc;;
  let* saveddeps := snapshot cache in
  let* cached := check_cache cache in
  (if cached then restore cache doc else recompute saveddeps doc);;
  ret cached.

(** Lines 538 to 625. *)
Definition compile_rest (cache : gmap string value) (doc : text) : M bool :=
  let* cached := compile_doc cache doc in
  write_output;;
  persist cached;;
  latex_step;;
  ret cached.

(** With a cache that is no dict and that the loop of the defaults let
    pass, the scan is made and the subscript [cache['deps']] of line 549
    raises. *)
Definition compile : M bool :=
  let* doc := read_document in
  let* cache := load_cache in
  match cache with
  | Dict d => compile_rest d doc
  | NotDict _ =>
      scan_pass doc;;
      let* saveddeps := getattr "deps" in
      setattr "deps" (VDeps ∅);;
      raise TypeError
  end.

(** *** [__init__]: a new object in the current environment *)

(** The fields [__init__] sets before it calls [compile], with those of
    [generateddir] and the dependency on the module itself. *)
Definition init_fields (texfilename : text) (argv : option (list text))
    (latexcommand : value) : M unit :=
  let filename := stripext_sub texfilename in
  let foo := filename ++ txt ".tex" in
  modify (λ w, World
    (list_to_map
       [("__sympy_plot__", VCallable 0); ("__globals__", VObject 0);
        ("__frozen__", VObject 1);
        ("filename", VStr filename); ("texfilename", VStr texfilename);
        ("pyptexfilename",
         VStr (if bool_decide (foo ≠ texfilename) then foo
               else filename ++ txt ".pyptex"));
        ("cachefilename", VStr (filename ++ txt ".pickle"));
        ("bibfilename", VStr (filename ++ txt ".bib"));
        ("auxfilename", VStr (filename ++ txt ".aux"));
        ("includegraphics", VStr (txt "\includegraphics[width=\textwidth]{%s}"));
        ("latex", VStr (txt "pdflatex --file-line-error --synctex=1"));
        ("latexcommand", latexcommand);
        ("disable_cache", VBool false); ("autoshow", VBool true);
        ("__show__", VCallable 1);
        ("deps", VDeps ∅); ("bibs", VStrs []); ("lc", VInt 0);
        ("argv", VStrs (default [] argv)); ("exitcode", VInt 0)]%string)
    [] (figs w) (stdout w) (new_globals (env w)));;
  let gendir := filename ++ txt "-generated" in
  setattr "gendir" (VStr gendir);;
  lift_env (makedirs gendir);;
  setattr "gencount" (VInt 0);;
  dep module_file;;
  ret tt.

Definition pyptex_init (texfilename : text) (argv : option (list text))
    (latexcommand : value) : M bool :=
  log (Begins (VStr texfilename));;
  init_fields texfilename argv latexcommand;;
  let* cached := compile in
  log (Ends (VStr texfilename));;
  ret cached.

End Compile.

(** ** The vocabulary of the statements *)

(** The matches among the pieces of a walk. *)
Definition toks (ps : list piece) : list Match :=
  omap (λ p, match p with Tok m => Some m | Lit _ => None end) ps.

(** The bodies of the fragments among the pieces of a walk. *)
Definition bodies (ps : list piece) : list text :=
  map fr_z (omap fragment_of (toks ps)).

(** A walk observed: the runner's calls and the matches are recorded
    beside the state. *)
Definition observed_process {St} (add : Z → SE St unit)
    (runner : text → nat → text → SE St (option text)) (doc : text)
    : SE (St * list (text * nat * text) * list Match) text :=
  pypparser_sub (traced (do_work (λ n, on_fst (add n)) (logged runner) doc)) doc.

(** The match object of a comment line and of the escaped marker. *)
Definition comment_match (pos : nat) (line : text) : Match :=
  MkMatch (Some (Group pos line) :: Some (Group pos line) :: replicate 8 None).

Definition escape_match (pos : nat) : Match :=
  MkMatch (Some (Group pos (txt "@@")) :: None :: Some (Group pos (txt "@@")) ::
           replicate 7 None).

(** A match the scan pass accepts: a comment line, the escaped marker, or
    a fragment whose option is empty or [verbatim]. *)
Definition scannable (m : Match) : bool :=
  match fragment_of m with
  | Some fr => bool_decide (fr_o fr ∈ [[]; txt "verbatim"])
  | None => (0 <=? m_start m 1) || (0 <=? m_start m 2)
  end.

(** A computation that, when it returns, leaves [proj] of the state as it
    was. *)
Definition preserves {St X A} (proj : St → X) (m : SE St A) : Prop :=
  ∀ st a st', m st = Ok (a, st') → proj st' = proj st.

Definition field {Env} (k : string) (w : world Env) : option value := dict w !! k.

(** The fragments of the document do not assign the field [k] of the
    compiler object. *)
Definition engine_keeps {Env} `{!Runtime Env} (k : string) : Prop :=
  (∀ S, preserves (field k) (py_eval S)) ∧ (∀ S, preserves (field k) (py_exec S)).

Definition is_int (v : option value) : Prop := ∃ n, v = Some (VInt n).

(** The table [resolvedeps] computes from the keys of [d]. *)
Definition snapshot_of {Env} `{!Runtime Env} (e : Env) (d : gmap text text)
    : gmap text text :=
  map_imap (λ k _, Some (datestamp e k)) d.

(** What the validity decision prints, by the first check that fails. *)
Definition first_failure (c1 c2 c3 c4 : bool) (argv cargv : value)
    (evs : list event) : Prop :=
  match c1, c2, c3, c4 with
  | false, _, _, _ => evs = [DisableCacheTrue]
  | true, false, _, _ => evs = [ArgvDiffers argv cargv]
  | true, true, false, _ => ∃ k x y, evs = [FragmentDiffers k x y]
  | true, true, true, false => ∃ k x y, evs = [DependencyMismatch k x y]
  | true, true, true, true => evs = []
  end.

(** The values [mylatex] hands to [sympy.latex]. *)
Definition other_value (X : value) : bool :=
  match X with
  | VBool _ | VInt _ | VStrs _ | VDeps _ | VCallable _ | VObject _ => true
  | _ => false
  end.

(** The attributes of a figure. *)
Definition attrs {Env} (w : world Env) (id : nat) : figure :=
  default new_figure (figs w !! id).

(** The events printed between two states. *)
Definition printed {Env} (w w' : world Env) : list event :=
  drop (length (stdout w)) (stdout w').

Definition saved_cache (evs : list event) : bool :=
  existsb (λ e, match e with SavingCacheFile _ => true | _ => false end) evs.

Definition executed (evs : list event) : list text :=
  omap (λ e, match e with Executing src => Some src | _ => None end) evs.

(** ** A small runtime

    A concrete environment on which the model runs: a few files, a scope
    that is the list of names defined so far, and an interpreter that
    knows a handful of fragments. *)
Module Toy.

Record toy_env := ToyEnv {
  t_files : gmap text text;
  t_pickles : gmap text (gmap string value);
  t_mtime : gmap text Z;
  t_clock : Z;
  t_scope : list text;
  t_gcf : list nat;
  (** the cache files that hold an object that is no dict *)
  t_others : gmap text non_dict
}.

Definition toy_world := world toy_env.

Definition decimal (n : Z) : text := txt (pretty n).

Definition strip_nl (s : text) : text := (span (λ c, Ascii.eqb c nl) s).2.

Definition define (name : text) (e : toy_env) : result toy_env :=
  Ok (ToyEnv (t_files e) (t_pickles e) (t_mtime e) (t_clock e)
             (name :: t_scope e) (t_gcf e) (t_others e)).

(** The expressions the interpreter evaluates. *)
Definition toy_eval (S : text) : SE toy_world value :=
  let s := string_of_list_ascii (strip_nl S) in
  if bool_decide (s = "1+1"%string) then ret (VInt 2)
  else if bool_decide (s = "2+2"%string) then ret (VInt 4)
  else if bool_decide (s = "1"%string) then ret (VInt 1)
  else if bool_decide (s = "'hi'"%string) then ret (VStr (txt "hi"))
  else if bool_decide (s = "x"%string)
  then let* w := get_state in
       if bool_decide (txt "x" ∈ t_scope (env w)) then ret (VInt 1)
       else raise (PyError 1)
  else if bool_decide (s = "pyp.dep('r')"%string)
  then let* r := dep (txt "r") in ret (VStr r)
  else raise (PyError 0).

Definition toy_compile_eval (S : text) : bool :=
  let s := string_of_list_ascii (strip_nl S) in
  bool_decide (s ∈ ["1+1"; "2+2"; "1"; "'hi'"; "x"; "pyp.dep('r')"]%string).

(** The statements the interpreter executes. *)
Definition toy_exec (S : text) : SE toy_world unit :=
  let s := string_of_list_ascii (strip_nl S) in
  if bool_decide (s = "x=1"%string) then lift_env (define (txt "x"))
  else if bool_decide (s = "pyp.disable_cache=True"%string)
  then setattr "disable_cache" (VBool true)
  else raise (PyError 0).

Definition toy_write (name s : text) (e : toy_env) : result toy_env :=
  Ok (ToyEnv (<[name := s]> (t_files e)) (t_pickles e)
             (<[name := t_clock e]> (t_mtime e)) (t_clock e) (t_scope e) (t_gcf e)
             (t_others e)).

Definition toy_dump (name : text) (d : gmap string value) (e : toy_env) : result toy_env :=
  Ok (ToyEnv (t_files e) (<[name := d]> (t_pickles e))
             (<[name := t_clock e]> (t_mtime e)) (t_clock e) (t_scope e) (t_gcf e)
             (delete name (t_others e))).

Definition toy_of_option {A} (o : option A) : result A :=
  match o with Some a => Ok a | None => Raise OSError end.

Definition toy_load (name : text) (e : toy_env) : result unpickled :=
  match t_others e !! name with
  | Some o => Ok (NotDict o)
  | None => toy_of_option (Dict <$> t_pickles e !! name)
  end.

Global Instance toy_runtime : Runtime toy_env := {|
  compile_eval := toy_compile_eval;
  py_eval := toy_eval;
  py_exec := toy_exec;
  get_all_fig_managers := t_gcf;
  sympy_latex v := match v with
                   | VInt n => Ok (decimal n)
                   | _ => Ok (txt "\mathtt{obj}")
                   end;
  py_str v := match v with
              | VStr s => s
              | VInt n => decimal n
              | _ => txt "?"
              end;
  str_mod fmt arg := Ok (txt "\includegraphics{" ++ arg ++ txt "}");
  str_format fmt d :=
    if bool_decide (fmt = txt "fig{gencount}.eps")
    then match d !! "gencount"%string with
         | Some (VInt n) => Ok (txt "fig" ++ decimal n ++ txt ".eps")
         | _ => Raise KeyError
         end
    else Ok fmt;
  path_touch name := toy_write name [];
  stat_mtime_ns k e := toy_of_option (t_mtime e !! k);
  format_my_nanos n := Ok (decimal n);
  read_text name e := toy_of_option (t_files e !! name);
  pickle_load := toy_load;
  write_text := toy_write;
  pickle_dump := toy_dump;
  os_system cmd e := (0, e);
  makedirs name e := Ok e;
  stripext_sub name := take (length name - 4) name;
  module_file := txt "pyptex.py";
  new_globals e := ToyEnv (t_files e) (t_pickles e) (t_mtime e) (t_clock e) [] (t_gcf e)
                          (t_others e)
|}.

(** The state a computation leaves, or the state unchanged when it raised. *)
Definition after {St A} (m : SE St A) (st : St) : St :=
  match m st with
  | Ok (_, st') => st'
  | Raise _ => st
  end.

(** What a computation returns, or [d] when it raised. *)
Definition returned {St A} (m : SE St A) (st : St) (d : A) : A :=
  match m st with
  | Ok (a, _) => a
  | Raise _ => d
  end.

(** A document with two plain fragments, a verbatim one, an escaped
    marker and a comment line. *)
Definition doc1 : text :=
  txt "a @{1+1} b @[verbatim]{x=1} c @{x} @@ % @{2+2}" ++ nl :: txt "d".

(** A document that disables the cache. *)
Definition doc2 : text := txt "a @{pyp.disable_cache=True} b".

Definition start (doc : text) : toy_world :=
  World ∅ [] ∅ []
    (ToyEnv {[ txt "a.tex" := doc ]} ∅
            {[ txt "a.tex" := 5; txt "pyptex.py" := 3 ]} 7 [] [] ∅).

(** [pyptex('a.tex')] *)
Definition construct : SE toy_world bool :=
  pyptex_init (txt "a.tex") None (VBool false).

(** The object before [compile] is called. *)
Definition fresh (doc : text) : toy_world :=
  after (init_fields (txt "a.tex") None (VBool false)) (start doc).

(** A second object, before [compile] is called, in the environment the
    first one left. *)
Definition again (doc : text) : toy_world :=
  after (init_fields (txt "a.tex") None (VBool false)) (after construct (start doc)).

(** Two runners on states of their own: one records the bodies and
    returns empty strings, one substitutes the body between brackets. *)
Definition recorder (z : text) (k : nat) (o : text) : SE (list text) (option text) :=
  modify (λ l, l ++ [z]);; ret (Some []).

Definition replacer (z : text) (k : nat) (o : text) : SE unit (option text) :=
  ret (Some (txt "<" ++ z ++ txt ">")).

Definition no_lc {St} (n : Z) : SE St unit := ret tt.

(** The same start with a cache file [a.pickle] that holds [o], an object
    that is no dict. *)
Definition start_with (o : non_dict) (doc : text) : toy_world :=
  World ∅ [] ∅ []
    (ToyEnv {[ txt "a.tex" := doc ]} ∅
            {[ txt "a.tex" := 5; txt "pyptex.py" := 3; txt "a.pickle" := 4 ]} 7 [] []
            {[ txt "a.pickle" := o ]}).

(** A list that holds the five names of the defaults. *)
Definition five_names : non_dict :=
  NSeq [VStr (txt "fragments"); VStr (txt "outputs"); VStr (txt "deps");
        VStr (txt "argv"); VStr (txt "disable_cache")].

(** *** An interpreter that changes [pyp.outputs] in place

    The same interpreter with one expression more, which appends a string
    to the list [pyp.outputs] and evaluates to [None]. *)
Definition is_append (S : text) : bool :=
  bool_decide (string_of_list_ascii (strip_nl S) = "pyp.outputs.append('zz')"%string).

Definition appending_eval (S : text) : SE toy_world value :=
  if is_append S
  then let* v := getattr "outputs" in
       let* l := lift (as_list v) in
       setattr "outputs" (VStrs (l ++ [txt "zz"]));;
       ret VNone
  else toy_eval S.

Definition appending_runtime : Runtime toy_env := {|
  compile_eval S := is_append S || toy_compile_eval S;
  py_eval := appending_eval;
  py_exec := toy_exec;
  get_all_fig_managers := t_gcf;
  sympy_latex := @sympy_latex toy_env toy_runtime;
  py_str := @py_str toy_env toy_runtime;
  str_mod := @str_mod toy_env toy_runtime;
  str_format := @str_format toy_env toy_runtime;
  path_touch := @path_touch toy_env toy_runtime;
  stat_mtime_ns := @stat_mtime_ns toy_env toy_runtime;
  format_my_nanos := @format_my_nanos toy_env toy_runtime;
  read_text := @read_text toy_env toy_runtime;
  pickle_load := toy_load;
  write_text := toy_write;
  pickle_dump := toy_dump;
  os_system := @os_system toy_env toy_runtime;
  makedirs := @makedirs toy_env toy_runtime;
  stripext_sub := @stripext_sub toy_env toy_runtime;
  module_file := @module_file toy_env toy_runtime;
  new_globals := @new_globals toy_env toy_runtime
|}.

(** A document whose first fragment appends to [pyp.outputs]. *)
Definition doc3 : text := txt "a @{pyp.outputs.append('zz')} b @{1}".

(** [pyptex('a.tex')] with this interpreter *)
Definition construct_appending : SE toy_world bool :=
  @pyptex_init toy_env appending_runtime (txt "a.tex") None (VBool false).

End Toy.

(** ** The rest of the module

    The functions of [pyptex/__init__.py] that [compile] does not call:
    the template printer [pp] with its pattern [ppparser], the
    bibliography helper [cite] with the pattern [bibentryname],
    the pattern [stripext] that [__init__] applies to the file name, the
    scope helpers [freeze] and [clear], and the handling of the command
    line in [pyptexmain]. *)

(** *** [ppparser]

    Two alternatives: an at-sign and an identifier (group 1: a letter or an
    underscore, then letters, digits and underscores, as many as there
    are), or an at-sign, an opening brace, characters that are not braces
    (group 2, possibly empty) and a closing brace. *)

Definition is_digit (c : ascii) : bool :=
  let n := nat_of_ascii c in (48 <=? n)%nat && (n <=? 57)%nat.

Definition is_ident_start (c : ascii) : bool := is_alpha c || Ascii.eqb c "_".

Definition is_ident_char (c : ascii) : bool := is_ident_start c || is_digit c.

Definition ppparser_match (pos : nat) (s : text) : option Match :=
  match s with
  | c :: d :: s2 =>
      if Ascii.eqb c "@"
      then if is_ident_start d
           then let '(r, _) := span is_ident_char s2 in
                Some (MkMatch [Some (Group pos (c :: d :: r));
                               Some (Group (pos + 1) (d :: r)); None])
           else if Ascii.eqb d "{"
           then let '(body, s3) := span not_brace s2 in
                match s3 with
                | e :: _ =>
                    if Ascii.eqb e "}"
                    then Some (MkMatch [Some (Group pos (c :: d :: body ++ [e]));
                                        None; Some (Group (pos + 2) body)])
                    else None
                | [] => None
                end
           else None
      else None
  | _ => None
  end.

(** [raise Exception("Tragic regular expression committed seppuku")] *)
Definition Tragic : exn := PyError 2.

(** *** [pyptex.pp] *)
Section PP.
Context {Env : Type} `{!Runtime Env}.

(** [eval(src, foo.f_globals, foo.f_locals)], where [foo] is the frame
    [levels] calls up the stack. *)
Variable frame_eval : nat → text → SE (world Env) value.

Definition pp_do_work (levels : nat) (m : Match) : SE (world Env) (option text) :=
  match List.find (λ k, 0 <=? m_start m k) [1; 2]%nat with
  | Some k =>
      let* v := frame_eval levels (default [] (m_group m k)) in
      let* s := mylatex v in
      ret (Some s)
  | None => raise Tragic
  end.

(** [ppparser.sub(do_work, Z)], as [sub_loop] above. *)
Fixpoint pp_sub_loop (levels : nat) (pos : nat) (rest : text) (skip : nat)
    : SE (world Env) text :=
  match rest with
  | [] => ret []
  | c :: rest' =>
      match skip with
      | S n => pp_sub_loop levels (S pos) rest' n
      | O =>
          match ppparser_match pos rest with
          | None =>
              let* out := pp_sub_loop levels (S pos) rest' 0 in
              ret (c :: out)
          | Some m =>
              let* r := pp_do_work levels m in
              let* out := pp_sub_loop levels (S pos) rest' (m_len m - 1) in
              ret (default [] r ++ out)
          end
      end
  end.

Definition pp (Z : text) (levels : nat) : SE (world Env) text :=
  pp_sub_loop levels 0 Z 0.

(** The vocabulary of the statements on [pp]: what it does with the
    expression [src] of a match, evaluating it in the frame and rendering
    the value; and the text [pre], the rendering of [src] and [post]
    printed in turn. *)
Definition pp_subst (levels : nat) (src : text) : SE (world Env) (option text) :=
  let* v := frame_eval levels src in
  let* s := mylatex v in
  ret (Some s).

Definition pp_spliced (pre src post : text) (levels : nat) : SE (world Env) text :=
  let* r := pp_subst levels src in
  let* out := pp post levels in
  ret (pre ++ default [] r ++ out).

End PP.

(** *** [bibentryname] and [cite] *)

(** [bibentryname.match(b)]: from the start of [b], characters that are
    not an opening brace, an opening brace, characters that are not a comma
    (group 1) and a comma.  Both runs are greedy and a shorter run never
    ends before the character that must follow, so the first try decides. *)
Definition bibentryname_match (b : text) : option Match :=
  let '(pre, r) := span (λ c, negb (Ascii.eqb c "{")) b in
  match r with
  | o :: r1 =>
      let '(key, r2) := span (λ c, negb (Ascii.eqb c ",")) r1 in
      match r2 with
      | e :: _ =>
          Some (MkMatch [Some (Group 0 (pre ++ o :: key ++ [e]));
                         Some (Group (length pre + 1) key)])
      | [] => None
      end
  | [] => None
  end.

(** [c.isspace()] for the characters below 256. *)
Definition is_space (c : ascii) : bool :=
  let n := nat_of_ascii c in
  ((9 <=? n)%nat && (n <=? 13)%nat) || ((28 <=? n)%nat && (n <=? 32)%nat) ||
  (n =? 133)%nat || (n =? 160)%nat.

Definition lstrip (s : text) : text := (span is_space s).2.

Definition rstrip (s : text) : text := reverse (lstrip (reverse s)).

(** [s.strip()] *)
Definition strip (s : text) : text := rstrip (lstrip s).

Section Bib.
Context {Env : Type} `{!Runtime Env}.

(** [self.bibs.append(b)] *)
Definition bibs_append (b : text) : SE (world Env) unit :=
  let* v := getattr "bibs" in
  let* l := lift (as_list v) in
  setattr "bibs" (VStrs (l ++ [b])).

(** [cite]; the method [group] of [None] is an [AttributeError]. *)
Definition cite (b : text) : SE (world Env) text :=
  bibs_append b;;
  match bibentryname_match b with
  | Some m => ret (strip (default [] (m_group m 1)))
  | None => raise AttributeError
  end.

End Bib.

(** *** [stripext]

    A lazy group 1 of any characters, an optional extension (a dot, an
    optional [pyp] and dot, characters that are not dots) and the end
    anchor, which without [re.MULTILINE] holds at the end of the text and
    before a newline that is its last character. *)

Definition at_end (t : text) : bool :=
  match t with
  | [] => true
  | [c] => Ascii.eqb c nl
  | _ => false
  end.

(** The greedy run of characters that are not dots, then the anchor: the
    run is given back one character at a time until the anchor holds.
    Returns the length matched. *)
Fixpoint nodots_then_end (t : text) : option nat :=
  match t with
  | [] => Some O
  | c :: t' =>
      match (if Ascii.eqb c "." then None else nodots_then_end t') with
      | Some n => Some (S n)
      | None => if at_end t then Some O else None
      end
  end.

(** What follows group 1: the extension is tried first, with [pyp] and
    its dot first, then without the extension. *)
Definition ext_then_end (t : text) : option nat :=
  match (match t with
         | c :: t1 =>
             if Ascii.eqb c "."
             then match (match t1 with
                         | p1 :: y :: p2 :: d :: t2 =>
                             if Ascii.eqb p1 "p" && Ascii.eqb y "y" &&
                                Ascii.eqb p2 "p" && Ascii.eqb d "."
                             then option_map (λ n, 5 + n)%nat (nodots_then_end t2)
                             else None
                         | _ => None
                         end) with
                  | Some n => Some n
                  | None => option_map S (nodots_then_end t1)
                  end
             else None
         | [] => None
         end) with
  | Some n => Some n
  | None => if at_end t then Some O else None
  end.

(** [stripext] matched at the start of [t]: group 1 and the length of the
    match.  Group 1 grows by one character at a time until the rest
    matches; with [must_advance] an empty match is refused. *)
Fixpoint stripext_match (must_advance : bool) (t : text) : option (text * nat) :=
  match (match ext_then_end t with
         | Some n => if must_advance && (n =? 0)%nat then None else Some n
         | None => None
         end) with
  | Some n => Some ([], n)
  | None =>
      match t with
      | c :: t' =>
          match stripext_match false t' with
          | Some (g, n) => Some (c :: g, S n)
          | None => None
          end
      | [] => None
      end
  end.

(** [stripext.sub(lambda m: m.group(1), t)]: the matches from left to
    right; after an empty match the next one at the same place must not be
    empty, and a character no match starts at is copied.  [fuel] bounds
    the number of searches. *)
Fixpoint stripext_sub_loop (fuel : nat) (must_advance : bool) (t : text) : text :=
  match fuel with
  | O => t
  | S fuel' =>
      match stripext_match must_advance t with
      | Some (g, n) => g ++ stripext_sub_loop fuel' (n =? 0)%nat (drop n t)
      | None =>
          match t with
          | c :: t' => c :: stripext_sub_loop fuel' false t'
          | [] => []
          end
      end
  end.

Definition stripext (texfilename : text) : text :=
  stripext_sub_loop (2 * length texfilename + 2) false texfilename.

(** *** [freeze] and [clear]

    The two dictionaries involved: [self.__frozen__] and the globals of the
    caller, [inspect.stack()[1][0].f_globals]. *)
Section Scope.
Context {V : Type}.

Record scopes := Scopes {
  frozen : gmap string V;
  f_globals : gmap string V
}.

(** [self.__frozen__ = f_globals.copy()] *)
Definition freeze (s : scopes) : scopes := Scopes (f_globals s) (f_globals s).

(** [clear]: the frozen items are written into the globals, then every
    key of the globals that is not frozen is deleted. *)
Definition clear (s : scopes) : scopes :=
  let foo := frozen s in
  let bar := foldl (λ b kv, <[kv.1 := kv.2]> b) (f_globals s) (map_to_list foo) in
  let kk := map fst (map_to_list bar) in
  Scopes foo (foldl (λ b k, match foo !! k with
                            | Some _ => b
                            | None => delete k b
                            end) bar kk).

End Scope.
Arguments scopes : clear implicits.
Arguments Scopes {V} _ _.

(** *** The command line of [pyptexmain] (lines 720 to 735) *)

(** [l.remove(x)]: the first occurrence goes; [None] for the [ValueError]
    raised when there is none. *)
Fixpoint list_remove (x : text) (l : list text) : option (list text) :=
  match l with
  | [] => None
  | y :: l' =>
      if bool_decide (y = x) then Some l'
      else option_map (cons y) (list_remove x l')
  end.

(** What [pyptexmain] goes on to do: print the usage line and exit with
    status 1, or construct [pyptex(argv[1], argv[2:], ...)]. *)
Inductive main_plan :=
| Usage
| Construct (dopdb : bool) (texfilename : text) (args : list text).

Definition pyptexmain_plan (argv : option (list text)) (sys_argv : list text)
    : main_plan :=
  let argv := match argv with
              | Some (x :: l) => x :: l
              | _ => sys_argv
              end in
  let dopdb := true in
  let '(argv, dopdb) := match list_remove (txt "--pdb=no") argv with
                        | Some l => (l, false)
                        | None => (argv, dopdb)
                        end in
  let '(argv, dopdb) := match list_remove (txt "--pdb=yes") argv with
                        | Some l => (l, true)
                        | None => (argv, dopdb)
                        end in
  match argv with
  | _ :: texfilename :: args => Construct dopdb texfilename args
  | _ => Usage
  end.

(** ** The vocabulary of the further statements *)

(** The matches the pattern produces: a comment line, the escaped marker,
    or a fragment with [n] braces on each side, one or three. *)
Inductive matched (pos : nat) (s : text) (m : Match) : Prop :=
| matched_comment body rest :
    s = "%"%char :: body ++ nl :: rest →
    Forall (λ c, c ≠ nl) body →
    m = comment_match pos ("%"%char :: body ++ [nl]) →
    matched pos s m
| matched_escape rest :
    s = "@"%char :: "@"%char :: rest →
    m = escape_match pos →
    matched pos s m
| matched_fragment tag body rest n :
    s = "@"%char :: tag_text tag ++ replicate n "{"%char ++ body ++
          replicate n "}"%char ++ rest →
    n = 1%nat ∨ n = 3%nat →
    fragment_of m
    = Some (Fragment body (pos + 1 + length (tag_text tag) + n)
                     (pos + 1 + length (tag_text tag) + n + length body)
                     (default [] tag)) →
    m_len m = (1 + length (tag_text tag) + n + length body + n)%nat →
    matched pos s m.

(** The number of lines of a fragment body: its newlines, and one. *)
Definition body_lines (z : text) : Z :=
  Z.of_nat (length (filter (λ c, c = nl) z)) + 1.

(** The lines of Python of a document: those of its fragments. *)
Definition python_lines (doc : text) : Z :=
  foldr (λ fr n, body_lines (fr_z fr) + n) 0 (fragments_of doc).

(** An extension that [stripext] removes: a dot, then either no other
    dot, or [pyp], a dot and no other dot. *)
Definition is_ext (t : text) : bool :=
  match t with
  | c :: t1 =>
      Ascii.eqb c "." &&
      (forallb (λ x, negb (Ascii.eqb x ".")) t1 ||
       match t1 with
       | p1 :: y :: p2 :: d :: t2 =>
           Ascii.eqb p1 "p" && Ascii.eqb y "y" && Ascii.eqb p2 "p" && Ascii.eqb d "." &&
           forallb (λ x, negb (Ascii.eqb x ".")) t2
       | _ => false
       end)
  | [] => false
  end.

(** The text before its first such extension, the whole text when it has
    none. *)
Fixpoint cut_ext (s : text) : text :=
  if is_ext s then []
  else match s with
       | c :: s' => c :: cut_ext s'
       | [] => []
       end.

(** ** More of the small runtime *)

(** The state [w] with the figures [l] in matplotlib's registry. *)
Definition with_figures (l : list nat) (w : Toy.toy_world) : Toy.toy_world :=
  let e := env w in
  set_env (Toy.ToyEnv (Toy.t_files e) (Toy.t_pickles e) (Toy.t_mtime e) (Toy.t_clock e)
                      (Toy.t_scope e) l (Toy.t_others e)) w.

(** An evaluation in a frame that knows every name: the value of an
    expression is its source between angle brackets. *)
Definition echo_eval (levels : nat) (src : text) : SE Toy.toy_world value :=
  ret (VStr (txt "<" ++ src ++ txt ">")).

(** * Facts *)

#[local] Arguments pypparser_match : simpl never.
#[local] Arguments py_eq : simpl never.

Section WalkFacts.
Context {St : Type}.
Implicit Types (f : Match → SE St (option text)) (st : St).

Lemma sub_loop_emit f rest : ∀ prev pos skip st,
  sub_loop f prev pos rest skip st = emit f (pieces_loop prev pos rest skip) st.
Proof.
  induction rest as [|c rest IH]; intros prev pos skip st; [done|].
  simpl. destruct skip as [|n]; [|apply IH].
  destruct (pypparser_match prev pos (c :: rest)) as [m|]; simpl; unfold bind.
  - destruct (f m st) as [[r st1]|e]; [|done]. by rewrite IH.
  - by rewrite IH.
Qed.

Lemma pypparser_sub_emit f doc st :
  pypparser_sub f doc st = emit f (pieces doc) st.
Proof. apply sub_loop_emit. Qed.

Lemma finditer_loop_toks rest : ∀ prev pos skip,
  finditer_loop prev pos rest skip = toks (pieces_loop prev pos rest skip).
Proof.
  induction rest as [|c rest IH]; intros prev pos skip; [done|].
  simpl. destruct skip as [|n]; [|apply IH].
  destruct (pypparser_match prev pos (c :: rest)) as [m|]; simpl; by rewrite IH.
Qed.

Lemma emit_traced f ps : ∀ st l,
  emit (traced f) ps (st, l) =
  match emit f ps st with
  | Ok (out, st') => Ok (out, (st', l ++ toks ps))
  | Raise e => Raise e
  end.
Proof.
  induction ps as [|[c|m] ps IH]; intros st l; simpl.
  - by rewrite app_nil_r.
  - unfold bind. rewrite IH. by destruct (emit f ps st) as [[??]|].
  - unfold bind, traced, modify, on_fst, bind; simpl.
    destruct (f m st) as [[r st1]|e]; [|done]. rewrite IH.
    destruct (emit f ps st1) as [[??]|]; [|done]. by rewrite <-app_assoc.
Qed.

End WalkFacts.

Definition calls_of (doc : text) (m : Match) : list (text * nat * text) :=
  match fragment_of m with
  | Some fr => [call_of doc fr]
  | None => []
  end.

Section Observed.
Context {St : Type}.
Variable add : Z → SE St unit.
Variable runner : text → nat → text → SE St (option text).

Lemma do_work_logged doc m st l :
  do_work (λ n, on_fst (add n)) (logged runner) doc m (st, l) =
  match do_work add runner doc m st with
  | Ok (x, st') => Ok (x, (st', l ++ calls_of doc m))
  | Raise e => Raise e
  end.
Proof.
  unfold do_work, calls_of, fragment_of.
  destruct (0 <=? m_start m 1); [by rewrite app_nil_r|].
  destruct (0 <=? m_start m 2); [by rewrite app_nil_r|].
  destruct (List.find _ _) as [k|]; [|done].
  unfold bind, on_fst, logged, bind, modify; simpl.
  destruct (add _ st) as [[[] st1]|]; [|reflexivity]. unfold on_fst; simpl.
  by destruct (runner _ _ _ st1) as [[??]|].
Qed.

Lemma emit_logged doc ps : ∀ st l,
  emit (do_work (λ n, on_fst (add n)) (logged runner) doc) ps (st, l) =
  match emit (do_work add runner doc) ps st with
  | Ok (out, st') =>
      Ok (out, (st', l ++ map (call_of doc) (omap fragment_of (toks ps))))
  | Raise e => Raise e
  end.
Proof.
  induction ps as [|[c|m] ps IH]; intros st l; simpl.
  - by rewrite app_nil_r.
  - unfold bind. rewrite IH. by destruct (emit _ ps st) as [[??]|].
  - unfold bind. rewrite do_work_logged.
    destruct (do_work add runner doc m st) as [[r st1]|e]; [|reflexivity].
    rewrite IH.
    destruct (emit _ ps st1) as [[??]|]; [|reflexivity].
    unfold calls_of. destruct (fragment_of m); simpl.
    + by rewrite <-app_assoc.
    + by rewrite app_nil_r.
Qed.

Lemma observed_process_spec doc st :
  observed_process add runner doc (st, [], []) =
  match process add runner doc st with
  | Ok (out, st') =>
      Ok (out, (st', map (call_of doc) (fragments_of doc), pypparser_finditer doc))
  | Raise e => Raise e
  end.
Proof.
  unfold observed_process, process, fragments_of, pypparser_finditer.
  rewrite !pypparser_sub_emit, emit_traced, emit_logged, finditer_loop_toks.
  fold (pieces doc).
  by destruct (emit _ (pieces doc) st) as [[??]|].
Qed.

End Observed.

(** Claim C4.  Two walks of the same document with any two runners, on
    states of their own, hand them the same matches: the runners are
    called with the same bodies, line counts and options in the same
    order, namely for the fragments of [pypparser_finditer doc], whose
    offsets the document alone fixes. *)
Theorem walk_visits_same_fragments {St1 St2} (doc : text)
    (add1 : Z → SE St1 unit) (add2 : Z → SE St2 unit)
    (r1 : text → nat → text → SE St1 (option text))
    (r2 : text → nat → text → SE St2 (option text))
    s1 s2 out1 out2 s1' s2' cs1 cs2 ms1 ms2 :
  observed_process add1 r1 doc (s1, [], []) = Ok (out1, (s1', cs1, ms1)) →
  observed_process add2 r2 doc (s2, [], []) = Ok (out2, (s2', cs2, ms2)) →
  ms1 = pypparser_finditer doc ∧ ms2 = ms1 ∧
  cs1 = map (call_of doc) (fragments_of doc) ∧ cs2 = cs1 ∧
  process add1 r1 doc s1 = Ok (out1, s1') ∧
  process add2 r2 doc s2 = Ok (out2, s2').
Proof.
  rewrite !observed_process_spec. intros H1 H2.
  destruct (process add1 r1 doc s1) as [[??]|]; [|done].
  destruct (process add2 r2 doc s2) as [[??]|]; [|done].
  by simplify_eq.
Qed.

Lemma span_until p body c rest :
  Forall (λ x, p x = true) body → p c = false →
  span p (body ++ c :: rest) = (body, c :: rest).
Proof.
  intros Hb Hc. induction Hb as [|x body Hx _ IH]; simpl.
  - by rewrite Hc.
  - by rewrite Hx, IH.
Qed.

Lemma pypparser_match_comment prev pos body rest :
  prev ≠ Some "\"%char → Forall (λ c, c ≠ nl) body →
  pypparser_match prev pos ("%"%char :: body ++ nl :: rest) =
  Some (comment_match pos ("%"%char :: body ++ [nl])).
Proof.
  intros Hp Hb. unfold pypparser_match, match_comment. simpl.
  rewrite bool_decide_eq_false_2 by done. simpl.
  rewrite (span_until not_nl body nl rest); [done| |done].
  eapply Forall_impl; [exact Hb|]. intros c Hc. unfold not_nl.
  apply negb_true_iff, Ascii.eqb_neq, Hc.
Qed.

Section Skip.
Context {St : Type} (f : Match → SE St (option text)).

Lemma sub_loop_0 prev pos c r st :
  sub_loop f prev pos (c :: r) 0 st =
  match pypparser_match prev pos (c :: r) with
  | None =>
      match sub_loop f (Some c) (S pos) r 0 st with
      | Ok (out, st') => Ok (c :: out, st')
      | Raise e => Raise e
      end
  | Some m =>
      match f m st with
      | Ok (x, st1) =>
          match sub_loop f (Some c) (S pos) r (m_len m - 1) st1 with
          | Ok (out, st') => Ok (default [] x ++ out, st')
          | Raise e => Raise e
          end
      | Raise e => Raise e
      end
  end.
Proof.
  simpl. destruct (pypparser_match prev pos (c :: r)); unfold bind; simpl.
  - destruct (f _ st) as [[??]|]; [|reflexivity].
    by destruct (sub_loop _ _ _ _ _ _) as [[??]|].
  - by destruct (sub_loop _ _ _ _ _ _) as [[??]|].
Qed.

Lemma sub_loop_skip chunk : ∀ prev pos rest st,
  sub_loop f prev pos (chunk ++ rest) (length chunk) st =
  sub_loop f (from_option Some prev (last chunk)) (pos + length chunk) rest 0 st.
Proof.
  induction chunk as [|c chunk IH]; intros prev pos rest st; simpl.
  - by rewrite Nat.add_0_r.
  - rewrite IH, last_cons, Nat.add_succ_r.
    by destruct (last chunk).
Qed.
End Skip.

Section CommentLines.
Context {St : Type}.
Variable add : Z → SE St unit.
Variable runner : text → nat → text → SE St (option text).

Lemma do_work_comment doc pos line st :
  do_work add runner doc (comment_match pos line) st = Ok (Some line, st).
Proof.
  unfold do_work. change (m_start (comment_match pos line) 1) with (Z.of_nat pos).
  by rewrite (proj2 (Z.leb_le 0 (Z.of_nat pos))) by lia.
Qed.

Lemma m_len_comment pos line : m_len (comment_match pos line) = length line.
Proof. unfold m_len, m_end, m_start. simpl. lia. Qed.

Lemma comment_line_passes_through doc prev pos body rest st :
  prev ≠ Some "\"%char → Forall (λ c, c ≠ nl) body →
  sub_loop (do_work add runner doc) prev pos ("%"%char :: body ++ nl :: rest) 0 st =
  match sub_loop (do_work add runner doc) (Some nl) (pos + length body + 2) rest 0 st with
  | Ok (out, st') => Ok ("%"%char :: body ++ nl :: out, st')
  | Raise e => Raise e
  end.
Proof.
  intros Hp Hb.
  rewrite sub_loop_0, pypparser_match_comment by done.
  rewrite do_work_comment, m_len_comment.
  replace (length ("%"%char :: body ++ [nl]) - 1)%nat with (length (body ++ [nl]))
    by (simpl; lia).
  replace (body ++ nl :: rest) with ((body ++ [nl]) ++ rest)
    by by rewrite <-app_assoc.
  rewrite sub_loop_skip, last_snoc, length_app. simpl.
  replace (S (pos + (length body + 1)))%nat with (pos + length body + 2)%nat by lia.
  destruct (sub_loop _ _ _ rest 0 st) as [[out st']|]; [|done].
  by rewrite <-app_assoc.
Qed.
End CommentLines.

Lemma pypparser_match_escape prev pos rest :
  pypparser_match prev pos ("@"%char :: "@"%char :: rest) = Some (escape_match pos).
Proof. reflexivity. Qed.

Section Escape.
Context {St : Type}.
Variable add : Z → SE St unit.
Variable runner : text → nat → text → SE St (option text).

Lemma do_work_escape doc pos st :
  do_work add runner doc (escape_match pos) st = Ok (Some (txt "@"), st).
Proof.
  unfold do_work. change (m_start (escape_match pos) 1) with (-1).
  change (m_start (escape_match pos) 2) with (Z.of_nat pos).
  by rewrite (proj2 (Z.leb_le 0 (Z.of_nat pos))) by lia.
Qed.

Lemma escaped_marker_collapses doc prev pos rest st :
  sub_loop (do_work add runner doc) prev pos ("@"%char :: "@"%char :: rest) 0 st =
  match sub_loop (do_work add runner doc) (Some "@"%char) (pos + 2) rest 0 st with
  | Ok (out, st') => Ok ("@"%char :: out, st')
  | Raise e => Raise e
  end.
Proof.
  rewrite sub_loop_0, pypparser_match_escape, do_work_escape.
  change (m_len (escape_match pos) - 1)%nat with (Z.to_nat (Z.of_nat (pos + 2) - Z.of_nat pos) - 1)%nat.
  replace (Z.to_nat (Z.of_nat (pos + 2) - Z.of_nat pos) - 1)%nat with 1%nat by lia.
  simpl. by replace (S (S pos)) with (pos + 2)%nat by lia.
Qed.

Lemma escape_example st :
  process add runner (txt "a @@ b") st = Ok (txt "a @ b", st).
Proof. reflexivity. Qed.

Lemma comment_example st :
  process add runner (txt "% @{1}" ++ nl :: txt "c") st
  = Ok (txt "% @{1}" ++ nl :: txt "c", st).
Proof. reflexivity. Qed.

Lemma span_whole p s : Forall (λ x, p x = true) s → span p s = (s, []).
Proof.
  induction 1 as [|x s Hx _ IH]; simpl; [done|]. by rewrite Hx, IH.
Qed.

(** A percent sign that a backslash precedes, or that no newline
    follows, starts no match. *)
Lemma pypparser_match_percent prev pos rest :
  prev = Some "\"%char ∨ Forall (λ c, c ≠ nl) rest →
  pypparser_match prev pos ("%"%char :: rest) = None.
Proof.
  intros Hp. unfold pypparser_match, match_comment.
  assert ((if Ascii.eqb "%" "%" && negb (bool_decide (prev = Some "\"%char))
           then let '(body, rest0) := span not_nl rest in
                match rest0 with
                | c' :: _ =>
                    Some (MkMatch (Some (Group pos ("%"%char :: body ++ [c'])) ::
                                   Some (Group pos ("%"%char :: body ++ [c'])) ::
                                   replicate 8 None))
                | [] => None
                end
           else None) = None) as ->;
    [|unfold match_escape, match_brace1, match_brace3; by destruct rest].
  destruct Hp as [->|Hr]; [done|].
  destruct (_ && _); [|done].
  rewrite (span_whole not_nl rest); [done|].
  eapply Forall_impl; [exact Hr|]. intros c Hc. unfold not_nl.
  apply negb_true_iff, Ascii.eqb_neq, Hc.
Qed.

Lemma percent_is_copied doc prev pos rest st :
  prev = Some "\"%char ∨ Forall (λ c, c ≠ nl) rest →
  sub_loop (do_work add runner doc) prev pos ("%"%char :: rest) 0 st =
  match sub_loop (do_work add runner doc) (Some "%"%char) (pos + 1) rest 0 st with
  | Ok (out, st') => Ok ("%"%char :: out, st')
  | Raise e => Raise e
  end.
Proof.
  intros Hp. rewrite sub_loop_0, pypparser_match_percent by done.
  by replace (S pos) with (pos + 1)%nat by lia.
Qed.

Lemma last_line_example st :
  process add runner (txt "% @{1}") st =
  (add 1;;
   let* r := runner (txt "1") 0 [] in
   ret (txt "% " ++ default [] r)) st.
Proof.
  vm_compute. destruct (add 1 st) as [[[] st1]|]; [|done].
  destruct (runner _ _ _ st1) as [[[r|] st2]|]; [|done..].
  change ((fix Ffix (x x0 : text) {struct x} : text :=
             match x with
             | [] => x0
             | H :: H0 => H :: Ffix H0 x0
             end) r []) with (r ++ []).
  by rewrite app_nil_r.
Qed.

End Escape.

Section Monad.
Context {St : Type}.

Lemma bind_Ok {A B} (m : SE St A) (k : A → SE St B) st b st' :
  bind m k st = Ok (b, st') ↔ ∃ a st1, m st = Ok (a, st1) ∧ k a st1 = Ok (b, st').
Proof.
  unfold bind. destruct (m st) as [[a st1]|e]; split.
  - eauto.
  - by intros (? & ? & [= <- <-] & ?).
  - done.
  - by intros (? & ? & ? & ?).
Qed.

Lemma preserves_ret {X A} (proj : St → X) (a : A) : preserves proj (ret a).
Proof. by intros st a' st' [= _ <-]. Qed.

Lemma preserves_raise {X A} (proj : St → X) e : preserves proj (raise (A:=A) e).
Proof. by intros st a' st' ?. Qed.

Lemma preserves_get {X} (proj : St → X) : preserves proj get_state.
Proof. by intros st a' st' [= _ <-]. Qed.

Lemma preserves_bind {X A B} (proj : St → X) (m : SE St A) (k : A → SE St B) :
  preserves proj m → (∀ a, preserves proj (k a)) → preserves proj (bind m k).
Proof.
  intros Hm Hk st b st' (a & st1 & H1 & H2)%bind_Ok.
  rewrite (Hk _ _ _ _ H2). eauto.
Qed.

Lemma preserves_modify {X} (proj : St → X) (f : St → St) :
  (∀ st, proj (f st) = proj st) → preserves proj (modify f).
Proof. by intros Hf st a' st' [= _ <-]. Qed.

End Monad.

Tactic Notation "inv_bind" hyp(H) "as" simple_intropattern(a) ident(w) ident(H1) :=
  apply bind_Ok in H as (a & w & H1 & H).

Section ModelFacts.
Context {Env : Type} `{!Runtime Env}.
Local Abbreviation M := (SE (world Env)).
Implicit Types (w : world Env) (k : string).

Lemma preserves_lift {X A} (proj : world Env → X) (r : result A) :
  preserves proj (lift r).
Proof. intros w a w'. unfold lift. by destruct r; intros [= _ <-]. Qed.

Lemma preserves_getattr {X} (proj : world Env → X) k : preserves proj (getattr k).
Proof. intros w a w'. unfold getattr. by destruct (dict w !! k); intros [= _ <-]. Qed.

Lemma preserves_cache_get {X} (proj : world Env → X) c k : preserves proj (cache_get c k).
Proof.
  unfold cache_get. destruct (c !! k); [apply preserves_ret|apply preserves_raise].
Qed.

Lemma keeps_setattr k k' v : k ≠ k' → preserves (field k) (setattr k' v : M unit).
Proof.
  intros Hk. apply preserves_modify. intros w. unfold field. simpl.
  by rewrite lookup_insert_ne.
Qed.

Lemma keeps_log k e : preserves (field k) (log e : M unit).
Proof. by apply preserves_modify. Qed.

Lemma keeps_lift_env k f : preserves (field k) (lift_env f : M unit).
Proof. intros w a w'. unfold lift_env. by destruct (f (env w)); intros [= _ <-]. Qed.

Lemma keeps_set_fig k id f : preserves (field k) (set_fig id f : M unit).
Proof. by apply preserves_modify. Qed.

Lemma keeps_fig_attrs k id : preserves (field k) (fig_attrs id : M figure).
Proof. by intros w a w' [= _ <-]. Qed.

Lemma keeps_pyp_print k l : preserves (field k) (pyp_print l : M unit).
Proof. by apply preserves_modify. Qed.

Lemma keeps_set_accum k f : preserves (field k) (modify (set_accum f) : M unit).
Proof. by apply preserves_modify. Qed.

End ModelFacts.

Ltac keeps_step :=
  lazymatch goal with
  | |- preserves _ (bind _ _) => apply preserves_bind; [|intros ?]
  | |- preserves _ (ret _) => apply preserves_ret
  | |- preserves _ (raise _) => apply preserves_raise
  | |- preserves _ get_state => apply preserves_get
  | |- preserves _ (lift _) => apply preserves_lift
  | |- preserves _ (getattr _) => apply preserves_getattr
  | |- preserves _ (cache_get _ _) => apply preserves_cache_get
  | |- preserves (field _) (setattr _ _) => apply keeps_setattr; done
  | |- preserves (field _) (log _) => apply keeps_log
  | |- preserves (field _) (lift_env _) => apply keeps_lift_env
  | |- preserves (field _) (set_fig _ _) => apply keeps_set_fig
  | |- preserves (field _) (fig_attrs _) => apply keeps_fig_attrs
  | |- preserves (field _) (pyp_print _) => apply keeps_pyp_print
  | |- preserves (field _) (modify (set_accum _)) => apply keeps_set_accum
  | |- preserves _ (match ?x with _ => _ end) => destruct x
  | |- preserves _ (if ?x then _ else _) => destruct x
  end.

Section Keeps.
Context {Env : Type} `{!Runtime Env}.
Local Abbreviation M := (SE (world Env)).
Local Abbreviation fld := (@field Env).
Implicit Types (w : world Env) (k : string).

Lemma keeps_add_lc k n : k ≠ "lc"%string → preserves (fld k) (add_lc n).
Proof. intros. unfold add_lc. repeat keeps_step. Qed.

Lemma keeps_dep k f : k ≠ "deps"%string → preserves (fld k) (dep f).
Proof. intros. unfold dep. repeat keeps_step. Qed.

Lemma keeps_resolvedeps k : k ≠ "deps"%string → preserves (fld k) resolvedeps.
Proof. intros. unfold resolvedeps. repeat keeps_step. Qed.

Lemma keeps_genname k p : k ≠ "gencount"%string → preserves (fld k) (genname p).
Proof. intros. unfold genname. repeat keeps_step. Qed.

Lemma keeps_setupfig k id :
  k ≠ "gencount"%string → k ≠ "deps"%string → preserves (fld k) (setupfig id).
Proof.
  intros. unfold setupfig.
  repeat first [apply keeps_genname; done | apply keeps_dep; done | keeps_step].
Qed.

Lemma keeps_showall_loop k l :
  k ≠ "gencount"%string → k ≠ "deps"%string → preserves (fld k) (showall_loop l).
Proof.
  intros. induction l as [|id l IH]; simpl.
  - keeps_step.
  - repeat first [apply keeps_setupfig; done | exact IH | keeps_step].
Qed.

Lemma keeps_mylatex k X :
  k ≠ "gencount"%string → k ≠ "deps"%string → preserves (fld k) (mylatex X).
Proof.
  intros. destruct X; simpl;
    repeat first [apply keeps_setupfig; done | keeps_step].
Qed.

Lemma keeps_mapM {A B} k (f : A → M B) l :
  (∀ x, preserves (fld k) (f x)) → preserves (fld k) (mapM f l).
Proof.
  intros Hf. induction l as [|x l IH]; simpl; repeat first [apply Hf | exact IH | keeps_step].
Qed.

Lemma keeps_run k S n :
  k ≠ "gencount"%string → k ≠ "deps"%string → engine_keeps k →
  preserves (fld k) (run S n).
Proof.
  intros ?? [He Hx]. unfold run, showall.
  repeat first [apply He | apply Hx | apply keeps_showall_loop; done | keeps_step].
Qed.

Lemma keeps_rendered k C n :
  k ≠ "gencount"%string → k ≠ "deps"%string → engine_keeps k →
  preserves (fld k) (rendered C n).
Proof.
  intros. unfold rendered.
  repeat first [apply keeps_run; done | apply keeps_mapM; intros; apply keeps_mylatex; done
               | keeps_step].
Qed.

End Keeps.

Section DoWork.
Context {St : Type}.
Variable add : Z → SE St unit.
Variable runner : text → nat → text → SE St (option text).

Lemma do_work_cases doc m :
  do_work add runner doc m =
  match fragment_of m with
  | Some fr =>
      add (Z.of_nat (ln doc (fr_z1 fr)) - Z.of_nat (ln doc (fr_z0 fr)) + 1);;
      runner (fr_z fr) (ln doc (fr_z0 fr)) (fr_o fr)
  | None =>
      if 0 <=? m_start m 1 then ret (m_group m 0)
      else if 0 <=? m_start m 2 then ret (Some (txt "@"))
      else raise UnboundLocalError
  end.
Proof. unfold do_work, fragment_of. by repeat case_match. Qed.

Lemma preserves_do_work {X} (proj : St → X) doc m :
  (∀ n, preserves proj (add n)) → (∀ z k o, preserves proj (runner z k o)) →
  preserves proj (do_work add runner doc m).
Proof.
  intros Ha Hr. rewrite do_work_cases.
  repeat first [apply Ha | apply Hr | keeps_step].
Qed.

Lemma preserves_emit {X} (proj : St → X) (f : Match → SE St (option text)) ps :
  (∀ m, preserves proj (f m)) → preserves proj (emit f ps).
Proof.
  intros Hf. induction ps as [|[c|m] ps IH]; simpl;
    repeat first [apply Hf | exact IH | keeps_step].
Qed.

Lemma preserves_process {X} (proj : St → X) doc :
  (∀ n, preserves proj (add n)) → (∀ z k o, preserves proj (runner z k o)) →
  preserves proj (process add runner doc).
Proof.
  intros Ha Hr st a st'. unfold process. rewrite pypparser_sub_emit.
  apply preserves_emit. intros m. by apply preserves_do_work.
Qed.

End DoWork.

Lemma bodies_tok m ps :
  bodies (Tok m :: ps) =
  match fragment_of m with
  | Some fr => fr_z fr :: bodies ps
  | None => bodies ps
  end.
Proof. unfold bodies. simpl. by destruct (fragment_of m). Qed.

Lemma bodies_lit c ps : bodies (Lit c :: ps) = bodies ps.
Proof. done. Qed.

Section Passes.
Context {Env : Type} `{!Runtime Env}.
Local Abbreviation M := (SE (world Env)).
Local Abbreviation fld := (@field Env).
Implicit Types (w : world Env) (k : string).

Lemma getattr_Some k v w : dict w !! k = Some v → getattr k w = Ok (v, w).
Proof. unfold getattr. by intros ->. Qed.

Lemma add_lc_spec n m w :
  dict w !! "lc"%string = Some (VInt n) →
  add_lc m w = Ok (tt, set_dict (insert "lc"%string (VInt (n + m))) w).
Proof. intros H. unfold add_lc, bind. by rewrite (getattr_Some _ _ _ H). Qed.

(** *** The scan pass *)

Lemma scanner_spec C n o l w :
  dict w !! "fragments"%string = Some (VStrs l) →
  scanner C n o w =
  if bool_decide (o ∈ [[]; txt "verbatim"])
  then Ok (Some [], set_dict (insert "fragments"%string (VStrs (l ++ [C]))) w)
  else Raise AssertionError.
Proof.
  intros H. unfold scanner, bind. rewrite (getattr_Some _ _ _ H). simpl.
  by case_bool_decide.
Qed.

Lemma emit_scanner doc ps : ∀ w out w' l0,
  dict w !! "fragments"%string = Some (VStrs l0) →
  emit (do_work add_lc scanner doc) ps w = Ok (out, w') →
  dict w' !! "fragments"%string = Some (VStrs (l0 ++ bodies ps)) ∧
  Forall (λ m, scannable m = true) (toks ps).
Proof.
  induction ps as [|[c|m] ps IH]; intros w out w' l0 Hl H; simpl in H.
  - injection H as <- <-. by rewrite app_nil_r.
  - inv_bind H as r w1 H1. injection H as <- <-. by eapply IH.
  - inv_bind H as r w1 H0. inv_bind H as r' w2 H1. injection H as <- <-.
    rewrite do_work_cases in H0. unfold bodies, scannable. simpl.
    destruct (fragment_of m) as [fr|] eqn:Hfr; simpl.
    + inv_bind H0 as [] w3 H2.
      pose proof (keeps_add_lc "fragments" _ ltac:(done) _ _ _ H2) as Hk.
      unfold field in Hk. rewrite Hl in Hk.
      rewrite (scanner_spec _ _ _ _ _ Hk) in H0.
      case_bool_decide; [|done]. injection H0 as <- <-.
      eapply IH in H1 as [-> ?]; [|by simpl; rewrite lookup_insert_eq].
      rewrite <-app_assoc. split; [done|]. constructor; [|done].
      rewrite Hfr. by apply bool_decide_eq_true_2.
    + assert (w1 = w ∧ ((0 <=? m_start m 1) || (0 <=? m_start m 2)) = true) as [-> Hs].
      { destruct (0 <=? m_start m 1); [by injection H0 as <- <-|].
        destruct (0 <=? m_start m 2); [by injection H0 as <- <-|done]. }
      eapply IH in H1 as [-> ?]; [|done]. split; [done|].
      constructor; [|done]. by rewrite Hfr.
Qed.

Lemma emit_scanner_total doc ps : ∀ w l0 n0,
  Forall (λ m, scannable m = true) (toks ps) →
  dict w !! "fragments"%string = Some (VStrs l0) →
  dict w !! "lc"%string = Some (VInt n0) →
  ∃ out w' n, emit (do_work add_lc scanner doc) ps w = Ok (out, w') ∧
              dict w' !! "lc"%string = Some (VInt n).
Proof.
  induction ps as [|[c|m] ps IH]; intros w l0 n0 Hs Hl Hn; simpl.
  - by eexists _, _, _.
  - destruct (IH w l0 n0) as (out & w' & n & Hout & ?); [done..|].
    unfold bind. rewrite Hout. by eexists _, _, _.
  - simpl in Hs. apply Forall_cons in Hs as [Hm Hs].
    unfold bind. rewrite do_work_cases. unfold scannable in Hm.
    destruct (fragment_of m) as [fr|] eqn:Hfr.
    + unfold bind. rewrite (add_lc_spec _ _ _ Hn).
      erewrite scanner_spec; [|by simpl; rewrite lookup_insert_ne].
      rewrite Hm.
      match goal with
      | |- context [emit _ ps ?w2] =>
          edestruct (IH w2) as (out & w' & n & Hout & ?); [done| | |]
      end.
      * simpl. by rewrite lookup_insert_eq.
      * simpl. rewrite lookup_insert_ne by done. by rewrite lookup_insert_eq.
      * rewrite Hout. by eexists _, _, _.
    + destruct (IH w l0 n0) as (out & w' & n & Hout & ?); [done..|].
      destruct (0 <=? m_start m 1); simpl.
      { rewrite Hout. by eexists _, _, _. }
      destruct (0 <=? m_start m 2); [|done]. simpl.
      rewrite Hout. by eexists _, _, _.
Qed.


(** *** The substitution pass on a cache miss *)

Lemma py_index_middle {A} (pre : list A) x post :
  py_index (pre ++ x :: post) (Z.of_nat (length pre)) = Ok x.
Proof.
  unfold py_index. rewrite length_app. simpl length.
  rewrite (proj2 (Z.ltb_ge _ 0)) by lia.
  rewrite (proj2 (Z.leb_le 0 _)) by lia.
  rewrite (proj2 (Z.ltb_lt _ _)) by lia. simpl.
  by rewrite Nat2Z.id, list_lookup_middle.
Qed.

Lemma py_index_last {A} (l : list A) x : py_index (l ++ [x]) (-1) = Ok x.
Proof.
  unfold py_index. rewrite length_app. simpl length.
  change (-1 <? 0) with true. cbv iota.
  rewrite (proj2 (Z.leb_le 0 _)) by lia.
  rewrite (proj2 (Z.ltb_lt _ _)) by lia. simpl.
  replace (Z.to_nat (-1 + Z.of_nat (length l + 1))) with (length l) by lia.
  by rewrite list_lookup_middle.
Qed.

Lemma appender_spec C n o w :
  appender C n o w =
  match rendered C n w with
  | Ok (j, w1) =>
      match dict w1 !! "outputs"%string with
      | Some (VStrs l) =>
          Ok (substituted o C j,
              set_dict (insert "outputs"%string (VStrs (l ++ [j]))) w1)
      | Some _ => Raise AttributeError
      | None => Raise AttributeError
      end
  | Raise e => Raise e
  end.
Proof.
  unfold appender, bind. destruct (rendered C n w) as [[j w1]|]; [|done].
  unfold getattr at 1. destruct (dict w1 !! "outputs"%string) as [v|]; [|done].
  destruct v; try done. simpl. unfold substituted.
  case_bool_decide; [|by case_bool_decide].
  unfold getattr. simpl. rewrite lookup_insert_eq. simpl.
  by rewrite py_index_last.
Qed.

Lemma emit_appender doc ps : ∀ w out w' l0,
  engine_keeps "outputs" →
  dict w !! "outputs"%string = Some (VStrs l0) →
  emit (do_work add_lc appender doc) ps w = Ok (out, w') →
  ∃ js, dict w' !! "outputs"%string = Some (VStrs (l0 ++ js)) ∧
        length js = length (bodies ps) ∧ out = splice ps js.
Proof.
  intros w out w' l0 He. revert w out w' l0.
  induction ps as [|[c|m] ps IH]; intros w out w' l0 Hl H; simpl in H.
  - injection H as <- <-. exists []. by rewrite app_nil_r.
  - inv_bind H as r w1 H1. injection H as <- <-.
    destruct (IH _ _ _ _ Hl H1) as (js & ? & ? & ->). by exists js.
  - inv_bind H as r w1 H0. inv_bind H as r' w2 H1. injection H as <- <-.
    rewrite do_work_cases in H0. unfold bodies. simpl.
    destruct (fragment_of m) as [fr|] eqn:Hfr; simpl.
    + inv_bind H0 as [] w3 H2.
      pose proof (keeps_add_lc "outputs" _ ltac:(done) _ _ _ H2) as Hk.
      unfold field in Hk. rewrite Hl in Hk.
      rewrite appender_spec in H0.
      destruct (rendered _ _ w3) as [[j w4]|] eqn:Hr; [|done].
      pose proof (keeps_rendered "outputs" _ _ ltac:(done) ltac:(done) He _ _ _ Hr) as Hk'.
      unfold field in Hk'. rewrite Hk in Hk'. rewrite Hk' in H0.
      injection H0 as <- <-.
      eapply IH in H1 as (js & -> & Hlen & ->); [|by simpl; rewrite lookup_insert_eq].
      exists (j :: js). rewrite <-app_assoc. simpl.
      split; [done|]. split; [|done]. by rewrite Hlen.
    + assert (w1 = w ∧ default [] r =
                (if 0 <=? m_start m 1 then default [] (m_group m 0) else txt "@"))
        as [-> ->].
      { destruct (0 <=? m_start m 1); [by injection H0 as <- <-|].
        destruct (0 <=? m_start m 2); [by injection H0 as <- <-|done]. }
      destruct (IH _ _ _ _ Hl H1) as (js & ? & ? & ->). by exists js.
Qed.

(** *** The substitution pass on a cache hit *)

Lemma subber_spec C n o c l w :
  dict w !! "subcount"%string = Some (VInt c) →
  dict w !! "outputs"%string = Some (VStrs l) →
  subber C n o w =
  if bool_decide (o = [])
  then match py_index l (c + 1) with
       | Ok x => Ok (Some x, set_dict (insert "subcount"%string (VInt (c + 1))) w)
       | Raise e => Raise e
       end
  else Ok (substituted o C [], set_dict (insert "subcount"%string (VInt (c + 1))) w).
Proof.
  intros Hc Hl. unfold subber, bind. rewrite (getattr_Some _ _ _ Hc). simpl.
  unfold substituted. case_bool_decide.
  - unfold getattr. simpl. rewrite lookup_insert_ne by done. rewrite Hl. simpl.
    rewrite lookup_insert_eq. simpl. by destruct (py_index l (c + 1)).
  - by case_bool_decide.
Qed.

Lemma emit_subber doc ps : ∀ w pre js n0,
  Forall (λ m, scannable m = true) (toks ps) →
  dict w !! "outputs"%string = Some (VStrs (pre ++ js)) →
  dict w !! "subcount"%string = Some (VInt (Z.of_nat (length pre) - 1)) →
  dict w !! "lc"%string = Some (VInt n0) →
  (length (bodies ps) ≤ length js)%nat →
  ∃ w', emit (do_work add_lc subber doc) ps w = Ok (splice ps js, w') ∧
        dict w' !! "subcount"%string
        = Some (VInt (Z.of_nat (length pre + length (bodies ps)) - 1)).
Proof.
  induction ps as [|[c|m] ps IH]; intros w pre js n0 Hs Ho Hc Hn Hlen; simpl.
  - exists w. by rewrite Nat.add_0_r.
  - destruct (IH w pre js n0) as (w' & Hout & ?); [done..|].
    unfold bind. rewrite Hout. by exists w'.
  - simpl in Hs. apply Forall_cons in Hs as [Hm Hs].
    unfold bind. rewrite do_work_cases. unfold scannable in Hm.
    revert Hlen. rewrite bodies_tok.
    destruct (fragment_of m) as [fr|] eqn:Hfr; simpl; intros Hlen.
    + destruct js as [|j js]; [simpl in Hlen; lia|].
      unfold bind. rewrite (add_lc_spec _ _ _ Hn).
      erewrite subber_spec;
        [|simpl; rewrite lookup_insert_ne by done; done
         |simpl; rewrite lookup_insert_ne by done; done].
      replace (Z.of_nat (length pre) - 1 + 1) with (Z.of_nat (length pre)) by lia.
      rewrite py_index_middle.
      set (w2 := set_dict _ (set_dict _ w)).
      destruct (IH w2 (pre ++ [j]) js
                  (n0 + (Z.of_nat (ln doc (fr_z1 fr)) - Z.of_nat (ln doc (fr_z0 fr)) + 1)))
        as (w' & Hout & Hc'); [done| | | |simpl in Hlen; lia|].
      * simpl. rewrite lookup_insert_ne by done. rewrite lookup_insert_ne by done.
        by rewrite <-app_assoc.
      * simpl. rewrite lookup_insert_eq. do 2 f_equal. rewrite length_app. simpl. lia.
      * simpl. rewrite lookup_insert_ne by done. by rewrite lookup_insert_eq.
      * exists w'. split.
        -- unfold substituted.
           destruct (bool_decide (fr_o fr = [])); cbv beta iota; by rewrite Hout.
        -- rewrite Hc'. do 2 f_equal. rewrite length_app. simpl. lia.
    + destruct (IH w pre js n0) as (w' & Hout & ?); [done..|].
      exists w'. split; [|done].
      destruct (0 <=? m_start m 1); simpl; [by rewrite Hout|].
      destruct (0 <=? m_start m 2); [|done]. simpl. by rewrite Hout.
Qed.

End Passes.

Lemma dictdiff_None `{Countable K} (A B : gmap K text) :
  dictdiff A B = None → A = B.
Proof.
  unfold dictdiff. intros Hd.
  apply head_None, app_eq_nil in Hd as [HA HB].
  assert (∀ (X Y : gmap K text),
            filter (λ kv, Y !! kv.1 ≠ Some kv.2) (map_to_list X) = [] → X ⊆ Y) as Hsub.
  { intros X Y HX. apply map_subseteq_spec. intros k v Hk.
    apply elem_of_map_to_list in Hk.
    destruct (decide (Y !! k = Some v)) as [|Hne]; [done|].
    assert ((k, v) ∈ filter (λ kv : K * text, Y !! kv.1 ≠ Some kv.2) (map_to_list X)) as Hin
      by by apply list_elem_of_filter.
    rewrite HX in Hin. by apply elem_of_nil in Hin. }
  apply (anti_symm (⊆)); by apply Hsub.
Qed.

Lemma map_seq_0_inj {A} (l1 l2 : list A) :
  (map_seq 0 l1 : gmap nat A) = map_seq 0 l2 → l1 = l2.
Proof.
  intros Heq. apply list_eq. intros i.
  rewrite <-(lookup_map_seq_0 (M:=gmap nat) l1), <-(lookup_map_seq_0 (M:=gmap nat) l2).
  by rewrite Heq.
Qed.

Lemma py_eq_refl v : py_eq v v = true.
Proof. destruct v; first [done | by apply bool_decide_eq_true_2]. Qed.

Lemma py_eq_strs a b : py_eq (VStrs a) (VStrs b) = bool_decide (a = b).
Proof. unfold py_eq. apply bool_decide_ext. split; congruence. Qed.

Lemma py_eq_deps a b : py_eq (VDeps a) (VDeps b) = bool_decide (a = b).
Proof. unfold py_eq. apply bool_decide_ext. split; congruence. Qed.

Section Snapshot.
Context {Env : Type} `{!Runtime Env}.
Local Abbreviation M := (SE (world Env)).
Implicit Types (w : world Env) (k : string).

Lemma set_dict_insert_insert k v v' w :
  set_dict (insert k v) (set_dict (insert k v') w) = set_dict (insert k v) w.
Proof. unfold set_dict. simpl. by rewrite insert_insert_eq. Qed.

Lemma dep_spec f T w :
  dict w !! "deps"%string = Some (VDeps T) →
  dep f w = Ok (f, set_dict (insert "deps"%string (VDeps (<[f := []]> T))) w).
Proof. intros H. unfold dep, bind. by rewrite (getattr_Some _ _ _ H). Qed.

Lemma mapM_dep keys : ∀ T w,
  mapM dep keys (set_dict (insert "deps"%string (VDeps T)) w) =
  Ok (keys, set_dict (insert "deps"%string
                        (VDeps (foldl (λ T x, <[x := []]> T) T keys))) w).
Proof.
  induction keys as [|f keys IH]; intros T w; simpl; [done|].
  unfold bind. erewrite dep_spec; [|by simpl; rewrite lookup_insert_eq].
  by rewrite set_dict_insert_insert, IH.
Qed.

Lemma resolvedeps_spec T w :
  dict w !! "deps"%string = Some (VDeps T) →
  resolvedeps w
  = Ok (tt, set_dict (insert "deps"%string (VDeps (snapshot_of (env w) T))) w).
Proof. intros H. unfold resolvedeps, bind. by rewrite (getattr_Some _ _ _ H). Qed.

Lemma lookup_foldl_dep (keys : list text) : ∀ (T : gmap text text) i,
  is_Some (foldl (λ T x, <[x := []]> T) T keys !! i) ↔ i ∈ keys ∨ is_Some (T !! i).
Proof.
  induction keys as [|f keys IH]; intros T i; simpl.
  - rewrite elem_of_nil. tauto.
  - rewrite IH, elem_of_cons, lookup_insert_is_Some.
    destruct (decide (f = i)) as [->|]; [by intuition|].
    intuition congruence.
Qed.

Lemma snapshot_of_keys (e : Env) (cd : gmap text text) :
  snapshot_of e (foldl (λ T x, <[x := []]> T) (∅ : gmap text text)
                   (map fst (map_to_list cd)))
  = snapshot_of e cd.
Proof.
  apply map_eq. intros i. unfold snapshot_of. rewrite !map_lookup_imap.
  assert (is_Some (foldl (λ T x, <[x := []]> T) (∅ : gmap text text)
                     (map fst (map_to_list cd)) !! i)
          ↔ is_Some (cd !! i)) as Hiff.
  { rewrite lookup_foldl_dep, lookup_empty, is_Some_alt.
    rewrite list_elem_of_fmap. split.
    - intros [([k v] & -> & Hin)|[]]. apply elem_of_map_to_list in Hin.
      simpl. by rewrite Hin.
    - intros [v Hv]. left. exists (i, v). split; [done|].
      by apply elem_of_map_to_list. }
  destruct (foldl _ _ _ !! i) as [x|] eqn:E1, (cd !! i) as [y|] eqn:E2; simpl; try done.
  - destruct Hiff as [Hi _]. by destruct Hi.
  - destruct Hiff as [_ Hi]. by destruct Hi.
Qed.

Lemma snapshot_spec cache cd sd w :
  cache !! "deps"%string = Some (VDeps cd) →
  dict w !! "deps"%string = Some sd →
  snapshot cache w
  = Ok (sd, set_dict (insert "deps"%string (VDeps (snapshot_of (env w) cd))) w).
Proof.
  intros Hc Hd. unfold snapshot, bind. rewrite (getattr_Some _ _ _ Hd). simpl.
  unfold cache_get. rewrite Hc. simpl.
  rewrite mapM_dep.
  erewrite resolvedeps_spec; [|by simpl; rewrite lookup_insert_eq].
  simpl. by rewrite set_dict_insert_insert, snapshot_of_keys.
Qed.

End Snapshot.

Section Validity.
Context {Env : Type} `{!Runtime Env}.
Local Abbreviation M := (SE (world Env)).
Implicit Types (w : world Env).

Lemma set_stdout_nil w : set_stdout (λ l, l ++ []) w = w.
Proof. destruct w. unfold set_stdout. simpl. by rewrite app_nil_r. Qed.

Lemma check_cache_spec cache w dc ca lf cd argv fs snap :
  cache !! "disable_cache"%string = Some dc →
  cache !! "argv"%string = Some ca →
  cache !! "fragments"%string = Some (VStrs lf) →
  cache !! "deps"%string = Some (VDeps cd) →
  dict w !! "argv"%string = Some argv →
  dict w !! "fragments"%string = Some (VStrs fs) →
  dict w !! "deps"%string = Some (VDeps snap) →
  let c1 := negb (truthy dc) in
  let c2 := py_eq ca argv in
  let c3 := bool_decide (lf = fs) in
  let c4 := bool_decide (snap = cd) in
  ∃ evs, check_cache cache w = Ok (c1 && c2 && c3 && c4, set_stdout (λ l, l ++ evs) w) ∧
         first_failure c1 c2 c3 c4 argv ca evs.
Proof.
  intros Hdc Hca Hlf Hcd Ha Hf Hd c1 c2 c3 c4.
  unfold check_cache, bind, cache_get. rewrite Hdc, Hca, Hlf, Hcd. simpl.
  subst c1 c2 c3 c4. unfold first_failure.
  destruct (truthy dc); simpl; [by eexists|].
  rewrite (getattr_Some _ _ _ Ha). destruct (py_eq ca argv); simpl; [|by eexists].
  rewrite (getattr_Some _ _ _ Hf). rewrite py_eq_strs.
  case_bool_decide as Hfs; simpl.
  - rewrite (getattr_Some _ _ _ Hd), py_eq_deps.
    case_bool_decide as Hs; simpl.
    + exists []. by rewrite set_stdout_nil.
    + destruct (dictdiff cd snap) as [[k v]|] eqn:Hdiff; [by eexists _; eauto|].
      apply dictdiff_None in Hdiff. by subst.
  - destruct (dictdiff _ _) as [[k v]|] eqn:Hdiff; [by eexists _; eauto|].
    by apply dictdiff_None, map_seq_0_inj in Hdiff.
Qed.

Lemma bodies_pieces doc : bodies (pieces doc) = map fr_z (fragments_of doc).
Proof.
  unfold bodies, fragments_of, pypparser_finditer, pieces.
  by rewrite finditer_loop_toks.
Qed.

Lemma scanner_preserves {X} (proj : world Env → X) C n o :
  (∀ f w, proj (set_dict f w) = proj w) → preserves proj (scanner C n o).
Proof.
  intros Hp. unfold scanner. repeat keeps_step.
  by apply preserves_modify.
Qed.

Lemma add_lc_preserves {X} (proj : world Env → X) n :
  (∀ f w, proj (set_dict f w) = proj w) → preserves proj (add_lc n).
Proof.
  intros Hp. unfold add_lc. repeat keeps_step. by apply preserves_modify.
Qed.

Lemma scan_pass_spec doc w w1 :
  scan_pass doc w = Ok (tt, w1) →
  dict w1 !! "fragments"%string = Some (VStrs (map fr_z (fragments_of doc))) ∧
  Forall (λ m, scannable m = true) (pypparser_finditer doc) ∧
  (∃ lc, stdout w1 = stdout w ++ [FoundLines lc]) ∧
  env w1 = env w ∧
  ∀ k, k ≠ "fragments"%string → k ≠ "lc"%string → dict w1 !! k = dict w !! k.
Proof.
  unfold scan_pass. intros H.
  inv_bind H as [] w2 H0. injection H0 as <-.
  inv_bind H as out w3 H0. inv_bind H as lc w4 H1.
  apply (preserves_getattr id) in H1 as H1'. simpl in H1'. subst w4.
  injection H as <-.
  unfold process in H0. rewrite pypparser_sub_emit in H0.
  pose proof H0 as H2.
  eapply emit_scanner in H2 as [Hfr Hs]; [|by simpl; rewrite lookup_insert_eq].
  simpl in Hfr. rewrite bodies_pieces in Hfr.
  split; [done|]. split.
  { unfold pypparser_finditer. by rewrite finditer_loop_toks. }
  assert (∀ {X} (proj : world Env → X), (∀ f w, proj (set_dict f w) = proj w) →
            proj w3 = proj w) as Hpres.
  { intros X proj Hp.
    rewrite <-(Hp (insert "fragments"%string (VStrs [])) w).
    eapply (preserves_emit proj); [|exact H0].
    intros m. apply preserves_do_work.
    - intros. by apply add_lc_preserves.
    - intros. by apply scanner_preserves. }
  split; [|split].
  - exists lc. simpl. f_equal. by apply (Hpres _ stdout).
  - simpl. by apply (Hpres _ env).
  - intros k Hk1 Hk2. simpl.
    transitivity (dict (set_dict (insert "fragments"%string (VStrs [])) w) !! k).
    + eapply (preserves_emit (field k)); [|exact H0].
      intros m. apply preserves_do_work.
      * intros. by apply keeps_add_lc.
      * intros. unfold scanner. repeat keeps_step.
    + simpl. by rewrite lookup_insert_ne.
Qed.

Lemma validity_decision doc cache w w1 dc ca lf cd argv sd :
  cache !! "disable_cache"%string = Some dc →
  cache !! "argv"%string = Some ca →
  cache !! "fragments"%string = Some (VStrs lf) →
  cache !! "deps"%string = Some (VDeps cd) →
  dict w !! "argv"%string = Some argv →
  dict w !! "deps"%string = Some sd →
  scan_pass doc w = Ok (tt, w1) →
  let c1 := negb (truthy dc) in
  let c2 := py_eq ca argv in
  let c3 := bool_decide (lf = map fr_z (fragments_of doc)) in
  let c4 := bool_decide (snapshot_of (env w) cd = cd) in
  ∃ w2 w3 evs,
    snapshot cache w1 = Ok (sd, w2) ∧
    dict w2 !! "deps"%string = Some (VDeps (snapshot_of (env w) cd)) ∧
    check_cache cache w2 = Ok (c1 && c2 && c3 && c4, w3) ∧
    (c1 && c2 && c3 && c4 = true ↔
       truthy dc = false ∧ py_eq ca argv = true ∧
       lf = map fr_z (fragments_of doc) ∧ snapshot_of (env w) cd = cd) ∧
    stdout w3 = stdout w2 ++ evs ∧
    dict w3 = dict w2 ∧
    first_failure c1 c2 c3 c4 argv ca evs.
Proof.
  intros Hdc Hca Hlf Hcd Ha Hd Hscan c1 c2 c3 c4.
  apply scan_pass_spec in Hscan as (Hfr & _ & _ & Henv & Hkeep).
  rewrite (snapshot_spec cache cd sd w1) by (rewrite ?Hkeep; done).
  rewrite Henv.
  edestruct (check_cache_spec cache
    (set_dict (insert "deps"%string (VDeps (snapshot_of (env w) cd))) w1))
    as (evs & Hcheck & Hlog); [done..| | | |].
  { simpl. rewrite lookup_insert_ne by done. by rewrite Hkeep. }
  { simpl. by rewrite lookup_insert_ne. }
  { simpl. by rewrite lookup_insert_eq. }
  eexists _, _, evs. split; [done|]. split; [by simpl; rewrite lookup_insert_eq|].
  split; [exact Hcheck|]. split; [|done].
  subst c1 c2 c3 c4. rewrite !andb_true_iff, negb_true_iff, !bool_decide_eq_true.
  tauto.
Qed.

End Validity.

Section Claims.
Context {Env : Type} `{!Runtime Env}.
Local Abbreviation M := (SE (world Env)).
Implicit Types (w : world Env).

(** Claim C9.  [dep id] returns [id] and leaves the table with the empty
    token at [id] and every other entry as it was; an absent [id] is
    inserted; declaring twice is declaring once. *)
Theorem dep_declares_dependency (id : text) (d : gmap text text) w :
  dict w !! "deps"%string = Some (VDeps d) →
  let d' := <[id := []]> d in
  let w' := set_dict (insert "deps"%string (VDeps d')) w in
  dep id w = Ok (id, w') ∧
  d' !! id = Some [] ∧
  (∀ k, k ≠ id → d' !! k = d !! k) ∧
  (d !! id = None → dom d' = {[id]} ∪ dom d) ∧
  (dep id;; dep id) w = dep id w.
Proof.
  intros Hd d' w'. subst d' w'.
  split; [by apply dep_spec|].
  split; [by rewrite lookup_insert_eq|].
  split; [by intros k ?; rewrite lookup_insert_ne|].
  split; [by intros _; rewrite dom_insert_L|].
  unfold bind at 1. rewrite (dep_spec _ _ _ Hd).
  erewrite dep_spec; [|by simpl; rewrite lookup_insert_eq].
  by rewrite set_dict_insert_insert, insert_insert_eq.
Qed.


Lemma fill_defaults_empty : fill_defaults ∅ = list_to_map defaults.
Proof. vm_compute. reflexivity. Qed.


Lemma check_cache_defaults w :
  check_cache (list_to_map defaults) w
  = Ok (false, set_stdout (λ l, l ++ [DisableCacheTrue]) w).
Proof. reflexivity. Qed.

Lemma fill_defaults_missing (c : gmap string value) k v :
  (k, v) ∈ defaults → c !! k = None → fill_defaults c !! k = Some v.
Proof.
  unfold fill_defaults.
  assert (NoDup defaults.*1) as Hnd
    by (apply (bool_decide_unpack (NoDup defaults.*1)); by vm_compute).
  revert Hnd. generalize defaults. intros l. revert c.
  induction l as [|[kd vd] l IH]; intros c Hnd Hin Hc; simpl.
  - by apply elem_of_nil in Hin.
  - simpl in Hnd. apply NoDup_cons in Hnd as [Hkd Hnd].
    apply elem_of_cons in Hin as [[= <- <-]|Hin].
    + rewrite Hc. clear IH Hkd Hnd.
      assert (<[k:=v]> c !! k = Some v) as Hk by by rewrite lookup_insert_eq.
      revert Hk. generalize (<[k:=v]> c). induction l as [|[kd vd] l IH]; intros c' Hk; [done|].
      simpl. apply IH. destruct (c' !! kd) eqn:Hd; [done|].
      rewrite lookup_insert_ne; [done|]. intros ->. congruence.
    + apply IH; [done..|].
      assert (k ≠ kd) as Hne.
      { intros ->. apply Hkd. apply list_elem_of_fmap. by exists (kd, v). }
      destruct (c !! kd); [done|]. by rewrite lookup_insert_ne.
Qed.

Lemma fill_defaults_keeps (c : gmap string value) k v :
  c !! k = Some v → fill_defaults c !! k = Some v.
Proof.
  unfold fill_defaults. generalize defaults. intros l. revert c.
  induction l as [|[kd vd] l IH]; intros c Hc; simpl; [done|].
  apply IH. destruct (c !! kd) eqn:Hkd; [done|].
  rewrite lookup_insert_ne; [done|]. intros ->. congruence.
Qed.

Lemma fill_other_cons o kv ds :
  fill_other o (kv :: ds) =
  match contains o (list_ascii_of_string kv.1) with
  | Ok true => fill_other o ds
  | Ok false => Raise TypeError
  | Raise e => Raise e
  end.
Proof. done. Qed.

#[local] Arguments fill_other : simpl never.

Lemma fill_other_raises o ds e : fill_other o ds = Raise e → e = TypeError.
Proof.
  induction ds as [|kv ds IH]; [done|]. rewrite fill_other_cons.
  destruct (contains o (list_ascii_of_string kv.1)) as [[]|e'] eqn:Hc;
    [exact IH|by intros [= <-]|].
  intros [= <-]. destruct o; simpl in Hc; congruence.
Qed.

Lemma read_document_state w doc w1 : read_document w = Ok (doc, w1) → w1 = w.
Proof.
  apply (preserves_bind id); [apply preserves_getattr|]. intros ?.
  apply (preserves_bind id); [apply preserves_lift|]. intros ?.
  apply (preserves_bind id); [apply preserves_get|]. intros ?.
  apply preserves_lift.
Qed.

Lemma load_cache_raising w :
  (∀ name, dict w !! "cachefilename"%string = Some (VStr name) →
           ∃ e, pickle_load name (env w) = Raise e) →
  load_cache w = Ok (Dict (list_to_map defaults), w).
Proof.
  intros Hload. unfold load_cache, bind, catch, bind, getattr.
  destruct (dict w !! "cachefilename"%string) as [v|] eqn:Hv;
    [|by unfold ret; rewrite fill_defaults_empty].
  destruct v; simpl; try by unfold ret; rewrite fill_defaults_empty.
  destruct (Hload _ eq_refl) as [e ->]. simpl.
  by unfold ret; rewrite fill_defaults_empty.
Qed.

Lemma load_cache_loaded w name u :
  dict w !! "cachefilename"%string = Some (VStr name) →
  pickle_load name (env w) = Ok u →
  load_cache w =
  match u with
  | Dict d => Ok (Dict (fill_defaults d), w)
  | NotDict o =>
      match fill_other o defaults with
      | Ok _ => Ok (NotDict o, w)
      | Raise _ => Raise TypeError
      end
  end.
Proof.
  intros Hn Hu. unfold load_cache, bind, catch, bind, getattr. rewrite Hn. simpl.
  rewrite Hu. simpl. destruct u as [d|o]; [done|]. unfold lift, bind.
  destruct (fill_other o defaults) as [[]|e] eqn:Hf; [done|].
  by apply fill_other_raises in Hf as ->.
Qed.


Lemma cache_record_lookup (d : gmap string value) k v :
  cache_record d !! k = Some v ↔
  d !! k = Some v ∧ is_dunder k = false ∧ callable v = false.
Proof. unfold cache_record. by rewrite map_lookup_filter_Some. Qed.

(** Claim C3, amended.  The record is persisted exactly when the cache
    was not deemed valid: with [cached] true the step does nothing, with
    [cached] false it dumps the fields whose name is not of the form
    [__x__] and whose value is not callable, whatever [disable_cache]
    holds; and [compile] calls the step with the answer of the validity
    decision. *)
Theorem cache_persisted_exactly_on_miss :
  (∀ w, persist true w = Ok (tt, w)) ∧
  (∀ w name,
     dict w !! "cachefilename"%string = Some (VStr name) →
     persist false w =
     match pickle_dump name (cache_record (dict w)) (env w) with
     | Ok e => Ok (tt, set_env e (set_stdout (λ l, l ++ [SavingCacheFile (VStr name)]) w))
     | Raise x => Raise x
     end) ∧
  (∀ (d : gmap string value) k v,
     cache_record d !! k = Some v ↔
     d !! k = Some v ∧ is_dunder k = false ∧ callable v = false) ∧
  (∀ cache doc w cached w',
     compile_rest cache doc w = Ok (cached, w') →
     ∃ w0 w1 w2,
       compile_doc cache doc w = Ok (cached, w0) ∧
       write_output w0 = Ok (tt, w1) ∧
       persist cached w1 = Ok (tt, w2) ∧
       latex_step w2 = Ok (tt, w')).
Proof.
  split; [done|]. split; [|split; [apply cache_record_lookup|]].
  - intros w name Hn. unfold persist, bind. simpl.
    rewrite (getattr_Some _ _ _ Hn). simpl. unfold lift_env. simpl.
    by destruct (pickle_dump _ _ _).
  - intros cache doc w cached w' H. unfold compile_rest in H.
    inv_bind H as c w0 H0. inv_bind H as [] w1 H1.
    inv_bind H as [] w2 H2. inv_bind H as [] w3 H3. injection H as <- <-.
    by eexists _, _, _.
Qed.

Lemma setupfig_ready id n ig b w :
  figs w !! id = Some (Figure (Some n) (Some ig) (Some b)) →
  setupfig id w = Ok (ig, w).
Proof.
  intros H. unfold setupfig, bind, fig_attrs. rewrite H. simpl.
  rewrite H. simpl. rewrite H. simpl. by rewrite H.
Qed.

Lemma genname_figs p : preserves figs (genname p : M text).
Proof. unfold genname. repeat keeps_step. all: by apply preserves_modify. Qed.

Lemma dep_figs f : preserves figs (dep f : M text).
Proof. unfold dep. repeat keeps_step. by apply preserves_modify. Qed.

Lemma lift_env_figs f : preserves figs (lift_env f : M unit).
Proof. intros w a w'. unfold lift_env. by destruct (f (env w)); intros [= _ <-]. Qed.

Lemma set_fig_Ok id f w u w' :
  set_fig id f w = Ok (u, w') → attrs w' id = f (attrs w id).
Proof. intros [= _ <-]. unfold attrs. simpl. by rewrite lookup_insert_eq. Qed.

Lemma attrs_named id n w :
  FIGNAME (attrs w id) = Some n → figs w !! id = Some (attrs w id).
Proof. unfold attrs. by destruct (figs w !! id). Qed.

Lemma setupfig_post id ig w w' :
  setupfig id w = Ok (ig, w') →
  ∃ n, figs w' !! id
       = Some (Figure (Some n) (Some ig) (Some (default false (drawn (attrs w id))))).
Proof.
  unfold setupfig. intros H.
  inv_bind H as a0 w0 H0. injection H0 as <- <-. fold (attrs w id) in H.
  inv_bind H as fn w1 H1. inv_bind H as a1 w2 H2. injection H2 as <- <-.
  fold (attrs w1 id) in H.
  inv_bind H as [] w3 H3. inv_bind H as a3 w4 H4. injection H4 as <- <-.
  fold (attrs w3 id) in H.
  inv_bind H as [] w5 H5. inv_bind H as a5 w6 H6. injection H6 as <- <-.
  fold (attrs w5 id) in H.
  (* the name *)
  assert (∃ n, FIGNAME (attrs w1 id) = Some n ∧ IG (attrs w1 id) = IG (attrs w id) ∧
               drawn (attrs w1 id) = drawn (attrs w id))
    as (n & Hn1 & Hi1 & Hd1).
  { destruct (FIGNAME (attrs w id)) as [n|] eqn:Hf.
    - injection H1 as <- <-. by exists n.
    - inv_bind H1 as n wa Ha. inv_bind H1 as [] wb Hb. inv_bind H1 as x wc Hc.
      inv_bind H1 as [] wd Hd. injection H1 as <- <-.
      apply set_fig_Ok in Hd.
      apply genname_figs in Ha. apply lift_env_figs in Hb. apply dep_figs in Hc.
      assert (attrs wc id = attrs w id) as Hsame by (unfold attrs; congruence).
      rewrite Hsame in Hd. rewrite Hd. by exists n. }
  (* the markup *)
  assert (∃ ig', IG (attrs w3 id) = Some ig' ∧ FIGNAME (attrs w3 id) = Some n ∧
                 drawn (attrs w3 id) = drawn (attrs w id))
    as (ig' & Hi3 & Hn3 & Hd3).
  { destruct (IG (attrs w1 id)) as [ig'|] eqn:Hig.
    - injection H3 as <-. by exists ig'.
    - destruct fn as [m|]; [|done].
      inv_bind H3 as v wa Ha. inv_bind H3 as inc wb Hb. inv_bind H3 as ig' wc Hc.
      apply (preserves_getattr (λ x, x)) in Ha. apply (preserves_lift (λ x, x)) in Hb.
      apply (preserves_lift (λ x, x)) in Hc. simpl in *. subst wa wb wc.
      apply set_fig_Ok in H3. rewrite H3. simpl. by exists ig'. }
  (* the flag *)
  assert (IG (attrs w5 id) = Some ig' ∧ FIGNAME (attrs w5 id) = Some n ∧
          drawn (attrs w5 id) = Some (default false (drawn (attrs w id))))
    as (Hi5 & Hn5 & Hd5).
  { destruct (drawn (attrs w3 id)) as [b|] eqn:Hdr.
    - injection H5 as <-. rewrite <-Hd3. by rewrite Hdr.
    - apply set_fig_Ok in H5. rewrite H5. simpl. by rewrite <-Hd3. }
  rewrite Hi5 in H. injection H as <- <-.
  exists n. rewrite (attrs_named _ _ _ Hn5).
  destruct (attrs w5 id) as [a b c]. simpl in *. by subst.
Qed.

Lemma setupfig_idempotent id ig w w' :
  setupfig id w = Ok (ig, w') → setupfig id w' = Ok (ig, w').
Proof. intros (n & H)%setupfig_post. by eapply setupfig_ready. Qed.

(** Claim C8, amended.  [mylatex] maps [None] to the empty string, a
    string to itself, a document reference to its include form, a sympy
    plot to the empty string, a figure to its markup after a setup that a
    second rendering does not repeat, and hands any other value to
    [sympy.latex]. *)
Theorem mylatex_by_cases w :
  mylatex VNone w = Ok ([], w) ∧
  (∀ s, mylatex (VStr s) w = Ok (s, w)) ∧
  (∀ f, mylatex (VNameSpace f) w = Ok (txt "\input{" ++ f ++ txt "}", w)) ∧
  (∀ id, mylatex (VSympyPlot id) w = Ok ([], w)) ∧
  (∀ X, other_value X = true → mylatex X w = lift (sympy_latex X) w) ∧
  (∀ id ig w',
     mylatex (VFigure id) w = Ok (ig, w') →
     (∃ w0, setupfig id w = Ok (ig, w0) ∧
            w' = set_figs (insert id (Figure (FIGNAME (attrs w0 id)) (IG (attrs w0 id))
                                             (Some true))) w0) ∧
     (∃ n, figs w' !! id = Some (Figure (Some n) (Some ig) (Some true))) ∧
     setupfig id w' = Ok (ig, w') ∧
     mylatex (VFigure id) w' = Ok (ig, w')).
Proof.
  split; [done|]. split; [done|]. split; [done|]. split; [done|].
  split; [by intros []|].
  intros id ig w' H. simpl in H.
  inv_bind H as ig0 w0 H0. inv_bind H as [] w1 H1. injection H1 as <-.
  inv_bind H as a w2 H2. injection H2 as <- <-.
  destruct (setupfig_post _ _ _ _ H0) as (n & Hn).
  unfold set_figs in H. simpl in H. rewrite lookup_insert_eq in H. simpl in H.
  rewrite Hn in H. simpl in H. injection H as <- <-.
  set (w' := World _ _ _ _ _).
  assert (figs w' !! id = Some (Figure (Some n) (Some ig0) (Some true))) as Hpost
    by (subst w'; simpl; by rewrite lookup_insert_eq).
  split; [|split; [by exists n|split]].
  - exists w0. split; [done|]. subst w'. unfold set_figs, attrs. by rewrite Hn.
  - by eapply setupfig_ready.
  - simpl. unfold bind. erewrite setupfig_ready by done.
    unfold set_fig, modify, fig_attrs. simpl. rewrite !lookup_insert_eq. simpl.
    unfold ret, set_figs. rewrite Hpost. subst w'. simpl.
    by rewrite insert_insert_eq.
Qed.

End Claims.

Section TwoPasses.
Context {Env : Type} `{!Runtime Env}.
Local Abbreviation M := (SE (world Env)).
Local Abbreviation fld := (@field Env).
Implicit Types (w : world Env).

Lemma length_bodies_pieces doc : length (bodies (pieces doc)) = length (fragments_of doc).
Proof. by rewrite bodies_pieces, length_map. Qed.

Lemma toks_pieces doc : toks (pieces doc) = pypparser_finditer doc.
Proof. unfold pieces, pypparser_finditer. by rewrite finditer_loop_toks. Qed.

(** The line counter stays an integer through a pass whose runner leaves
    it alone. *)
Lemma add_lc_int n w u w' :
  add_lc n w = Ok (u, w') → is_int (dict w' !! "lc"%string).
Proof.
  unfold add_lc. intros H. inv_bind H as lc w1 H1. inv_bind H as lc' w2 H2.
  injection H as _ <-. simpl. rewrite lookup_insert_eq.
  unfold lift in H2. destruct lc; simpl in H2; try done.
  all: injection H2 as <- _; by eexists.
Qed.

Lemma emit_lc_int (runner : text → nat → text → M (option text)) doc ps :
  (∀ z k o, preserves (fld "lc") (runner z k o)) →
  ∀ w out w', emit (do_work add_lc runner doc) ps w = Ok (out, w') →
              is_int (dict w !! "lc"%string) → is_int (dict w' !! "lc"%string).
Proof.
  intros Hr. induction ps as [|[c|m] ps IH]; intros w out w' H Hi; simpl in H.
  - by injection H as _ <-.
  - inv_bind H as r w1 H1. injection H as _ <-. by eapply IH.
  - inv_bind H as r w1 H0. inv_bind H as r' w2 H1. injection H as _ <-.
    eapply IH; [done|]. rewrite do_work_cases in H0.
    destruct (fragment_of m).
    + inv_bind H0 as [] w3 H2. apply add_lc_int in H2.
      apply Hr in H0. unfold field in H0. by rewrite H0.
    + destruct (0 <=? m_start m 1); [by injection H0 as _ <-|].
      destruct (0 <=? m_start m 2); [by injection H0 as _ <-|done].
Qed.

Lemma keeps_emit_appender k doc ps :
  k ≠ "lc"%string → k ≠ "outputs"%string → k ≠ "gencount"%string → k ≠ "deps"%string →
  engine_keeps k →
  preserves (fld k) (emit (do_work add_lc appender doc) ps).
Proof.
  intros. apply preserves_emit. intros m. apply preserves_do_work.
  - intros. by apply keeps_add_lc.
  - intros. unfold appender.
    repeat first [apply keeps_rendered; done | keeps_step].
Qed.

Lemma keeps_appender_lc C n o :
  engine_keeps "lc" → preserves (fld "lc") (appender C n o).
Proof.
  intros. unfold appender. repeat first [apply keeps_rendered; done | keeps_step].
Qed.

(** *** The cache miss *)
Lemma recompute_spec sd doc w w' :
  engine_keeps "outputs" →
  recompute sd doc w = Ok (tt, w') →
  ∃ js, dict w' !! "outputs"%string = Some (VStrs js) ∧
        length js = length (fragments_of doc) ∧
        dict w' !! "compiled"%string = Some (VStr (splice (pieces doc) js)).
Proof.
  intros He H. unfold recompute in H.
  inv_bind H as [] w1 H1. injection H1 as <-.
  inv_bind H as [] w2 H2. injection H2 as <-.
  inv_bind H as [] w3 H3. injection H3 as <-.
  inv_bind H as out w4 H4. injection H as <-.
  unfold process in H4. rewrite pypparser_sub_emit in H4.
  eapply emit_appender in H4 as (js & Ho & Hlen & ->);
    [|done|by simpl; rewrite lookup_insert_eq].
  exists js. simpl in *. rewrite lookup_insert_ne by done.
  by rewrite Ho, Hlen, length_bodies_pieces, lookup_insert_eq.
Qed.

Lemma recompute_keeps k sd doc :
  k ≠ "lc"%string → k ≠ "outputs"%string → k ≠ "gencount"%string → k ≠ "deps"%string →
  k ≠ "compiled"%string → engine_keeps k →
  preserves (fld k) (recompute sd doc).
Proof.
  intros. unfold recompute.
  repeat first [keeps_step].
  intros w0 r w'. unfold process. rewrite pypparser_sub_emit.
  by apply keeps_emit_appender.
Qed.

Lemma recompute_lc_int sd doc w w' :
  engine_keeps "lc" →
  recompute sd doc w = Ok (tt, w') →
  is_int (dict w !! "lc"%string) → is_int (dict w' !! "lc"%string).
Proof.
  intros He H Hi. unfold recompute in H.
  inv_bind H as [] w1 H1. injection H1 as <-.
  inv_bind H as [] w2 H2. injection H2 as <-.
  inv_bind H as [] w3 H3. injection H3 as <-.
  inv_bind H as out w4 H4. injection H as <-.
  unfold process in H4. rewrite pypparser_sub_emit in H4.
  simpl. rewrite lookup_insert_ne by done.
  eapply emit_lc_int; [|exact H4|].
  - intros. by apply keeps_appender_lc.
  - simpl. by rewrite !lookup_insert_ne.
Qed.

(** *** The cache hit *)
Lemma subber_preserves {X} (proj : world Env → X) C n o :
  (∀ f w, proj (set_dict f w) = proj w) → preserves proj (subber C n o).
Proof.
  intros Hp. unfold subber. repeat keeps_step. all: by apply preserves_modify.
Qed.

Lemma restore_spec cache doc js lc w :
  cache !! "outputs"%string = Some (VStrs js) →
  cache !! "lc"%string = Some (VInt lc) →
  length js = length (fragments_of doc) →
  Forall (λ m, scannable m = true) (pypparser_finditer doc) →
  ∃ w', restore cache doc w = Ok (tt, w') ∧
        dict w' !! "compiled"%string = Some (VStr (splice (pieces doc) js)) ∧
        dict w' !! "subcount"%string
        = Some (VInt (Z.of_nat (length (fragments_of doc)) - 1)) ∧
        dict w' !! "outputs"%string = Some (VStrs js) ∧
        stdout w' = stdout w ++ [UsingCached] ∧
        env w' = env w.
Proof.
  intros Ho Hlc Hlen Hs. unfold restore, bind. simpl.
  unfold process. rewrite pypparser_sub_emit.
  set (w1 := set_dict (insert "subcount"%string (VInt (-1))) _).
  destruct (emit_subber doc (pieces doc) w1 [] js lc) as (w' & Hout & Hc).
  - by rewrite toks_pieces.
  - subst w1. simpl. rewrite lookup_insert_ne by done.
    by rewrite lookup_union_l' by by rewrite Ho.
  - subst w1. simpl. by rewrite lookup_insert_eq.
  - subst w1. simpl. rewrite lookup_insert_ne by done.
    by rewrite lookup_union_l' by by rewrite Hlc.
  - by rewrite length_bodies_pieces, Hlen.
  - rewrite Hout. simpl. eexists. split; [done|]. simpl.
    rewrite lookup_insert_eq. rewrite !lookup_insert_ne by done.
    simpl in Hc. rewrite length_bodies_pieces in Hc.
    assert (∀ {X} (proj : world Env → X), (∀ f w, proj (set_dict f w) = proj w) →
              proj w' = proj w1) as Hpres.
    { intros X proj Hp. eapply (preserves_emit proj); [|exact Hout].
      intros m. apply preserves_do_work.
      - intros. by apply add_lc_preserves.
      - intros. by apply subber_preserves. }
    split; [done|]. split; [done|]. split; [|split].
    + transitivity (dict w1 !! "outputs"%string).
      * eapply (preserves_emit (field "outputs")); [|exact Hout].
        intros m. apply preserves_do_work.
        -- intros. by apply keeps_add_lc.
        -- intros. unfold subber. repeat keeps_step.
      * subst w1. simpl. rewrite lookup_insert_ne by done.
        by rewrite lookup_union_l' by by rewrite Ho.
    + by rewrite (Hpres _ stdout).
    + by rewrite (Hpres _ env).
Qed.

End TwoPasses.

Lemma fill_defaults_lookup (c : gmap string value) k v :
  c !! k = Some v → fill_defaults c !! k = Some v.
Proof.
  unfold fill_defaults. generalize defaults. intros l. revert c.
  induction l as [|[kd vd] l IH]; intros c Hc; simpl; [done|].
  apply IH. destruct (c !! kd) eqn:Hkd; [done|].
  rewrite lookup_insert_ne; [done|]. intros ->. congruence.
Qed.

Ltac rewrite_field H :=
  let K := fresh in pose proof H as K; unfold field in K; rewrite K; clear K.

Section Hit.
Context {Env : Type} `{!Runtime Env}.
Local Abbreviation M := (SE (world Env)).
Local Abbreviation fld := (@field Env).
Implicit Types (w : world Env).

Lemma scan_pass_total doc w :
  Forall (λ m, scannable m = true) (pypparser_finditer doc) →
  is_int (dict w !! "lc"%string) →
  ∃ w', scan_pass doc w = Ok (tt, w').
Proof.
  intros Hs [n Hn]. unfold scan_pass, bind. simpl.
  unfold process. rewrite pypparser_sub_emit.
  edestruct (emit_scanner_total doc (pieces doc)
               (set_dict (insert "fragments"%string (VStrs [])) w))
    as (out & w' & n' & Hout & Hn').
  - by rewrite toks_pieces.
  - simpl. by rewrite lookup_insert_eq.
  - simpl. by rewrite lookup_insert_ne.
  - rewrite Hout. rewrite (getattr_Some _ _ _ Hn'). by eexists.
Qed.

Lemma scan_pass_lc_int doc w w' :
  scan_pass doc w = Ok (tt, w') →
  is_int (dict w !! "lc"%string) → is_int (dict w' !! "lc"%string).
Proof.
  unfold scan_pass. intros H Hi.
  inv_bind H as [] w2 H0. injection H0 as <-.
  inv_bind H as out w3 H0. inv_bind H as lc w4 H1.
  apply (preserves_getattr (λ x, x)) in H1. simpl in H1. subst w4.
  injection H as <-. simpl.
  unfold process in H0. rewrite pypparser_sub_emit in H0.
  eapply emit_lc_int; [|exact H0|].
  - intros. unfold scanner. repeat keeps_step.
  - simpl. by rewrite lookup_insert_ne.
Qed.

Lemma keeps_snapshot k cache : k ≠ "deps"%string → preserves (fld k) (snapshot cache).
Proof.
  intros. unfold snapshot.
  repeat first [apply keeps_mapM; intros; apply keeps_dep; done
               | apply keeps_resolvedeps; done | keeps_step].
Qed.

Lemma keeps_check_cache k cache : preserves (fld k) (check_cache cache).
Proof. unfold check_cache. repeat keeps_step. Qed.

Lemma keeps_write_output k : k ≠ "deps"%string → preserves (fld k) write_output.
Proof.
  intros. unfold write_output.
  repeat first [apply keeps_resolvedeps; done | keeps_step].
Qed.

Lemma write_output_deps w w' :
  write_output w = Ok (tt, w') → ∃ d, dict w' !! "deps"%string = Some (VDeps d).
Proof.
  unfold write_output. intros H.
  inv_bind H as pf w1 H1. inv_bind H as [] w2 H2. inv_bind H as [] w3 H3.
  inv_bind H as d w4 H4. injection H as <-.
  apply (preserves_getattr (λ x, x)) in H4. simpl in H4. subst w4. simpl.
  unfold resolvedeps in H3.
  inv_bind H3 as v' w5 H5. inv_bind H3 as d' w6 H6. inv_bind H3 as w7 w8 H7.
  injection H3 as <-. simpl. rewrite lookup_insert_eq. by eexists.
Qed.

Lemma compile_doc_miss cache doc w w' :
  compile_doc cache doc w = Ok (false, w') →
  ∃ wa sd wb wc,
    scan_pass doc w = Ok (tt, wa) ∧ snapshot cache wa = Ok (sd, wb) ∧
    check_cache cache wb = Ok (false, wc) ∧ recompute sd doc wc = Ok (tt, w').
Proof.
  unfold compile_doc. intros H.
  inv_bind H as [] wa Ha. inv_bind H as sd wb Hb. inv_bind H as c wc Hc.
  inv_bind H as [] wd Hd. injection H as -> <-.
  by eexists _, _, _, _.
Qed.

(** Two compiles in a row: what the first leaves makes the second a hit. *)
Lemma second_compile doc cache0 w0 w1 w1' w2 argv dcv d1 sd2 :
  engine_keeps "outputs" → engine_keeps "fragments" →
  engine_keeps "argv" → engine_keeps "lc" →
  dict w0 !! "argv"%string = Some (VStrs argv) →
  is_int (dict w0 !! "lc"%string) →
  compile_doc cache0 doc w0 = Ok (false, w1) →
  write_output w1 = Ok (tt, w1') →
  dict w1' !! "disable_cache"%string = Some dcv → truthy dcv = false →
  dict w2 !! "argv"%string = Some (VStrs argv) →
  is_int (dict w2 !! "lc"%string) →
  dict w2 !! "deps"%string = Some sd2 →
  dict w1' !! "deps"%string = Some (VDeps d1) →
  snapshot_of (env w2) d1 = d1 →
  ∃ w2' lc2 js,
    compile_doc (fill_defaults (cache_record (dict w1'))) doc w2 = Ok (true, w2') ∧
    dict w1 !! "outputs"%string = Some (VStrs js) ∧
    length js = length (fragments_of doc) ∧
    dict w1 !! "compiled"%string = Some (VStr (splice (pieces doc) js)) ∧
    dict w2' !! "compiled"%string = Some (VStr (splice (pieces doc) js)) ∧
    stdout w2' = stdout w2 ++ [FoundLines lc2; UsingCached] ∧
    env w2' = env w2.
Proof.
  intros Ko Kf Ka Kl Hargv0 Hlc0 Hc1 Hw1 Hdc Hdcf Hargv2 Hlc2 Hsd2 Hd1 Hfresh.
  apply compile_doc_miss in Hc1 as (wa & sd & wb & wc & Hscan & Hsnap & Hchk & Hrec).
  (* what the first compile leaves *)
  pose proof (scan_pass_spec _ _ _ Hscan) as (Hfa & Hsc & _ & _ & Hka).
  destruct (recompute_spec _ _ _ _ Ko Hrec) as (js & Hout & Hlen & Hcomp).
  assert (dict w1' !! "fragments"%string = Some (VStrs (map fr_z (fragments_of doc))))
    as Hf1.
  { rewrite <-Hfa.
    etransitivity; [exact (keeps_write_output "fragments" ltac:(done) _ _ _ Hw1)|].
    etransitivity; [exact (recompute_keeps "fragments" _ _ ltac:(done) ltac:(done)
                             ltac:(done) ltac:(done) ltac:(done) Kf _ _ _ Hrec)|].
    etransitivity; [exact (keeps_check_cache "fragments" _ _ _ _ Hchk)|].
    exact (keeps_snapshot "fragments" _ ltac:(done) _ _ _ Hsnap). }
  assert (dict w1' !! "argv"%string = Some (VStrs argv)) as Ha1.
  { rewrite <-Hargv0, <-(Hka "argv"%string) by done.
    etransitivity; [exact (keeps_write_output "argv" ltac:(done) _ _ _ Hw1)|].
    etransitivity; [exact (recompute_keeps "argv" _ _ ltac:(done) ltac:(done)
                             ltac:(done) ltac:(done) ltac:(done) Ka _ _ _ Hrec)|].
    etransitivity; [exact (keeps_check_cache "argv" _ _ _ _ Hchk)|].
    exact (keeps_snapshot "argv" _ ltac:(done) _ _ _ Hsnap). }
  assert (dict w1' !! "outputs"%string = Some (VStrs js)) as Ho1.
  { rewrite <-Hout. exact (keeps_write_output "outputs" ltac:(done) _ _ _ Hw1). }
  assert (is_int (dict w1' !! "lc"%string)) as [lc1 Hl1].
  { rewrite_field (keeps_write_output "lc" ltac:(done) _ _ _ Hw1).
    eapply recompute_lc_int; [done..|].
    rewrite_field (keeps_check_cache "lc" _ _ _ _ Hchk).
    rewrite_field (keeps_snapshot "lc" _ ltac:(done) _ _ _ Hsnap).
    by eapply scan_pass_lc_int. }
  (* the record and what the second compile reads from it *)
  set (cache := fill_defaults (cache_record (dict w1'))).
  assert (∀ k v, dict w1' !! k = Some v → is_dunder k = false → callable v = false →
                 cache !! k = Some v) as Hrecord.
  { intros k v Hk ? ?. apply fill_defaults_lookup. by apply cache_record_lookup. }
  assert (cache !! "disable_cache"%string = Some dcv) as Cdc.
  { apply Hrecord; [done..|]. by destruct dcv. }
  pose proof (Hrecord _ _ Ha1 eq_refl eq_refl) as Cargv.
  pose proof (Hrecord _ _ Hf1 eq_refl eq_refl) as Cfr.
  pose proof (Hrecord _ _ Hd1 eq_refl eq_refl) as Cdeps.
  pose proof (Hrecord _ _ Ho1 eq_refl eq_refl) as Cout.
  pose proof (Hrecord _ _ Hl1 eq_refl eq_refl) as Clc.
  (* the second compile *)
  destruct (scan_pass_total doc w2 Hsc Hlc2) as [w2a Hscan2].
  pose proof (scan_pass_spec _ _ _ Hscan2) as (_ & _ & [lc2 Hstd2] & Henv2 & _).
  destruct (validity_decision doc cache w2 w2a dcv (VStrs argv)
              (map fr_z (fragments_of doc)) d1 (VStrs argv) sd2)
    as (w2b & w2c & evs & Hsnap2 & Hdeps2b & Hchk2 & Hall & Hstd & Hdict & Hlog); [done..|].
  assert (negb (truthy dcv) && py_eq (VStrs argv) (VStrs argv) &&
          bool_decide (map fr_z (fragments_of doc) = map fr_z (fragments_of doc)) &&
          bool_decide (snapshot_of (env w2) d1 = d1) = true) as Hvalid.
  { apply Hall. by rewrite py_eq_refl. }
  rewrite Hvalid in Hchk2.
  apply andb_true_iff in Hvalid as [Hvalid V4].
  apply andb_true_iff in Hvalid as [Hvalid V3].
  apply andb_true_iff in Hvalid as [V1 V2].
  rewrite V1, V2, V3, V4 in Hlog. simpl in Hlog. subst evs.
  destruct (restore_spec cache doc js lc1 w2c Cout Clc Hlen Hsc)
    as (w2' & Hres & Hcomp2 & _ & _ & Hstd' & Henv').
  exists w2', lc2, js. split.
  { unfold compile_doc, bind. by rewrite Hscan2, Hsnap2, Hchk2, Hres. }
  split; [done|]. split; [done|]. split; [done|]. split; [done|].
  split.
  - rewrite Hstd', Hstd, app_nil_r.
    assert (stdout w2b = stdout w2a) as ->.
    { pose proof Hsnap2 as Hs.
      rewrite (snapshot_spec cache d1 sd2 w2a) in Hs; [by injection Hs as <-|done|].
      pose proof (scan_pass_spec _ _ _ Hscan2) as (_ & _ & _ & _ & Hk2).
      by rewrite Hk2. }
    by rewrite Hstd2, <-app_assoc.
  - rewrite Henv', <-Henv2.
    assert (∀ X (proj : world Env → X) f w, proj (set_dict f w) = proj w →
              True) as _ by done.
    transitivity (env w2b).
    + pose proof (scan_pass_spec _ _ _ Hscan2) as (Hf2 & _ & _ & _ & Hk2).
      assert (dict w2b !! "argv"%string = Some (VStrs argv)) as Ha2b.
      { rewrite_field (keeps_snapshot "argv" _ ltac:(done) _ _ _ Hsnap2).
        by rewrite Hk2. }
      assert (dict w2b !! "fragments"%string
              = Some (VStrs (map fr_z (fragments_of doc)))) as Hf2b.
      { by rewrite_field (keeps_snapshot "fragments" _ ltac:(done) _ _ _ Hsnap2). }
      destruct (check_cache_spec cache w2b dcv (VStrs argv)
                  (map fr_z (fragments_of doc)) d1 (VStrs argv)
                  (map fr_z (fragments_of doc)) (snapshot_of (env w2) d1)
                  Cdc Cargv Cfr Cdeps Ha2b Hf2b Hdeps2b)
        as (evs & Hc & _).
      rewrite Hc in Hchk2. by injection Hchk2 as _ <-.
    + rewrite (snapshot_spec cache d1 sd2 w2a) in Hsnap2; [by injection Hsnap2 as <-|done|].
      pose proof (scan_pass_spec _ _ _ Hscan2) as (_ & _ & _ & _ & Hk2).
      by rewrite Hk2.
Qed.

End Hit.

(** * The claims *)

Section Claims.
Context {Env : Type} `{!Runtime Env}.
Implicit Types (w : world Env).

(** Claim C1.  The cache is deemed valid exactly when the record's
    [disable_cache] is false, its [argv] equals the current one, its
    [fragments] equal the bodies collected by the scan pass, and the table
    resolved from the keys of its [deps] equals its [deps]; the checks are
    made in this order and only the first one that fails is reported. *)
Theorem cache_validity doc cache w w1 dc ca lf cd argv sd :
  cache !! "disable_cache"%string = Some dc →
  cache !! "argv"%string = Some ca →
  cache !! "fragments"%string = Some (VStrs lf) →
  cache !! "deps"%string = Some (VDeps cd) →
  dict w !! "argv"%string = Some argv →
  dict w !! "deps"%string = Some sd →
  scan_pass doc w = Ok (tt, w1) →
  let c1 := negb (truthy dc) in
  let c2 := py_eq ca argv in
  let c3 := bool_decide (lf = map fr_z (fragments_of doc)) in
  let c4 := bool_decide (snapshot_of (env w) cd = cd) in
  ∃ w2 w3 evs,
    snapshot cache w1 = Ok (sd, w2) ∧
    dict w2 !! "deps"%string = Some (VDeps (snapshot_of (env w) cd)) ∧
    check_cache cache w2 = Ok (c1 && c2 && c3 && c4, w3) ∧
    (c1 && c2 && c3 && c4 = true ↔
       truthy dc = false ∧ py_eq ca argv = true ∧
       lf = map fr_z (fragments_of doc) ∧ snapshot_of (env w) cd = cd) ∧
    stdout w3 = stdout w2 ++ evs ∧
    dict w3 = dict w2 ∧
    first_failure c1 c2 c3 c4 argv ca evs.
Proof. apply validity_decision. Qed.



End Claims.


(** * The claims on the small runtime *)

Import Toy.

(** Splits the conjunctions of a goal, and nothing else. *)
Ltac conjs := repeat match goal with |- _ ∧ _ => split end.

Lemma toy_engine_keeps k :
  k ≠ "deps"%string → k ≠ "disable_cache"%string → engine_keeps (Env:=toy_env) k.
Proof.
  intros. split; intros S; simpl; unfold toy_eval, toy_exec;
    repeat first [apply keeps_dep; done | keeps_step].
Qed.

(** Claim C4, at the two runners of the claim. *)
Lemma walk_visits_same_fragments_witness :
  let m1 := observed_process no_lc recorder doc1 in
  let m2 := observed_process no_lc replacer doc1 in
  let s1 := after m1 ([], [], []) in
  let s2 := after m2 (tt, [], []) in
  s1.2 = pypparser_finditer doc1 ∧ s2.2 = s1.2 ∧
  s1.1.2 = map (call_of doc1) (fragments_of doc1) ∧ s2.1.2 = s1.1.2 ∧
  process no_lc recorder doc1 [] = Ok (returned m1 ([], [], []) [], s1.1.1) ∧
  process no_lc replacer doc1 tt = Ok (returned m2 (tt, [], []) [], s2.1.1).
Proof.
  intros m1 m2 s1 s2.
  apply (walk_visits_same_fragments doc1 no_lc no_lc recorder replacer [] tt
           (returned m1 ([], [], []) []) (returned m2 (tt, [], []) [])
           s1.1.1 s2.1.1 s1.1.2 s2.1.2 s1.2 s2.2);
    vm_compute; reflexivity.
Defined.

(** Claim C1, at the record a first compile of [doc1] leaves and a second
    object: all four checks hold and nothing is reported. *)
Lemma cache_validity_witness :
  let cache := fill_defaults (cache_record (dict (after construct (start doc1)))) in
  let w := again doc1 in
  let w1 := after (scan_pass doc1) w in
  let cd : gmap text text := {[ txt "pyptex.py" := txt "3" ]} in
  let lf := [txt "1+1"; txt "x=1"; txt "x"] in
  let sd := VDeps {[ txt "pyptex.py" := [] ]} in
  let c1 := negb (truthy (VBool false)) in
  let c2 := py_eq (VStrs []) (VStrs []) in
  let c3 := bool_decide (lf = map fr_z (fragments_of doc1)) in
  let c4 := bool_decide (snapshot_of (env w) cd = cd) in
  ∃ w2 w3 evs,
    snapshot cache w1 = Ok (sd, w2) ∧
    dict w2 !! "deps"%string = Some (VDeps (snapshot_of (env w) cd)) ∧
    check_cache cache w2 = Ok (c1 && c2 && c3 && c4, w3) ∧
    (c1 && c2 && c3 && c4 = true ↔
       truthy (VBool false) = false ∧ py_eq (VStrs []) (VStrs []) = true ∧
       lf = map fr_z (fragments_of doc1) ∧ snapshot_of (env w) cd = cd) ∧
    stdout w3 = stdout w2 ++ evs ∧
    dict w3 = dict w2 ∧
    first_failure c1 c2 c3 c4 (VStrs []) (VStrs []) evs.
Proof.
  intros cache w w1 cd lf sd.
  apply (cache_validity doc1 cache w w1 (VBool false) (VStrs []) lf cd (VStrs []) sd);
    vm_compute; reflexivity.
Defined.



(** Claim C3, as stated, fails in both directions: a cache hit with the
    cache enabled persists nothing, and a compile whose fragment disables
    the cache persists a record all the same. *)
Lemma persisting_follows_the_miss_not_the_flag :
  let w1 := after construct (start doc1) in
  let w2 := after construct w1 in
  let v1 := after construct (start doc2) in
  (returned construct w1 false = true ∧
   dict w2 !! "disable_cache"%string = Some (VBool false) ∧
   saved_cache (printed w1 w2) = false ∧
   t_mtime (env w2) !! txt "a.pickle" = t_mtime (env w1) !! txt "a.pickle") ∧
  (returned construct (start doc2) true = false ∧
   dict v1 !! "disable_cache"%string = Some (VBool true) ∧
   saved_cache (printed (start doc2) v1) = true ∧
   (cache_record (dict v1) ⊆ default ∅ (t_pickles (env v1) !! txt "a.pickle"))).
Proof.
  intros w1 w2 v1. conjs; try (vm_compute; reflexivity).
  apply map_subseteq_spec. intros k v. vm_compute. intros H. exact H.
Qed.

(** Claim C3, amended, where the first compile of [doc1] persists. *)
Lemma cache_persisted_exactly_on_miss_witness :
  let w := after (compile_doc (fill_defaults ∅) doc1) (fresh doc1) in
  let w1 := after write_output w in
  persist true w1 = Ok (tt, w1) ∧
  persist false w1 =
  match pickle_dump (txt "a.pickle") (cache_record (dict w1)) (env w1) with
  | Ok e => Ok (tt, set_env e (set_stdout (λ l, l ++ [SavingCacheFile (VStr (txt "a.pickle"))]) w1))
  | Raise x => Raise x
  end.
Proof.
  intros w w1.
  pose proof (cache_persisted_exactly_on_miss (Env:=toy_env)) as (H1 & H2 & _).
  split; [apply H1|]. apply H2. vm_compute. reflexivity.
Defined.






(** Claim C8, as stated, fails: a sympy plot is not handed to the
    external renderer, it is rendered as the empty string. *)
Lemma sympy_plot_is_not_delegated :
  mylatex (VSympyPlot 0%nat) (start doc1) = Ok ([], start doc1) ∧
  lift (sympy_latex (VSympyPlot 0%nat)) (start doc1)
  = Ok (txt "\mathtt{obj}", start doc1) ∧
  mylatex (VSympyPlot 0%nat) (start doc1)
  ≠ lift (sympy_latex (VSympyPlot 0%nat)) (start doc1).
Proof. conjs; try (vm_compute; reflexivity). vm_compute. discriminate. Qed.

(** Claim C8, amended, at a figure: it is set up once, and rendering it
    again changes nothing. *)
Lemma mylatex_by_cases_witness :
  let w := fresh doc1 in
  let w' := after (mylatex (VFigure 0%nat)) w in
  let ig := txt "\includegraphics{a-generated/fig1.eps}" in
  mylatex (VFigure 0%nat) w = Ok (ig, w') ∧
  (∃ n, figs w' !! 0%nat = Some (Figure (Some n) (Some ig) (Some true))) ∧
  setupfig 0%nat w' = Ok (ig, w') ∧
  mylatex (VFigure 0%nat) w' = Ok (ig, w').
Proof.
  intros w w' ig.
  assert (mylatex (VFigure 0%nat) w = Ok (ig, w')) as H by (vm_compute; reflexivity).
  split; [exact H|].
  destruct (mylatex_by_cases w) as (_ & _ & _ & _ & _ & Hfig).
  destruct (Hfig 0%nat ig w' H) as (_ & H1 & H2 & H3). conjs; assumption.
Defined.

(** Claim C9, at a new object and a dependency it does not have. *)
Lemma dep_declares_dependency_witness :
  let w := fresh doc1 in
  let d : gmap text text := {[ txt "pyptex.py" := [] ]} in
  let d' := <[txt "r.csv" := []]> d in
  let w' := set_dict (insert "deps"%string (VDeps d')) w in
  dep (txt "r.csv") w = Ok (txt "r.csv", w') ∧
  d' !! txt "r.csv" = Some [] ∧
  (∀ k, k ≠ txt "r.csv" → d' !! k = d !! k) ∧
  (d !! txt "r.csv" = None → dom d' = {[txt "r.csv"]} ∪ dom d) ∧
  (dep (txt "r.csv");; dep (txt "r.csv")) w = dep (txt "r.csv") w.
Proof.
  intros w d.
  apply (dep_declares_dependency (txt "r.csv") d w). vm_compute. reflexivity.
Defined.



(** * Further properties of the code *)

(** ** [dictdiff] *)

(** Property X1.  [dictdiff] answers [None] exactly when the two
    dictionaries are equal; an item it returns is an item of one of them
    that the other one does not have. *)
Theorem dictdiff_symmetric_difference `{Countable K} (A B : gmap K text) :
  (dictdiff A B = None ↔ A = B) ∧
  (∀ k v, dictdiff A B = Some (k, v) →
     (A !! k = Some v ∧ B !! k ≠ Some v) ∨ (B !! k = Some v ∧ A !! k ≠ Some v)).
Proof.
  split; [split|].
  - apply dictdiff_None.
  - intros ->. unfold dictdiff. apply head_None.
    assert (filter (λ kv : K * text, B !! kv.1 ≠ Some kv.2) (map_to_list B) = []) as ->; [|done].
    destruct (filter _ (map_to_list B)) as [|[k v] l] eqn:E; [done|].
    assert ((k, v) ∈ filter (λ kv : K * text, B !! kv.1 ≠ Some kv.2) (map_to_list B)) as Hin
      by (rewrite E; left).
    apply list_elem_of_filter in Hin as [Hne Hin]. by apply elem_of_map_to_list in Hin.
  - intros k v Hd. unfold dictdiff in Hd.
    apply head_Some_elem_of, elem_of_app in Hd as [Hin|Hin];
      apply list_elem_of_filter in Hin as [Hne Hin];
      apply elem_of_map_to_list in Hin; simpl in *; tauto.
Qed.

(** ** Frames

    What a computation leaves alone, for projections other than a field of
    the object. *)
Section Frames.
Context {Env : Type} `{!Runtime Env}.
Local Abbreviation M := (SE (world Env)).
Implicit Types (w : world Env).

Lemma preserves_lift_env {X} (proj : world Env → X) f :
  (∀ e w, proj (set_env e w) = proj w) → preserves proj (lift_env f : M unit).
Proof.
  intros Hp w a w'. unfold lift_env. destruct (f (env w)); [|done].
  intros [= _ <-]. apply Hp.
Qed.

Lemma preserves_fig_attrs {X} (proj : world Env → X) id :
  preserves proj (fig_attrs id : M figure).
Proof. by intros w a w' [= _ <-]. Qed.

End Frames.

(** One step of a proof that a computation leaves a projection alone that
    does not look at the fields of the object. *)
Ltac frame_step :=
  lazymatch goal with
  | |- preserves _ (bind _ _) => apply preserves_bind; [|intros ?]
  | |- preserves _ (ret _) => apply preserves_ret
  | |- preserves _ (raise _) => apply preserves_raise
  | |- preserves _ get_state => apply preserves_get
  | |- preserves _ (lift _) => apply preserves_lift
  | |- preserves _ (getattr _) => apply preserves_getattr
  | |- preserves _ (fig_attrs _) => apply preserves_fig_attrs
  | |- preserves _ (setattr _ _) => apply preserves_modify; intros ?; reflexivity
  | |- preserves _ (log _) => apply preserves_modify; intros ?; reflexivity
  | |- preserves _ (lift_env _) => apply preserves_lift_env; intros ??; reflexivity
  | |- preserves _ (match ?x with _ => _ end) => destruct x
  | |- preserves _ (if ?x then _ else _) => destruct x
  end.

Section Dependencies.
Context {Env : Type} `{!Runtime Env}.
Implicit Types (w : world Env).

Lemma snapshot_of_lookup (e : Env) (d : gmap text text) k :
  snapshot_of e d !! k = match d !! k with
                         | Some _ => Some (datestamp e k)
                         | None => None
                         end.
Proof. unfold snapshot_of. rewrite map_lookup_imap. by destruct (d !! k). Qed.

Lemma snapshot_of_idemp (e : Env) (d : gmap text text) :
  snapshot_of e (snapshot_of e d) = snapshot_of e d.
Proof.
  apply map_eq. intros k. rewrite !snapshot_of_lookup. by destruct (d !! k).
Qed.

(** Property X2.  [resolvedeps] does not fail on a dependency whose file
    cannot be examined: it keeps the keys of the table and gives each one
    its time stamp, the empty string where [os.stat] or the formatting
    raises; resolving again in the same environment changes nothing. *)
Theorem resolvedeps_stamps_every_key (d : gmap text text) w :
  dict w !! "deps"%string = Some (VDeps d) →
  ∃ d', let w' := set_dict (insert "deps"%string (VDeps d')) w in
    resolvedeps w = Ok (tt, w') ∧
    dom d' = dom d ∧
    (∀ k, k ∈ dom d → d' !! k = Some (datestamp (env w) k)) ∧
    (∀ k e, k ∈ dom d → stat_mtime_ns k (env w) = Raise e → d' !! k = Some []) ∧
    resolvedeps w' = Ok (tt, w').
Proof.
  intros Hd. exists (snapshot_of (env w) d). simpl.
  assert (∀ k, k ∈ dom d → snapshot_of (env w) d !! k = Some (datestamp (env w) k)) as Hk.
  { intros k [v Hv]%elem_of_dom. by rewrite snapshot_of_lookup, Hv. }
  split; [by apply resolvedeps_spec|]. split; [|split; [done|split]].
  - apply set_eq. intros k. rewrite !elem_of_dom, snapshot_of_lookup.
    destruct (d !! k); split; intros [??]; eauto; done.
  - intros k e Hin He. rewrite (Hk _ Hin). unfold datestamp. by rewrite He.
  - erewrite resolvedeps_spec; [|by simpl; rewrite lookup_insert_eq].
    simpl. by rewrite set_dict_insert_insert, snapshot_of_idemp.
Qed.

End Dependencies.

Section Figures.
Context {Env : Type} `{!Runtime Env}.
Local Abbreviation M := (SE (world Env)).
Implicit Types (w : world Env).


Lemma preserves_set_fig_other id id' f :
  id ≠ id' → preserves (λ w, figs w !! id') (set_fig id f : M unit).
Proof.
  intros Hne. apply preserves_modify. intros w. simpl. by rewrite lookup_insert_ne.
Qed.

Lemma preserves_genname {X} (proj : world Env → X) p :
  (∀ f w, proj (set_dict f w) = proj w) → preserves proj (genname p).
Proof.
  intros Hp. unfold genname. repeat first [apply preserves_modify; intros ?; apply Hp | frame_step].
Qed.

Lemma preserves_dep {X} (proj : world Env → X) p :
  (∀ f w, proj (set_dict f w) = proj w) → preserves proj (dep p).
Proof.
  intros Hp. unfold dep. repeat first [apply preserves_modify; intros ?; apply Hp | frame_step].
Qed.

Lemma setupfig_other id id' : id ≠ id' → preserves (λ w, figs w !! id') (setupfig id).
Proof.
  intros Hne. unfold setupfig.
  repeat first [apply preserves_set_fig_other; done
               | apply preserves_genname; done | apply preserves_dep; done | frame_step].
Qed.

Lemma setupfig_accum id : preserves accum (setupfig id : M text).
Proof.
  unfold setupfig.
  repeat first [apply preserves_genname; done | apply preserves_dep; done
               | apply preserves_modify; intros ?; reflexivity | frame_step].
Qed.

Lemma setupfig_drawn id ig w w' :
  setupfig id w = Ok (ig, w') →
  drawn (attrs w' id) = Some (default false (drawn (attrs w id))) ∧
  ∀ id', drawn (attrs w' id') = Some true ↔ drawn (attrs w id') = Some true.
Proof.
  intros H. destruct (setupfig_post _ _ _ _ H) as (n & Hpost).
  assert (drawn (attrs w' id) = Some (default false (drawn (attrs w id)))) as Hd.
  { unfold attrs at 1. by rewrite Hpost. }
  split; [done|]. intros id'. destruct (decide (id = id')) as [<-|Hne].
  - rewrite Hd. destruct (drawn (attrs w id)) as [[]|]; simpl; split; congruence.
  - unfold attrs. by rewrite (setupfig_other id id' Hne _ _ _ H).
Qed.

Lemma showall_loop_spec l : ∀ w w',
  showall_loop l w = Ok (tt, w') →
  accum w' = accum w ++ map VFigure (filter (λ id, drawn (attrs w id) ≠ Some true) l) ∧
  (∀ id, drawn (attrs w' id) = Some true ↔ drawn (attrs w id) = Some true).
Proof.
  induction l as [|id l IH]; intros w w' H; simpl in H.
  - injection H as <-. by rewrite app_nil_r.
  - inv_bind H as ig w1 H1. inv_bind H as a w3 H3. injection H3 as <- <-.
    inv_bind H as [] w2 H2. fold (attrs w1 id) in H2.
    destruct (setupfig_drawn _ _ _ _ H1) as [Hd Hiff].
    pose proof (setupfig_accum id _ _ _ H1) as Hacc. simpl in Hacc.
    rewrite Hd in H2.
    assert (∀ w0, (∀ i, drawn (attrs w0 i) = Some true ↔ drawn (attrs w i) = Some true) →
              filter (λ i, drawn (attrs w0 i) ≠ Some true) l
              = filter (λ i, drawn (attrs w i) ≠ Some true) l) as Hfilter.
    { intros w0 Hw0. apply list_filter_iff. intros i. by rewrite Hw0. }
    destruct (drawn (attrs w id)) as [[]|] eqn:Hdr; simpl in H2.
    + injection H2 as <-. apply IH in H as [-> Hiff'].
      rewrite filter_cons_False by (intros Hc; by apply Hc). rewrite Hfilter by done.
      split; [by rewrite Hacc|]. intros i. rewrite Hiff'. apply Hiff.
    + injection H2 as <-. apply IH in H as [-> Hiff'].
      rewrite filter_cons_True by (by rewrite Hdr). simpl. rewrite Hfilter by done.
      split; [by rewrite Hacc, <-app_assoc|]. intros i. rewrite Hiff'. apply Hiff.
    + injection H2 as <-. apply IH in H as [-> Hiff'].
      rewrite filter_cons_True by (by rewrite Hdr). simpl. rewrite Hfilter by done.
      split; [by rewrite Hacc, <-app_assoc|]. intros i. rewrite Hiff'. apply Hiff.
Qed.

(** Property X4.  [showall] appends to the accumulator the registered
    figures that are not marked as drawn, in the order of the registry,
    and marks none of them: a figure is drawn afterwards exactly when it
    was before. *)
Theorem showall_prints_the_undrawn w w' :
  showall w = Ok (tt, w') →
  accum w' = accum w ++
    map VFigure (filter (λ id, drawn (attrs w id) ≠ Some true) (get_all_fig_managers (env w))) ∧
  (∀ id, drawn (attrs w' id) = Some true ↔ drawn (attrs w id) = Some true).
Proof. unfold showall, bind. simpl. apply showall_loop_spec. Qed.

End Figures.

(** ** The matches of [pypparser] *)

Lemma span_spec p s a b :
  span p s = (a, b) →
  s = a ++ b ∧ Forall (λ c, p c = true) a ∧
  match b with c :: _ => p c = false | [] => True end.
Proof.
  revert a b. induction s as [|c s IH]; intros a b H; simpl in H.
  - by injection H as <- <-.
  - destruct (p c) eqn:Hc.
    + destruct (span p s) as [a' b'] eqn:Hs. injection H as <- <-.
      destruct (IH a' b' eq_refl) as (-> & Ha & Hb). by repeat constructor.
    + injection H as <- <-. by repeat constructor.
Qed.

Lemma opt_tag_spec s tag s2 : opt_tag s = (tag, s2) → s = tag_text tag ++ s2.
Proof.
  unfold opt_tag. destruct s as [|c s1]; [by intros [= <- <-]|].
  destruct (Ascii.eqb c "[") eqn:Hc; [|by intros [= <- <-]].
  apply Ascii.eqb_eq in Hc as ->.
  destruct (span is_alpha s1) as [o s3] eqn:Hs. apply span_spec in Hs as (-> & _ & _).
  destruct s3 as [|c' s3]; [by intros [= <- <-]|].
  destruct (Ascii.eqb c' "]") eqn:Hc'; [|by intros [= <- <-]].
  apply Ascii.eqb_eq in Hc' as ->. intros [= <- <-]. simpl.
  by rewrite <-app_assoc.
Qed.

Lemma until_close3_spec s : ∀ b r,
  until_close3 s = Some (b, r) → s = b ++ txt "}}}" ++ r.
Proof.
  induction s as [|c s IH]; intros b r H; [done|].
  simpl in H. destruct s as [|c2 [|c3 s]]; [done..|].
  destruct (Ascii.eqb c "}" && Ascii.eqb c2 "}" && Ascii.eqb c3 "}") eqn:Hc.
  - apply andb_true_iff in Hc as [[->%Ascii.eqb_eq ->%Ascii.eqb_eq]%andb_true_iff
                                     ->%Ascii.eqb_eq].
    by injection H as <- <-.
  - destruct (until_close3 (c2 :: c3 :: s)) as [[b' r']|] eqn:Hu; [|done].
    injection H as <- <-. by rewrite (IH b' r' eq_refl).
Qed.

Lemma leb_0_of_nat n : (0 <=? Z.of_nat n) = true.
Proof. apply Z.leb_le. lia. Qed.

Lemma pypparser_match_matched prev pos s m :
  pypparser_match prev pos s = Some m → matched pos s m.
Proof.
  unfold pypparser_match.
  destruct (match_comment prev pos s) as [m1|] eqn:H1.
  { intros [= <-]. unfold match_comment in H1.
    destruct s as [|c s1]; [done|].
    destruct (Ascii.eqb c "%") eqn:Hc; [|done]. apply Ascii.eqb_eq in Hc as ->.
    destruct (negb _); [|done]. simpl in H1.
    destruct (span not_nl s1) as [body rest] eqn:Hs.
    apply span_spec in Hs as (-> & Hb & Hr).
    destruct rest as [|c' rest]; [done|]. injection H1 as <-.
    unfold not_nl in Hr. apply negb_false_iff, Ascii.eqb_eq in Hr as ->.
    eapply matched_comment; [done| |done].
    eapply Forall_impl; [exact Hb|]. intros c Hc. unfold not_nl in Hc.
    by apply negb_true_iff, Ascii.eqb_neq in Hc. }
  destruct (match_escape pos s) as [m2|] eqn:H2.
  { intros [= <-]. unfold match_escape in H2.
    destruct s as [|c1 [|c2 rest]]; [done..|].
    destruct (Ascii.eqb c1 "@" && Ascii.eqb c2 "@") eqn:Hc; [|done].
    apply andb_true_iff in Hc as [->%Ascii.eqb_eq ->%Ascii.eqb_eq].
    injection H2 as <-. by eapply matched_escape. }
  destruct (match_brace1 pos s) as [m3|] eqn:H3.
  { intros [= <-]. unfold match_brace1 in H3.
    destruct s as [|c s1]; [done|].
    destruct (Ascii.eqb c "@") eqn:Hc; [|done]. apply Ascii.eqb_eq in Hc as ->.
    destruct (opt_tag s1) as [tag s2] eqn:Ht. apply opt_tag_spec in Ht as ->.
    destruct s2 as [|b s3]; [done|].
    destruct (Ascii.eqb b "{") eqn:Hb; [|done]. apply Ascii.eqb_eq in Hb as ->.
    destruct (span not_brace s3) as [body s4] eqn:Hs.
    apply span_spec in Hs as (-> & _ & _).
    destruct body as [|x body]; [done|]. destruct s4 as [|e s4]; [done|].
    destruct (Ascii.eqb e "}") eqn:He; [|done]. apply Ascii.eqb_eq in He as ->.
    injection H3 as <-.
    eapply (matched_fragment _ _ _ tag (x :: body) s4 1); [done|by left| |].
    - unfold fragment_of, m_start, m_end, m_group.
      destruct tag; simpl; rewrite ?leb_0_of_nat; simpl; by rewrite !Nat2Z.id.
    - unfold m_len, m_start, m_end. simpl.
      rewrite length_app. simpl. rewrite length_app. simpl. lia. }
  intros H4. unfold match_brace3 in H4.
  destruct s as [|c s1]; [done|].
  destruct (Ascii.eqb c "@") eqn:Hc; [|done]. apply Ascii.eqb_eq in Hc as ->.
  destruct (opt_tag s1) as [tag s2] eqn:Ht. apply opt_tag_spec in Ht as ->.
  destruct s2 as [|b1 [|b2 [|b3 s3]]]; [done..|].
  destruct (Ascii.eqb b1 "{" && Ascii.eqb b2 "{" && Ascii.eqb b3 "{") eqn:Hb; [|done].
  apply andb_true_iff in Hb as [[->%Ascii.eqb_eq ->%Ascii.eqb_eq]%andb_true_iff
                                   ->%Ascii.eqb_eq].
  destruct (until_close3 s3) as [[body r]|] eqn:Hu; [|done].
  apply until_close3_spec in Hu as ->. injection H4 as <-.
  eapply (matched_fragment _ _ _ tag body r 3); [done|by right| |].
  - unfold fragment_of, m_start, m_end, m_group.
    destruct tag; simpl; rewrite ?leb_0_of_nat; simpl; by rewrite !Nat2Z.id.
  - unfold m_len, m_start, m_end. simpl.
    rewrite !length_app. simpl. rewrite !length_app. simpl. lia.
Qed.

Lemma drop_cons_inv {A} (l : list A) pos c r :
  drop pos l = c :: r → drop (S pos) l = r ∧ (pos < length l)%nat.
Proof.
  intros H. split.
  - replace (S pos) with (pos + 1)%nat by lia. by rewrite <-drop_drop, H.
  - destruct (decide (pos < length l)%nat) as [|Hge]; [done|].
    rewrite drop_ge in H by lia. done.
Qed.

(** Every match of the walk is one of the three kinds, at the place of
    the document where it was found. *)
Lemma pieces_loop_matched doc rest : ∀ prev pos skip,
  drop pos doc = rest →
  Forall (λ m, ∃ p, matched p (drop p doc) m) (toks (pieces_loop prev pos rest skip)).
Proof.
  induction rest as [|c rest IH]; intros prev pos skip Hd; simpl; [constructor|].
  destruct (drop_cons_inv _ _ _ _ Hd) as [Hd' _].
  destruct skip as [|n]; [|by apply IH].
  destruct (pypparser_match prev pos (c :: rest)) as [m|] eqn:Hm; simpl.
  - constructor; [|by apply IH]. exists pos. rewrite Hd.
    by eapply pypparser_match_matched.
  - by apply IH.
Qed.

Lemma pieces_matched doc :
  Forall (λ m, ∃ p, matched p (drop p doc) m) (toks (pieces doc)).
Proof. by apply pieces_loop_matched. Qed.

Lemma fragment_of_comment pos line : fragment_of (comment_match pos line) = None.
Proof. unfold fragment_of, m_start. simpl. by rewrite leb_0_of_nat. Qed.

Lemma fragment_of_escape pos : fragment_of (escape_match pos) = None.
Proof. unfold fragment_of, m_start. simpl. by rewrite leb_0_of_nat. Qed.

Section Walk.
Context {St : Type}.
Variable add : Z → SE St unit.
Variable runner : text → nat → text → SE St (option text).

(** What [do_work] does with a match that is no fragment. *)
Lemma do_work_no_fragment doc p s m st :
  matched p s m → fragment_of m = None →
  ∃ r, do_work add runner doc m st = Ok (Some r, st).
Proof.
  intros Hm Hf. rewrite do_work_cases, Hf. destruct Hm as [body rest _ _ ->|rest _ ->|]; simpl.
  - unfold m_start. simpl. rewrite leb_0_of_nat. by eexists.
  - unfold m_start. simpl. rewrite leb_0_of_nat. by eexists.
  - congruence.
Qed.

Lemma emit_total doc ps :
  (∀ n st, ∃ st', add n st = Ok (tt, st')) →
  (∀ z k o st, ∃ r st', runner z k o st = Ok (r, st')) →
  Forall (λ m, ∃ p s, matched p s m) (toks ps) →
  ∀ st, ∃ out st', emit (do_work add runner doc) ps st = Ok (out, st').
Proof.
  intros Ha Hr. induction ps as [|[c|m] ps IH]; intros Hs st; simpl.
  - by eexists _, _.
  - destruct (IH Hs st) as (out & st' & Hout). unfold bind. rewrite Hout. by eexists _, _.
  - simpl in Hs. apply Forall_cons in Hs as [(p & s & Hm) Hs]. unfold bind.
    destruct (fragment_of m) as [fr|] eqn:Hfr.
    + rewrite do_work_cases, Hfr. unfold bind.
      destruct (Ha (Z.of_nat (ln doc (fr_z1 fr)) - Z.of_nat (ln doc (fr_z0 fr)) + 1) st)
        as (st1 & ->).
      destruct (Hr (fr_z fr) (ln doc (fr_z0 fr)) (fr_o fr) st1) as (r & st2 & ->).
      destruct (IH Hs st2) as (out & st' & ->). by eexists _, _.
    + destruct (do_work_no_fragment doc p s m st Hm Hfr) as (r & ->).
      destruct (IH Hs st) as (out & st' & ->). by eexists _, _.
Qed.

(** Property X5.  [process] raises only what the runner or the update of
    the line count raises: when these two return, so does the walk.  In
    particular every match has one of the groups 1, 2, 6 and 9, so
    [do_work] never reads its locals unbound. *)
Theorem process_fails_only_in_its_callbacks doc st :
  (∀ n st, ∃ st', add n st = Ok (tt, st')) →
  (∀ z k o st, ∃ r st', runner z k o st = Ok (r, st')) →
  ∃ out st', process add runner doc st = Ok (out, st').
Proof.
  intros Ha Hr. unfold process. rewrite pypparser_sub_emit.
  apply emit_total; [done..|].
  eapply Forall_impl; [apply pieces_matched|]. intros m [p Hm]. eauto.
Qed.

Lemma pypparser_match_plain prev pos c r :
  c ≠ "@"%char → c ≠ "%"%char → pypparser_match prev pos (c :: r) = None.
Proof.
  intros H1 H2. destruct (pypparser_match prev pos (c :: r)) as [m|] eqn:Hm; [|done].
  apply pypparser_match_matched in Hm. destruct Hm; congruence.
Qed.

Lemma sub_loop_plain f doc : ∀ prev pos (st : St),
  Forall (λ c, c ≠ "@"%char ∧ c ≠ "%"%char) doc →
  sub_loop f prev pos doc 0 st = Ok (doc, st).
Proof.
  induction doc as [|c doc IH]; intros prev pos st Hd; [done|].
  apply Forall_cons in Hd as [[H1 H2] Hd].
  rewrite sub_loop_0, pypparser_match_plain by done. by rewrite IH.
Qed.

(** Property X6.  A text with no at-sign and no percent sign is returned
    by [process] as it is: the runner is not called and the state of the
    object does not change. *)
Theorem text_without_markers_is_copied doc st :
  Forall (λ c, c ≠ "@"%char ∧ c ≠ "%"%char) doc →
  process add runner doc st = Ok (doc, st).
Proof. intros Hd. unfold process, pypparser_sub. by apply sub_loop_plain. Qed.

End Walk.

(** ** Fragments, offsets and lines *)

Lemma matched_fragment_in doc p m fr :
  matched p (drop p doc) m → fragment_of m = Some fr →
  ∃ pre post, doc = pre ++ fr_z fr ++ post ∧ length pre = fr_z0 fr ∧
              fr_z1 fr = (fr_z0 fr + length (fr_z fr))%nat.
Proof.
  intros Hm Hf. destruct Hm as [body rest _ _ ->|rest _ ->|tag body rest n Hs Hn Hfr Hlen].
  - by rewrite fragment_of_comment in Hf.
  - by rewrite fragment_of_escape in Hf.
  - rewrite Hfr in Hf. injection Hf as <-. simpl.
    assert (p < length doc)%nat as Hp by (by eapply drop_cons_inv).
    exists (take p doc ++ "@"%char :: tag_text tag ++ replicate n "{"%char),
           (replicate n "}"%char ++ rest).
    split; [|split; [|done]].
    + rewrite <-(take_drop p doc) at 1. rewrite Hs.
      rewrite <-!app_assoc. simpl. by rewrite <-!app_assoc.
    + rewrite length_app, length_take. simpl.
      rewrite length_app, length_replicate. lia.
Qed.

Lemma ln_app pre z post :
  ln (pre ++ z ++ post) (length pre + length z)
  = (ln (pre ++ z ++ post) (length pre) + length (filter (λ c, c = nl) z))%nat.
Proof.
  unfold ln. rewrite app_assoc, <-length_app, take_app_length.
  rewrite <-app_assoc, take_app_length. by rewrite filter_app, length_app.
Qed.

Lemma matched_fragment_lines doc p m fr :
  matched p (drop p doc) m → fragment_of m = Some fr →
  Z.of_nat (ln doc (fr_z1 fr)) - Z.of_nat (ln doc (fr_z0 fr)) + 1 = body_lines (fr_z fr).
Proof.
  intros Hm Hf.
  destruct (matched_fragment_in doc p m fr Hm Hf) as (pre & post & Hdoc & Hpre & Hz1).
  rewrite Hz1, <-Hpre, Hdoc, ln_app. unfold body_lines. lia.
Qed.

(** Property X7.  The offsets [do_work] reads off a match are those of
    the body in the document, so the number it adds to [lc] for a fragment
    is the number of lines of the body, its newlines and one, and the
    number it passes to the runner is the number of newlines of the
    document before the body. *)
Theorem fragment_offsets_and_lines doc fr :
  fr ∈ fragments_of doc →
  fr_z fr = take (fr_z1 fr - fr_z0 fr) (drop (fr_z0 fr) doc) ∧
  (fr_z0 fr ≤ fr_z1 fr ≤ length doc)%nat ∧
  Z.of_nat (ln doc (fr_z1 fr)) - Z.of_nat (ln doc (fr_z0 fr)) + 1 = body_lines (fr_z fr) ∧
  (call_of doc fr).1.2 = length (filter (λ c, c = nl) (take (fr_z0 fr) doc)).
Proof.
  intros Hin. unfold fragments_of in Hin. apply list_elem_of_omap in Hin as (m & Hm & Hf).
  rewrite <-toks_pieces in Hm.
  pose proof (pieces_matched doc) as Hall. rewrite Forall_forall in Hall.
  destruct (Hall m Hm) as (p & Hp).
  destruct (matched_fragment_in doc p m fr Hp Hf) as (pre & post & Hdoc & Hpre & Hz1).
  split; [|split; [|split; [|done]]].
  - rewrite Hz1, <-Hpre, Hdoc.
    replace (length pre + length (fr_z fr) - length pre)%nat with (length (fr_z fr)) by lia.
    by rewrite drop_app_length, take_app_length.
  - rewrite Hz1, <-Hpre, Hdoc, !length_app. lia.
  - by eapply matched_fragment_lines.
Qed.

Section Lines.
Context {Env : Type} `{!Runtime Env}.
Local Abbreviation M := (SE (world Env)).
Local Abbreviation fld := (@field Env).
Implicit Types (w : world Env).

(** The lines of the fragments among the pieces of a walk. *)
Lemma emit_counts_lines (runner : text → nat → text → M (option text)) doc ps :
  (∀ z k o, preserves (fld "lc") (runner z k o)) →
  Forall (λ m, ∃ p, matched p (drop p doc) m) (toks ps) →
  ∀ w out w' n,
    dict w !! "lc"%string = Some (VInt n) →
    emit (do_work add_lc runner doc) ps w = Ok (out, w') →
    dict w' !! "lc"%string
    = Some (VInt (n + foldr (λ fr k, body_lines (fr_z fr) + k) 0
                          (omap fragment_of (toks ps)))).
Proof.
  intros Hr. induction ps as [|[c|m] ps IH]; intros Hs w out w' n Hn H; simpl in H.
  - injection H as <- <-. simpl. by rewrite Z.add_0_r.
  - inv_bind H as r w1 H1. injection H as <- <-. by eapply IH.
  - simpl in Hs. apply Forall_cons in Hs as [(p & Hm) Hs].
    inv_bind H as r w1 H0. inv_bind H as r' w2 H1. injection H as <- <-.
    simpl. destruct (fragment_of m) as [fr|] eqn:Hfr; simpl.
    + rewrite do_work_cases, Hfr in H0. inv_bind H0 as [] w3 H2.
      rewrite (add_lc_spec _ _ _ Hn) in H2. injection H2 as <-.
      pose proof (Hr _ _ _ _ _ _ H0) as Hk. unfold field in Hk. simpl in Hk.
      rewrite lookup_insert_eq in Hk.
      rewrite (IH Hs _ _ _ _ Hk H1). do 2 f_equal.
      rewrite (matched_fragment_lines doc p m fr Hm Hfr), <-Z.add_assoc. reflexivity.
    + destruct (do_work_no_fragment add_lc runner doc _ _ m w Hm Hfr) as (x & Hx).
      rewrite Hx in H0. injection H0 as <- <-. by eapply IH.
Qed.

Lemma process_counts_lines (runner : text → nat → text → M (option text)) doc w out w' n :
  (∀ z k o, preserves (fld "lc") (runner z k o)) →
  dict w !! "lc"%string = Some (VInt n) →
  process add_lc runner doc w = Ok (out, w') →
  dict w' !! "lc"%string = Some (VInt (n + python_lines doc)).
Proof.
  intros Hr Hn H. unfold process in H. rewrite pypparser_sub_emit in H.
  eapply emit_counts_lines in H; [|done|apply pieces_matched|done].
  by rewrite toks_pieces in H.
Qed.

Lemma scan_pass_lines doc w w1 n :
  dict w !! "lc"%string = Some (VInt n) →
  scan_pass doc w = Ok (tt, w1) →
  dict w1 !! "lc"%string = Some (VInt (n + python_lines doc)) ∧
  stdout w1 = stdout w ++ [FoundLines (VInt (n + python_lines doc))].
Proof.
  intros Hn H. pose proof H as Hspec. apply scan_pass_spec in Hspec as (_ & _ & [lc Hout] & _).
  unfold scan_pass in H.
  inv_bind H as [] w2 H0. injection H0 as <-.
  inv_bind H as out w3 H0. inv_bind H as lc' w4 H1. injection H as <-.
  eapply process_counts_lines in H0;
    [|intros; unfold scanner; repeat keeps_step|by simpl; rewrite lookup_insert_ne].
  unfold getattr in H1. rewrite H0 in H1. injection H1 as <- <-.
  split; [by simpl|]. rewrite Hout. simpl in Hout.
  apply app_inj_tail in Hout as [_ <-]. done.
Qed.

(** Property X8.  The scan pass adds to [lc] the lines of every fragment
    of the document, and the line it prints shows the sum: the count goes
    on from the value the field had. *)
Theorem scan_pass_counts_the_lines doc w w1 n :
  dict w !! "lc"%string = Some (VInt n) →
  scan_pass doc w = Ok (tt, w1) →
  dict w1 !! "lc"%string = Some (VInt (n + python_lines doc)) ∧
  stdout w1 = stdout w ++ [FoundLines (VInt (n + python_lines doc))].
Proof. apply scan_pass_lines. Qed.


End Lines.

(** ** Options the scan refuses *)

Section Options.
Context {Env : Type} `{!Runtime Env}.
Local Abbreviation M := (SE (world Env)).
Implicit Types (w : world Env).

Lemma emit_scanner_refuses doc ps : ∀ w l0 n0,
  Forall (λ m, ∃ p s, matched p s m) (toks ps) →
  Exists (λ fr, fr_o fr ∉ [[]; txt "verbatim"]) (omap fragment_of (toks ps)) →
  dict w !! "fragments"%string = Some (VStrs l0) →
  dict w !! "lc"%string = Some (VInt n0) →
  emit (do_work add_lc scanner doc) ps w = Raise AssertionError.
Proof.
  induction ps as [|[c|m] ps IH]; intros w l0 n0 Hs Hex Hl Hn; simpl in *.
  - by apply Exists_nil in Hex.
  - unfold bind. by erewrite IH.
  - apply Forall_cons in Hs as [(p & s & Hm) Hs]. unfold bind.
    destruct (fragment_of m) as [fr|] eqn:Hfr.
    + rewrite do_work_cases, Hfr. unfold bind. rewrite (add_lc_spec _ _ _ Hn).
      erewrite scanner_spec; [|by simpl; rewrite lookup_insert_ne].
      case_bool_decide as Ho; [|done].
      apply Exists_cons in Hex as [Hbad|Hex]; [done|].
      erewrite IH; [done|done|done| |].
      * simpl. by rewrite lookup_insert_eq.
      * simpl. rewrite lookup_insert_ne by done. by rewrite lookup_insert_eq.
    + destruct (do_work_no_fragment add_lc scanner doc p s m w Hm Hfr) as (r & ->).
      by erewrite IH.
Qed.

(** Property X10.  A fragment whose option is neither empty nor
    [verbatim] stops the compile in the scan pass, which executes nothing:
    [scanner] fails its assertion, and [compile] raises [AssertionError]
    before the cache is examined. *)
Theorem unknown_option_stops_the_scan cache doc w :
  is_int (dict w !! "lc"%string) →
  Exists (λ fr, fr_o fr ∉ [[]; txt "verbatim"]) (fragments_of doc) →
  scan_pass doc w = Raise AssertionError ∧
  compile_doc cache doc w = Raise AssertionError.
Proof.
  intros [n Hn] Hex.
  assert (scan_pass doc w = Raise AssertionError) as Hscan.
  { unfold scan_pass, bind. simpl. unfold process. rewrite pypparser_sub_emit.
    erewrite emit_scanner_refuses; [done| | | |].
    - eapply Forall_impl; [apply pieces_matched|]. intros m [p Hm]. eauto.
    - by rewrite toks_pieces.
    - simpl. by rewrite lookup_insert_eq.
    - simpl. by rewrite lookup_insert_ne. }
  split; [done|]. unfold compile_doc, bind. by rewrite Hscan.
Qed.

End Options.

(** ** [stripext] *)

Lemma nodots_then_end_spec t :
  nodots_then_end t
  = if forallb (λ x, negb (Ascii.eqb x ".")) t then Some (length t) else None.
Proof.
  induction t as [|c t IH]; [done|]. simpl.
  destruct (Ascii.eqb c ".") eqn:Hc; simpl.
  - apply Ascii.eqb_eq in Hc as ->. by destruct t.
  - rewrite IH. destruct (forallb _ t) eqn:Ht; [done|].
    destruct t as [|c' t]; [done|]. done.
Qed.

Lemma ext_then_end_spec t :
  ext_then_end t
  = if is_ext t then Some (length t) else if at_end t then Some O else None.
Proof.
  unfold ext_then_end, is_ext. destruct t as [|c t1]; [done|].
  destruct (Ascii.eqb c ".") eqn:Hc; [|done]. simpl andb.
  rewrite !nodots_then_end_spec.
  destruct t1 as [|p1 [|y [|p2 [|d t2]]]]; simpl.
  - done.
  - destruct (negb (Ascii.eqb p1 ".")); simpl; [done|]. by apply Ascii.eqb_eq in Hc as ->.
  - rewrite orb_false_r.
    by destruct (negb (Ascii.eqb p1 ".") && (negb (Ascii.eqb y ".") && true)).
  - rewrite orb_false_r.
    by destruct (negb (Ascii.eqb p1 ".") &&
                 (negb (Ascii.eqb y ".") && (negb (Ascii.eqb p2 ".") && true))).
  - rewrite nodots_then_end_spec.
    destruct (Ascii.eqb p1 "p" && Ascii.eqb y "y" && Ascii.eqb p2 "p" && Ascii.eqb d ".")
      eqn:Hp; simpl.
    + destruct (forallb _ t2) eqn:Ht2; simpl.
      * by rewrite orb_true_r.
      * rewrite orb_false_r.
        by destruct (negb (Ascii.eqb p1 ".") && _).
    + rewrite orb_false_r.
      by destruct (negb (Ascii.eqb p1 ".") && _).
Qed.

(** The first match: it takes the text up to its first extension and then
    reaches the end, or the text has no extension and ends with a newline,
    before which the match stops. *)
Lemma stripext_match_spec t :
  stripext_match false t = Some (cut_ext t, length t) ∨
  ∃ pre, t = pre ++ [nl] ∧ stripext_match false t = Some (pre, length pre) ∧ cut_ext t = t.
Proof.
  induction t as [|c t IH].
  - by left.
  - cbn [stripext_match cut_ext]. rewrite ext_then_end_spec.
    destruct (is_ext (c :: t)) eqn:He; [by left|].
    destruct (at_end (c :: t)) eqn:Ha.
    + right. destruct t; [|done]. simpl in Ha. apply Ascii.eqb_eq in Ha as ->.
      by exists [].
    + simpl. destruct IH as [->|(pre & -> & -> & Hc)]; [by left|].
      right. exists (c :: pre). by rewrite Hc.
Qed.

Lemma stripext_sub_loop_spec fuel t :
  (2 * length t + 2 ≤ fuel)%nat → stripext_sub_loop fuel false t = cut_ext t.
Proof.
  intros Hf. destruct (stripext_match_spec t) as [Hm|(pre & -> & Hm & Hc)].
  - destruct t as [|c t].
    + destruct fuel as [|[|fuel]]; [simpl in Hf; lia..|]. done.
    + destruct fuel as [|[|[|fuel]]]; [simpl in Hf; lia..|].
      cbn [stripext_sub_loop]. rewrite Hm, drop_all. simpl. by rewrite app_nil_r.
  - rewrite Hc. rewrite length_app in Hf. simpl in Hf.
    destruct fuel as [|[|[|[|fuel]]]]; [lia..|]. cbn [stripext_sub_loop]. rewrite Hm.
    rewrite drop_app_length. destruct pre as [|c pre]; [done|].
    destruct fuel as [|fuel]; [simpl in Hf; lia|]. done.
Qed.

(** Property X11.  [stripext.sub] with group 1 as replacement returns
    the file name up to its first extension, an extension being a dot
    followed by no other dot, or by [pyp], a dot and no other dot; a name
    with no extension is returned as it is.  The empty matches the
    substitution also finds, and the one before a final newline, add
    nothing; more searches than the model allows for change nothing. *)
Theorem stripext_cuts_the_extension (texfilename : text) :
  stripext texfilename = cut_ext texfilename ∧
  ∀ fuel, (2 * length texfilename + 2 ≤ fuel)%nat →
          stripext_sub_loop fuel false texfilename = stripext texfilename.
Proof.
  unfold stripext. split; [by apply stripext_sub_loop_spec|].
  intros fuel Hf. by rewrite !stripext_sub_loop_spec.
Qed.

Lemma forallb_no_dot t :
  forallb (λ x, negb (Ascii.eqb x ".")) t = true ↔ Forall (λ c, c ≠ "."%char) t.
Proof.
  rewrite forallb_forall, Forall_forall. split; intros Hf c Hc.
  - apply list_elem_of_In, Hf, negb_true_iff in Hc. by apply Ascii.eqb_neq.
  - apply negb_true_iff, Ascii.eqb_neq, Hf. by apply list_elem_of_In.
Qed.

Lemma is_ext_inv t :
  is_ext t = true →
  ∃ t1, t = "."%char :: t1 ∧
        (Forall (λ c, c ≠ "."%char) t1 ∨
         ∃ t2, t1 = ["p"; "y"; "p"; "."]%char ++ t2 ∧ Forall (λ c, c ≠ "."%char) t2).
Proof.
  unfold is_ext. destruct t as [|c t1]; [done|].
  intros [->%Ascii.eqb_eq [H|H]%orb_true_iff]%andb_true_iff; exists t1; split; try done.
  - left. by apply forallb_no_dot.
  - right. destruct t1 as [|p1 [|y [|p2 [|d t2]]]]; try done.
    apply andb_true_iff in H as [H Ht2].
    apply andb_true_iff in H as [H ->%Ascii.eqb_eq].
    apply andb_true_iff in H as [H ->%Ascii.eqb_eq].
    apply andb_true_iff in H as [->%Ascii.eqb_eq ->%Ascii.eqb_eq].
    exists t2. split; [done|]. by apply forallb_no_dot.
Qed.

Lemma cut_ext_app pre e :
  is_ext e = true →
  (∀ a b, pre = a ++ b → b ≠ [] → is_ext (b ++ e) = false) →
  cut_ext (pre ++ e) = pre.
Proof.
  intros He. induction pre as [|c pre IH]; intros Hpre.
  - destruct e as [|x e]; [done|]. cbn [app cut_ext]. by rewrite He.
  - pose proof (Hpre [] (c :: pre) eq_refl ltac:(done)) as Hc.
    cbn [app cut_ext] in *. rewrite Hc.
    rewrite IH; [done|]. intros a b -> Hb. by apply (Hpre (c :: a) b).
Qed.

Lemma cut_ext_no_dot s : Forall (λ c, c ≠ "."%char) s → cut_ext s = s.
Proof.
  induction 1 as [|c s Hc _ IH]; [done|]. cbn [cut_ext].
  destruct (is_ext (c :: s)) eqn:He.
  - apply is_ext_inv in He as (t1 & [= -> _] & _). done.
  - by rewrite IH.
Qed.

(** Property X12.  On file names: [stripext] removes a last extension,
    and with it a [.pyp] before it, so that [a.tex], [a.pyp.tex] and [a]
    all give [a], and [a.b.tex] gives [a.b]. *)
Theorem stripext_on_file_names (name ext : text) :
  Forall (λ c, c ≠ "."%char) ext →
  stripext (name ++ txt ".pyp." ++ ext) = name ∧
  (¬ suffix (txt ".pyp") name → stripext (name ++ "."%char :: ext) = name) ∧
  (Forall (λ c, c ≠ "."%char) name → stripext name = name).
Proof.
  intros Hext. unfold stripext. rewrite !stripext_sub_loop_spec by done.
  split; [|split].
  - apply cut_ext_app.
    { unfold txt. simpl. by apply forallb_no_dot. }
    intros a b -> Hb. destruct (is_ext _) eqn:He; [|done].
    apply is_ext_inv in He as (t1 & Heq & Ht1).
    destruct b as [|c b1]; [done|]. injection Heq as -> <-.
    destruct Ht1 as [Hn|(t2 & Heq & Hn)].
    + apply Forall_app in Hn as [_ Hn]. unfold txt in Hn. simpl in Hn.
      by apply Forall_cons in Hn as [? _].
    + unfold txt in Heq. simpl in Heq.
      destruct b1 as [|x1 [|x2 [|x3 [|x4 b2]]]]; simpl in Heq; try done.
      * simplify_eq. by repeat (apply Forall_cons in Hn as [? Hn]).
      * simplify_eq. apply Forall_app in Hn as [_ Hn]. unfold txt in Hn. simpl in Hn.
        by apply Forall_cons in Hn as [? _].
  - intros Hsuf. apply (cut_ext_app name ("."%char :: ext)).
    { simpl. apply orb_true_iff. left. by apply forallb_no_dot. }
    intros a b -> Hb. destruct (is_ext _) eqn:He; [|done].
    apply is_ext_inv in He as (t1 & Heq & Ht1).
    destruct b as [|c b1]; [done|]. injection Heq as -> <-.
    destruct Ht1 as [Hn|(t2 & Heq & Hn)].
    + apply Forall_app in Hn as [_ Hn]. by apply Forall_cons in Hn as [? _].
    + destruct b1 as [|x1 [|x2 [|x3 [|x4 b2]]]]; simpl in Heq; try done.
      * simplify_eq. destruct Hsuf. by exists a.
      * simplify_eq. apply Forall_app in Hn as [_ Hn].
        by apply Forall_cons in Hn as [? _].
  - apply cut_ext_no_dot.
Qed.

(** ** [__init__] *)

Section Init.
Context {Env : Type} `{!Runtime Env}.
Implicit Types (w : world Env).

(** Property X13.  The file [__init__] chooses for the compiled document
    is never the source: it is the stripped name with [.tex], unless that
    is the name of the source, and then the stripped name with [.pyptex].
    The object starts with the module itself as its only dependency, not
    yet resolved. *)
Theorem init_output_is_not_the_source texfilename argv latexcommand w w' :
  init_fields texfilename argv latexcommand w = Ok (tt, w') →
  let filename := stripext_sub texfilename in
  ∃ p, dict w' !! "pyptexfilename"%string = Some (VStr p) ∧
       p ≠ texfilename ∧
       (p = filename ++ txt ".tex" ∨
        texfilename = filename ++ txt ".tex" ∧ p = filename ++ txt ".pyptex") ∧
       dict w' !! "deps"%string = Some (VDeps {[ module_file := [] ]}).
Proof.
  intros H. cbv zeta. unfold init_fields in H.
  match type of H with
  | context [@list_to_map _ _ (gmap string value) _ _ ?l] =>
      set (D := @list_to_map _ _ (gmap string value) _ _ l) in H;
      assert (NoDup l.*1) as Hnd
        by (apply (bool_decide_unpack (NoDup l.*1)); vm_compute; exact I);
      pose proof (elem_of_list_to_map_1 (M:=gmap string) l "pyptexfilename"%string _ Hnd
                    (list_elem_of_lookup_2 l 5 _ eq_refl)) as HD1;
      pose proof (elem_of_list_to_map_1 (M:=gmap string) l "deps"%string _ Hnd
                    (list_elem_of_lookup_2 l 15 _ eq_refl)) as HD2;
      clear Hnd
  end.
  fold D in HD1, HD2. clearbody D.
  inv_bind H as [] w1 H1. injection H1 as <-.
  inv_bind H as [] w2 H2. injection H2 as <-.
  inv_bind H as [] w3 H3. inv_bind H as [] w4 H4. injection H4 as <-.
  inv_bind H as x w5 H5. injection H as <-.
  unfold lift_env in H3. cbn [env set_dict] in H3.
  destruct (makedirs _ _) as [e|]; [|done]. injection H3 as <-.
  erewrite dep_spec in H5;
    [|cbn [dict set_dict set_env]; rewrite !lookup_insert_ne by done; exact HD2].
  injection H5 as _ <-. cbn [dict set_dict set_env].
  rewrite lookup_insert_eq, !lookup_insert_ne by done. rewrite HD1.
  eexists. split; [reflexivity|]. split; [|split; [|by rewrite insert_empty]].
  - case_bool_decide as Hfoo; [done|].
    rewrite <-Hfoo at 2. intros Heq%app_inv_head. done.
  - case_bool_decide as Hfoo; [by left|]. by right.
Qed.

End Init.

(** ** [pp] *)

Section PPFacts.
Context {Env : Type} `{!Runtime Env}.
Variable frame_eval : nat → text → SE (world Env) value.
Implicit Types (w : world Env).

Lemma ppparser_match_inv pos s m :
  ppparser_match pos s = Some m →
  ∃ src rest n,
    s = "@"%char :: replicate n "{"%char ++ src ++ replicate n "}"%char ++ rest ∧
    m_len m = (1 + n + length src + n)%nat ∧
    (∀ levels, pp_do_work frame_eval levels m = pp_subst frame_eval levels src) ∧
    (n = 0%nat ∧ (∃ d r, src = d :: r ∧ is_ident_start d = true ∧
                   Forall (λ c, is_ident_char c = true) r) ∧
       match rest with c :: _ => is_ident_char c = false | [] => True end
     ∨ n = 1%nat ∧ Forall (λ c, not_brace c = true) src).
Proof.
  unfold ppparser_match. destruct s as [|c [|d s2]]; try done.
  destruct (Ascii.eqb c "@") eqn:Hc; [|done]. apply Ascii.eqb_eq in Hc as ->.
  destruct (is_ident_start d) eqn:Hd.
  - destruct (span is_ident_char s2) as [r rest] eqn:Hs.
    apply span_spec in Hs as (-> & Hr & Hrest). intros [= <-].
    exists (d :: r), rest, 0%nat. split; [done|]. split; [|split].
    + unfold m_len, m_start, m_end. simpl. lia.
    + intros levels. unfold pp_do_work, pp_subst, m_start, m_group. simpl.
      by rewrite leb_0_of_nat.
    + left. split; [done|]. split; [|done]. by exists d, r.
  - destruct (Ascii.eqb d "{") eqn:Hb; [|done]. apply Ascii.eqb_eq in Hb as ->.
    destruct (span not_brace s2) as [body s3] eqn:Hs.
    apply span_spec in Hs as (-> & Hbody & _).
    destruct s3 as [|e s3]; [done|].
    destruct (Ascii.eqb e "}") eqn:He; [|done]. apply Ascii.eqb_eq in He as ->.
    intros [= <-]. exists body, s3, 1%nat. split; [done|]. split; [|split].
    + unfold m_len, m_start, m_end. simpl. rewrite length_app. simpl. lia.
    + intros levels. unfold pp_do_work, pp_subst, m_start, m_group. simpl.
      by rewrite leb_0_of_nat.
    + by right.
Qed.

Lemma pp_sub_loop_total levels rest :
  (∀ src w, ∃ s w', frame_eval levels src w = Ok (VStr s, w')) →
  ∀ pos skip w, ∃ out w', pp_sub_loop frame_eval levels pos rest skip w = Ok (out, w').
Proof.
  intros Hev. induction rest as [|c rest IH]; intros pos skip w; cbn [pp_sub_loop].
  - by eexists _, _.
  - destruct skip as [|n]; [|apply IH].
    destruct (ppparser_match pos (c :: rest)) as [m|] eqn:Hm.
    + apply ppparser_match_inv in Hm as (src & r & n & _ & _ & Hdo & _).
      unfold bind. rewrite Hdo. unfold pp_subst, bind.
      destruct (Hev src w) as (s & w1 & ->). simpl.
      destruct (IH (S pos) (m_len m - 1)%nat w1) as (out & w' & ->). by eexists _, _.
    + unfold bind. destruct (IH (S pos) 0%nat w) as (out & w' & ->). by eexists _, _.
Qed.


End PPFacts.

Section PPSplice.
Context {Env : Type} `{!Runtime Env}.
Variable frame_eval : nat → text → SE (world Env) value.
Implicit Types (w : world Env).

Lemma span_all p a b :
  Forall (λ c, p c = true) a →
  match b with c :: _ => p c = false | [] => True end →
  span p (a ++ b) = (a, b).
Proof.
  intros Ha Hb. induction Ha as [|x a Hx _ IH]; simpl.
  - destruct b as [|c b]; [done|]. simpl. by rewrite Hb.
  - by rewrite Hx, IH.
Qed.

(** The offsets play no part in [pp]. *)
Lemma ppparser_match_pos pos pos' s :
  match ppparser_match pos s, ppparser_match pos' s with
  | Some m, Some m' =>
      m_len m = m_len m' ∧
      ∀ levels, pp_do_work frame_eval levels m = pp_do_work frame_eval levels m'
  | None, None => True
  | _, _ => False
  end.
Proof.
  unfold ppparser_match. destruct s as [|c [|d s2]]; try done.
  destruct (Ascii.eqb c "@"); [|done].
  destruct (is_ident_start d).
  - destruct (span is_ident_char s2) as [r rest].
    split; [unfold m_len, m_start, m_end; simpl; lia|].
    intros levels. unfold pp_do_work, m_start, m_group. simpl. by rewrite !leb_0_of_nat.
  - destruct (Ascii.eqb d "{"); [|done].
    destruct (span not_brace s2) as [body [|e s3]]; [done|].
    destruct (Ascii.eqb e "}"); [|done].
    split; [unfold m_len, m_start, m_end; simpl; lia|].
    intros levels. unfold pp_do_work, m_start, m_group. simpl. by rewrite !leb_0_of_nat.
Qed.

Lemma pp_sub_loop_pos levels rest : ∀ pos pos' skip w,
  pp_sub_loop frame_eval levels pos rest skip w
  = pp_sub_loop frame_eval levels pos' rest skip w.
Proof.
  induction rest as [|c rest IH]; intros pos pos' skip w; cbn [pp_sub_loop]; [done|].
  destruct skip as [|n]; [|apply IH].
  pose proof (ppparser_match_pos pos pos' (c :: rest)) as Hm.
  destruct (ppparser_match pos (c :: rest)) as [m|],
           (ppparser_match pos' (c :: rest)) as [m'|]; try done.
  - destruct Hm as [-> ->]. unfold bind.
    destruct (pp_do_work _ _ _ _) as [[r w1]|]; [|done].
    by rewrite (IH (S pos) (S pos')).
  - unfold bind. by rewrite (IH (S pos) (S pos')).
Qed.

Lemma pp_sub_loop_skip levels chunk : ∀ pos rest w,
  pp_sub_loop frame_eval levels pos (chunk ++ rest) (length chunk) w
  = pp_sub_loop frame_eval levels 0 rest 0 w.
Proof.
  induction chunk as [|c chunk IH]; intros pos rest w; simpl.
  - apply pp_sub_loop_pos.
  - apply IH.
Qed.

Lemma ppparser_match_plain pos c r : c ≠ "@"%char → ppparser_match pos (c :: r) = None.
Proof.
  intros Hc. unfold ppparser_match. destruct r; [done|].
  by apply Ascii.eqb_neq in Hc as ->.
Qed.

Lemma pp_sub_loop_plain levels pre rest : ∀ pos w,
  Forall (λ c, c ≠ "@"%char) pre →
  pp_sub_loop frame_eval levels pos (pre ++ rest) 0 w
  = match pp_sub_loop frame_eval levels 0 rest 0 w with
    | Ok (out, w') => Ok (pre ++ out, w')
    | Raise e => Raise e
    end.
Proof.
  induction pre as [|c pre IH]; intros pos w Hpre.
  - simpl. rewrite (pp_sub_loop_pos _ _ pos 0%nat).
    by destruct (pp_sub_loop _ _ _ _ _ _) as [[??]|].
  - apply Forall_cons in Hpre as [Hc Hpre]. cbn [app pp_sub_loop].
    rewrite ppparser_match_plain by done. unfold bind. rewrite IH by done.
    by destruct (pp_sub_loop _ _ _ _ _ _) as [[??]|].
Qed.

Lemma pp_at_match levels src post n pos w m :
  ppparser_match pos ("@"%char :: replicate n "{"%char ++ src ++
                        replicate n "}"%char ++ post) = Some m →
  m_len m = (1 + n + length src + n)%nat →
  pp_do_work frame_eval levels m = pp_subst frame_eval levels src →
  pp_sub_loop frame_eval levels pos
    ("@"%char :: replicate n "{"%char ++ src ++ replicate n "}"%char ++ post) 0 w
  = pp_spliced frame_eval [] src post levels w.
Proof.
  intros Hm Hlen Hdo. cbn [pp_sub_loop]. rewrite Hm. unfold pp_spliced, bind.
  rewrite Hdo. destruct (pp_subst _ _ _ _) as [[r w1]|]; [|done].
  rewrite Hlen.
  replace (1 + n + length src + n - 1)%nat
    with (length (replicate n "{"%char ++ src ++ replicate n "}"%char))
    by (rewrite !length_app, !length_replicate; lia).
  replace (replicate n "{"%char ++ src ++ replicate n "}"%char ++ post)
    with ((replicate n "{"%char ++ src ++ replicate n "}"%char) ++ post)
    by (by rewrite <-!app_assoc).
  by rewrite pp_sub_loop_skip.
Qed.

(** Property X15.  [pp] copies the text before the first at-sign, puts
    the rendering of the expression in the place of the match, and goes on
    with the rest of the text: for a name, which ends where the letters,
    digits and underscores end, and for an expression between braces. *)
Theorem pp_substitutes_in_place pre post levels w :
  Forall (λ c, c ≠ "@"%char) pre →
  (∀ d r, is_ident_start d = true → Forall (λ c, is_ident_char c = true) r →
          match post with c :: _ => is_ident_char c = false | [] => True end →
          pp frame_eval (pre ++ "@"%char :: d :: r ++ post) levels w
          = pp_spliced frame_eval pre (d :: r) post levels w) ∧
  (∀ body, Forall (λ c, not_brace c = true) body →
           pp frame_eval (pre ++ "@"%char :: "{"%char :: body ++ "}"%char :: post) levels w
           = pp_spliced frame_eval pre body post levels w).
Proof.
  intros Hpre.
  assert (∀ src n m,
    ppparser_match 0 ("@"%char :: replicate n "{"%char ++ src ++
                        replicate n "}"%char ++ post) = Some m →
    m_len m = (1 + n + length src + n)%nat →
    pp_do_work frame_eval levels m = pp_subst frame_eval levels src →
    pp frame_eval (pre ++ "@"%char :: replicate n "{"%char ++ src ++
                     replicate n "}"%char ++ post) levels w
    = pp_spliced frame_eval pre src post levels w) as Hgen.
  { intros src n m Hm Hlen Hdo. unfold pp. rewrite pp_sub_loop_plain by done.
    rewrite (pp_at_match _ _ _ _ _ _ m) by done.
    unfold pp_spliced, bind. destruct (pp_subst _ _ _ _) as [[r w1]|]; [|done].
    destruct (pp _ _ _ _) as [[out w2]|]; [|done]. unfold ret. by rewrite app_nil_l. }
  split.
  - intros d r Hd Hr Hpost.
    eapply (Hgen (d :: r) 0%nat).
    + unfold ppparser_match. simpl. rewrite Hd, (span_all _ r post) by done. done.
    + unfold m_len, m_start, m_end. simpl. lia.
    + unfold pp_do_work, pp_subst, m_start, m_group. simpl. by rewrite ?leb_0_of_nat.
  - intros body Hbody.
    eapply (Hgen body 1%nat).
    + unfold ppparser_match. simpl. rewrite (span_all _ body ("}"%char :: post)) by done.
      done.
    + unfold m_len, m_start, m_end. simpl. rewrite length_app. simpl. lia.
    + unfold pp_do_work, pp_subst, m_start, m_group. simpl. by rewrite ?leb_0_of_nat.
Qed.

End PPSplice.

(** ** [cite] *)

Lemma strip_spec sp1 core sp2 :
  Forall (λ c, is_space c = true) sp1 → Forall (λ c, is_space c = true) sp2 →
  match head core with Some c => is_space c = false | None => True end →
  match last core with Some c => is_space c = false | None => True end →
  strip (sp1 ++ core ++ sp2) = core.
Proof.
  intros H1 H2 Hh Hl. unfold strip, rstrip, lstrip.
  destruct core as [|c core].
  - simpl. rewrite <-(app_nil_r (sp1 ++ sp2)), (span_all is_space (sp1 ++ sp2) []); [done| |done].
    by apply Forall_app.
  - rewrite (span_all is_space sp1 ((c :: core) ++ sp2)) by done. simpl snd.
    change (c :: core ++ sp2) with ((c :: core) ++ sp2). rewrite reverse_app.
    rewrite (span_all is_space (reverse sp2) (reverse (c :: core))).
    + simpl. by rewrite reverse_involutive.
    + by apply Forall_reverse.
    + rewrite <-(reverse_involutive (c :: core)), last_reverse in Hl.
      by destruct (reverse (c :: core)).
Qed.

Section Cite.
Context {Env : Type} `{!Runtime Env}.
Implicit Types (w : world Env).

Lemma bibentryname_match_key pre key rest :
  Forall (λ c, c ≠ "{"%char) pre → Forall (λ c, c ≠ ","%char) key →
  ∃ m, bibentryname_match (pre ++ "{"%char :: key ++ ","%char :: rest) = Some m ∧
       m_group m 1 = Some key.
Proof.
  intros Hpre Hkey. unfold bibentryname_match.
  rewrite (span_all _ pre ("{"%char :: key ++ ","%char :: rest)); [|
    by eapply Forall_impl; [exact Hpre|]; intros c Hc; apply negb_true_iff, Ascii.eqb_neq|done].
  rewrite (span_all _ key (","%char :: rest)); [|
    by eapply Forall_impl; [exact Hkey|]; intros c Hc; apply negb_true_iff, Ascii.eqb_neq|done].
  by eexists.
Qed.

Lemma bibentryname_match_none b :
  Forall (λ c, c ≠ "{"%char) b ∨
  (∃ pre rest, b = pre ++ "{"%char :: rest ∧ Forall (λ c, c ≠ "{"%char) pre ∧
               Forall (λ c, c ≠ ","%char) rest) →
  bibentryname_match b = None.
Proof.
  unfold bibentryname_match. intros [Hb|(pre & rest & -> & Hpre & Hrest)].
  - rewrite <-(app_nil_r b), (span_all _ b []); [done| |done].
    eapply Forall_impl; [exact Hb|]. intros c Hc. by apply negb_true_iff, Ascii.eqb_neq.
  - rewrite (span_all _ pre ("{"%char :: rest)); [|
      by eapply Forall_impl; [exact Hpre|]; intros c Hc; apply negb_true_iff, Ascii.eqb_neq|done].
    rewrite <-(app_nil_r rest), (span_all _ rest []); [done| |done].
    eapply Forall_impl; [exact Hrest|]. intros c Hc. by apply negb_true_iff, Ascii.eqb_neq.
Qed.

(** Property X16.  [cite] appends the entry to [bibs] and returns its
    key: the text between the first opening brace and the next comma,
    without the white space around it.  An entry with no opening brace, or
    with no comma after the first one, makes it raise [AttributeError],
    the pattern not matching. *)
Theorem cite_returns_the_key l w :
  dict w !! "bibs"%string = Some (VStrs l) →
  (∀ pre sp1 core sp2 rest,
     Forall (λ c, c ≠ "{"%char) pre →
     Forall (λ c, c ≠ ","%char) (sp1 ++ core ++ sp2) →
     Forall (λ c, is_space c = true) sp1 → Forall (λ c, is_space c = true) sp2 →
     match head core with Some c => is_space c = false | None => True end →
     match last core with Some c => is_space c = false | None => True end →
     let b := pre ++ "{"%char :: (sp1 ++ core ++ sp2) ++ ","%char :: rest in
     cite b w = Ok (core, set_dict (insert "bibs"%string (VStrs (l ++ [b]))) w)) ∧
  (∀ b, Forall (λ c, c ≠ "{"%char) b ∨
        (∃ pre rest, b = pre ++ "{"%char :: rest ∧ Forall (λ c, c ≠ "{"%char) pre ∧
                     Forall (λ c, c ≠ ","%char) rest) →
        cite b w = Raise AttributeError).
Proof.
  intros Hl. split.
  - intros pre sp1 core sp2 rest Hpre Hkey H1 H2 Hh Hla b.
    unfold cite, bibs_append, bind. rewrite (getattr_Some _ _ _ Hl). simpl.
    destruct (bibentryname_match_key pre (sp1 ++ core ++ sp2) rest Hpre Hkey) as (m & Hm & Hg).
    subst b. rewrite Hm, Hg. simpl. by rewrite strip_spec.
  - intros b Hb. unfold cite, bibs_append, bind. rewrite (getattr_Some _ _ _ Hl). simpl.
    by rewrite bibentryname_match_none.
Qed.

End Cite.

(** ** [freeze] and [clear] *)

Section ScopeFacts.
Context {V : Type}.
Implicit Types (foo bar : gmap string V).

Lemma foldl_insert_lookup (l : list (string * V)) : ∀ bar k,
  NoDup l.*1 →
  foldl (λ b kv, <[kv.1 := kv.2]> b) bar l !! k
  = match (list_to_map l : gmap string V) !! k with
    | Some v => Some v
    | None => bar !! k
    end.
Proof.
  induction l as [|[k0 v0] l IH]; intros bar k Hnd; simpl; [done|].
  apply NoDup_cons in Hnd as [Hk0 Hnd]. rewrite IH by done.
  destruct (decide (k = k0)) as [->|Hne].
  - rewrite (not_elem_of_list_to_map_1 _ _ Hk0). by rewrite !lookup_insert_eq.
  - by rewrite !lookup_insert_ne.
Qed.

Lemma foldl_delete_lookup foo (kk : list string) : ∀ bar i,
  foldl (λ b k, match foo !! k with Some _ => b | None => delete k b end) bar kk !! i
  = if decide (i ∈ kk ∧ foo !! i = None) then None else bar !! i.
Proof.
  induction kk as [|k kk IH]; intros bar i; simpl.
  - destruct (decide (i ∈ [] ∧ foo !! i = None)) as [[Hin _]|_]; [|done].
    by apply elem_of_nil in Hin.
  - rewrite IH.
    destruct (decide (i ∈ kk ∧ foo !! i = None)) as [[Hin Hn]|Hd1];
      destruct (decide (i ∈ k :: kk ∧ foo !! i = None)) as [[Hin' Hn']|Hd2]; try done.
    + destruct Hd2. split; [by right|done].
    + apply elem_of_cons in Hin' as [->|Hin']; [|by destruct Hd1].
      rewrite Hn'. by rewrite lookup_delete_eq.
    + destruct (foo !! k) as [v|] eqn:Hk; [done|].
      destruct (decide (i = k)) as [->|Hne]; [|by rewrite lookup_delete_ne].
      destruct Hd2. split; [by left|done].
Qed.

Lemma clear_globals (s : scopes V) : f_globals (clear s) = frozen s.
Proof.
  unfold clear. simpl. apply map_eq. intros i.
  rewrite foldl_delete_lookup.
  assert (∀ k, foldl (λ b kv, <[kv.1 := kv.2]> b) (f_globals s) (map_to_list (frozen s)) !! k
               = match frozen s !! k with Some v => Some v | None => f_globals s !! k end)
    as Hbar.
  { intros k. rewrite foldl_insert_lookup by apply NoDup_fst_map_to_list.
    by rewrite list_to_map_to_list. }
  case_decide as Hd.
  - by destruct Hd as [_ ->].
  - rewrite Hbar. destruct (frozen s !! i) as [v|] eqn:Hi; [done|].
    destruct (f_globals s !! i) as [x|] eqn:Hg; [|done].
    destruct Hd. split; [|done].
    apply list_elem_of_fmap. exists (i, x). split; [done|].
    apply elem_of_map_to_list. by rewrite Hbar, Hi.
Qed.


End ScopeFacts.

(** ** The command line *)

Lemma list_remove_spec x l :
  match list_remove x l with
  | Some l' =>
      x ∈ l ∧ length l = S (length l') ∧
      (∀ y, y ≠ x → (y ∈ l' ↔ y ∈ l)) ∧
      filter (λ y, y ≠ x) l' = filter (λ y, y ≠ x) l
  | None => x ∉ l
  end.
Proof.
  induction l as [|y l IH]; simpl.
  - apply not_elem_of_nil.
  - case_bool_decide as Hy.
    + subst y. split; [by left|]. split; [done|]. split.
      * intros y Hne. rewrite elem_of_cons. intuition congruence.
      * rewrite filter_cons_False; [done|]. intros Hc. by apply Hc.
    + destruct (list_remove x l) as [l'|]; simpl.
      * destruct IH as (Hin & Hlen & Hmem & Hfil). split; [by right|].
        split; [by rewrite Hlen|]. split.
        -- intros z Hz. rewrite !elem_of_cons, Hmem by done. done.
        -- rewrite !filter_cons, Hfil. done.
      * rewrite elem_of_cons. intuition congruence.
Qed.

Lemma filter_two (x y : text) (l l1 l2 : list text) :
  filter (λ z, z ≠ x) l1 = filter (λ z, z ≠ x) l →
  filter (λ z, z ≠ y) l2 = filter (λ z, z ≠ y) l1 →
  filter (λ z, z ≠ x ∧ z ≠ y) l2 = filter (λ z, z ≠ x ∧ z ≠ y) l.
Proof.
  intros H1 H2. rewrite <-!list_filter_filter, H2.
  rewrite !list_filter_filter.
  rewrite (list_filter_iff (λ z, z ≠ x ∧ z ≠ y) (λ z, z ≠ y ∧ z ≠ x)) by (intros; tauto).
  rewrite (list_filter_iff (λ z, z ≠ x ∧ z ≠ y) (λ z, z ≠ y ∧ z ≠ x) l) by (intros; tauto).
  by rewrite <-!list_filter_filter, H1.
Qed.


(** ** The three-brace form *)

Lemma until_close3_cons c s :
  until_close3 (c :: s) =
  match c :: s with
  | c1 :: c2 :: c3 :: r =>
      if Ascii.eqb c1 "}" && Ascii.eqb c2 "}" && Ascii.eqb c3 "}"
      then Some ([], r)
      else match until_close3 s with
           | Some (b, r') => Some (c :: b, r')
           | None => None
           end
  | _ => None
  end.
Proof. done. Qed.


(** ** The further properties on the small runtime *)

(** Decides a closed decidable proposition by evaluation. *)
Ltac by_evaluation P := apply (bool_decide_unpack P); vm_compute; exact I.

(** Property X2, at an object that has just been initialized. *)
Lemma resolvedeps_stamps_every_key_witness :
  let w := fresh doc1 in
  let d : gmap text text := {[ txt "pyptex.py" := [] ]} in
  ∃ d', let w' := set_dict (insert "deps"%string (VDeps d')) w in
    resolvedeps w = Ok (tt, w') ∧
    dom d' = dom d ∧
    (∀ k, k ∈ dom d → d' !! k = Some (datestamp (env w) k)) ∧
    (∀ k e, k ∈ dom d → stat_mtime_ns k (env w) = Raise e → d' !! k = Some []) ∧
    resolvedeps w' = Ok (tt, w').
Proof.
  intros w d. apply (resolvedeps_stamps_every_key d w). vm_compute. reflexivity.
Defined.


(** Property X4, with two figures in the registry, the second one drawn. *)
Lemma showall_prints_the_undrawn_witness :
  let w := set_figs (λ _, {[ 1%nat := Figure (Some (txt "g.eps")) (Some (txt "g"))
                                              (Some true) ]})
             (with_figures [0; 1]%nat (fresh doc1)) in
  let w' := after showall w in
  accum w' = accum w ++
    map VFigure (filter (λ id, drawn (attrs w id) ≠ Some true)
                   (get_all_fig_managers (env w))) ∧
  (∀ id, drawn (attrs w' id) = Some true ↔ drawn (attrs w id) = Some true).
Proof.
  intros w w'. apply (showall_prints_the_undrawn w w'). vm_compute. reflexivity.
Defined.

(** Property X5, at the runner that substitutes the body. *)
Lemma process_fails_only_in_its_callbacks_witness :
  ∃ out st', process (St:=unit) no_lc replacer doc1 tt = Ok (out, st').
Proof.
  apply (process_fails_only_in_its_callbacks no_lc replacer doc1 tt).
  - intros n st. exists st. reflexivity.
  - intros z k o st. exists (Some (txt "<" ++ z ++ txt ">")), st. reflexivity.
Defined.

(** Property X6, at a text with braces and brackets but no marker. *)
Lemma text_without_markers_is_copied_witness :
  process no_lc recorder (txt "f{x} [y]") [] = Ok (txt "f{x} [y]", []).
Proof.
  apply (text_without_markers_is_copied no_lc recorder (txt "f{x} [y]") []).
  by_evaluation (Forall (λ c, c ≠ "@"%char ∧ c ≠ "%"%char) (txt "f{x} [y]")).
Defined.

(** Property X7, at the verbatim fragment of [doc1]. *)
Lemma fragment_offsets_and_lines_witness :
  let fr := Fragment (txt "x=1") 23 26 (txt "verbatim") in
  fr_z fr = take (fr_z1 fr - fr_z0 fr) (drop (fr_z0 fr) doc1) ∧
  (fr_z0 fr ≤ fr_z1 fr ≤ length doc1)%nat ∧
  Z.of_nat (ln doc1 (fr_z1 fr)) - Z.of_nat (ln doc1 (fr_z0 fr)) + 1 = body_lines (fr_z fr) ∧
  (call_of doc1 fr).1.2 = length (filter (λ c, c = nl) (take (fr_z0 fr) doc1)).
Proof.
  intros fr. apply (fragment_offsets_and_lines doc1 fr).
  apply (list_elem_of_lookup_2 _ 1%nat). vm_compute. reflexivity.
Defined.

(** Property X8, at the scan of [doc1]. *)
Lemma scan_pass_counts_the_lines_witness :
  let w := fresh doc1 in
  let w1 := after (scan_pass doc1) w in
  dict w1 !! "lc"%string = Some (VInt (0 + python_lines doc1)) ∧
  stdout w1 = stdout w ++ [FoundLines (VInt (0 + python_lines doc1))].
Proof.
  intros w w1. apply (scan_pass_counts_the_lines doc1 w w1 0); vm_compute; reflexivity.
Defined.


(** Property X10, at a fragment with the option [x]. *)
Lemma unknown_option_stops_the_scan_witness :
  let doc := txt "a @[x]{1} b" in
  scan_pass doc (fresh doc) = Raise AssertionError ∧
  compile_doc (fill_defaults ∅) doc (fresh doc) = Raise AssertionError.
Proof.
  intros doc. apply (unknown_option_stops_the_scan (fill_defaults ∅) doc (fresh doc)).
  - exists 0. vm_compute. reflexivity.
  - by_evaluation (Exists (λ fr, fr_o fr ∉ [[]; txt "verbatim"]) (fragments_of doc)).
Defined.

(** Property X12, at the names [a.tex], [a.pyp.tex] and [a]. *)
Lemma stripext_on_file_names_witness :
  stripext (txt "a.pyp.tex") = txt "a" ∧
  (¬ suffix (txt ".pyp") (txt "a") → stripext (txt "a.tex") = txt "a") ∧
  (Forall (λ c, c ≠ "."%char) (txt "a") → stripext (txt "a") = txt "a").
Proof.
  apply (stripext_on_file_names (txt "a") (txt "tex")).
  by_evaluation (Forall (λ c, c ≠ "."%char) (txt "tex")).
Defined.

(** Property X13, at [pyptex('a.tex')]. *)
Lemma init_output_is_not_the_source_witness :
  let w' := fresh doc1 in
  let filename := stripext_sub (txt "a.tex") in
  ∃ p, dict w' !! "pyptexfilename"%string = Some (VStr p) ∧
       p ≠ txt "a.tex" ∧
       (p = filename ++ txt ".tex" ∨
        txt "a.tex" = filename ++ txt ".tex" ∧ p = filename ++ txt ".pyptex") ∧
       dict w' !! "deps"%string = Some (VDeps {[ module_file := [] ]}).
Proof.
  intros w'.
  apply (init_output_is_not_the_source (txt "a.tex") None (VBool false) (start doc1) w').
  vm_compute. reflexivity.
Defined.


(** Property X15, at the example of the documentation of [pp]. *)
Lemma pp_substitutes_in_place_witness :
  pp echo_eval (txt "$x=@x$") 1 (start doc1)
  = pp_spliced echo_eval (txt "$x=") (txt "x") (txt "$") 1 (start doc1).
Proof.
  destruct (pp_substitutes_in_place echo_eval (txt "$x=") (txt "$") 1 (start doc1))
    as [H _].
  - by_evaluation (Forall (λ c, c ≠ "@"%char) (txt "$x=")).
  - apply (H "x"%char []); [reflexivity|constructor|reflexivity].
Defined.

(** Property X16, at the entry of the documentation of [cite], with blanks
    around the key. *)
Lemma cite_returns_the_key_witness :
  let w := fresh doc1 in
  let b := txt "@article{ seb97 ,title=Some title}" in
  cite b w = Ok (txt "seb97", set_dict (insert "bibs"%string (VStrs [b])) w) ∧
  cite (txt "seb97") w = Raise AttributeError.
Proof.
  intros w b.
  destruct (cite_returns_the_key [] w) as [H1 H2]; [vm_compute; reflexivity|].
  split.
  - apply (H1 (txt "@article") (txt " ") (txt "seb97") (txt " ") (txt "title=Some title}")).
    + by_evaluation (Forall (λ c, c ≠ "{"%char) (txt "@article")).
    + by_evaluation (Forall (λ c, c ≠ ","%char) (txt " " ++ txt "seb97" ++ txt " ")).
    + by_evaluation (Forall (λ c, is_space c = true) (txt " ")).
    + by_evaluation (Forall (λ c, is_space c = true) (txt " ")).
    + reflexivity.
    + reflexivity.
  - apply H2. left. by_evaluation (Forall (λ c, c ≠ "{"%char) (txt "seb97")).
Defined.

